(** * Rocq model of the Writer export base class, the document links
    administration manager, the Quartz text backend and the bibliography
    table of the office suite excerpt.

    Pointers are addresses (indices) into the containers they point into,
    integers are [Z], [N] or [nat], strings are [string] or lists of
    characters, and every function keeps the name it has in the C++
    source. *)

From Equations Require Import Equations.
From Stdlib Require Import String Ascii ZArith NArith Lia Bool List.
Import ListNotations.
Local Open Scope Z_scope.

(** ** The export writer base class (Writer) *)
Module Wrt.

(** *** Numbers written to the stream *)

(* What has been written to a stream. *)
Definition SvStream := list ascii.

Definition NUL : ascii := Ascii.zero.

(* aBuf[k] = c on an array held as a list; a store outside the array is dropped *)
Fixpoint store (aBuf : list ascii) (k : nat) (c : ascii) : list ascii :=
  match aBuf, k with
  | [], _ => []
  | _ :: t, O => c :: t
  | h :: t, S k' => h :: store t k' c
  end.

Definition poke (aBuf : list ascii) (i : Z) (c : ascii) : list ascii :=
  if i <? 0 then aBuf else store aBuf (Z.to_nat i) c.

(* the characters of the C string at &aBuf[i]: up to the first 0 *)
Fixpoint until_nul (l : list ascii) : list ascii :=
  match l with
  | [] => []
  | c :: t => if Ascii.eqb c NUL then [] else c :: until_nul t
  end.

Definition c_str (aBuf : list ascii) (i : Z) : list ascii :=
  if i <? 0 then [] else until_nul (skipn (Z.to_nat i) aBuf).

(* rStrm.WriteCharPtr( p ) *)
Definition WriteCharPtr (rStrm : SvStream) (p : list ascii) : SvStream := rStrm ++ p.

Definition SAL_N_ELEMENTS_aBuf : Z := 28.

(* do {
       aBuf[--i] = '0' + static_cast<char>(nVal % 10);
       nVal /= 10;
   } while (nVal); *)
Equations? digit_loop (aBuf : list ascii) (i : Z) (nVal : N) : list ascii * Z
  by wf (N.to_nat (N.log2 nVal)) lt :=
  digit_loop aBuf i nVal with N.eq_dec (nVal / 10) 0 => {
    | left _ := (poke aBuf (i - 1) (ascii_of_N (48 + nVal mod 10)), i - 1);
    | right _ := digit_loop (poke aBuf (i - 1) (ascii_of_N (48 + nVal mod 10)))
                            (i - 1) (nVal / 10) }.
Proof.
  assert (H : (N.log2 (2 * (nVal / 10)) <= N.log2 nVal)%N).
  { apply N.log2_le_mono.
    pose proof (N.Div0.mul_div_le nVal 10). lia. }
  rewrite N.log2_double in H by (now apply N.neq_0_lt_0). lia.
Qed.

(* SvStream& lcl_OutLongExt( SvStream& rStrm, sal_uLong nVal, bool bNeg );
   [aBuf] is the local array as the call finds it: char aBuf[28] is not
   initialised. *)
Definition lcl_OutLongExt (aBuf : list ascii) (rStrm : SvStream) (nVal : N)
    (bNeg : bool) : SvStream :=
  let i := SAL_N_ELEMENTS_aBuf in
  let i := i - 1 in
  let aBuf := poke aBuf i NUL in
  let '(aBuf, i) := digit_loop aBuf i nVal in
  let '(aBuf, i) := if bNeg then (poke aBuf (i - 1) "-"%char, i - 1) else (aBuf, i) in
  WriteCharPtr rStrm (c_str aBuf i).

(* tools::Long and sal_uLong are long and unsigned long, 64 bits wide on
   the platforms of the Quartz backend. *)
Definition LONG_BITS : Z := 64.
Definition wrap_long (v : Z) : Z :=
  (v + 2 ^ (LONG_BITS - 1)) mod 2 ^ LONG_BITS - 2 ^ (LONG_BITS - 1).
Definition to_sal_uLong (v : Z) : N := Z.to_N (v mod 2 ^ LONG_BITS).

(* SvStream& Writer::OutLong( SvStream& rStrm, tools::Long nVal ) *)
Definition OutLong (aBuf : list ascii) (rStrm : SvStream) (nVal : Z) : SvStream :=
  let bNeg := nVal <? 0 in
  let nVal := if bNeg then wrap_long (- nVal) else nVal in
  lcl_OutLongExt aBuf rStrm (to_sal_uLong nVal) bNeg.

(* SvStream& Writer::OutULong( SvStream& rStrm, sal_uLong nVal ) *)
Definition OutULong (aBuf : list ascii) (rStrm : SvStream) (nVal : N) : SvStream :=
  lcl_OutLongExt aBuf rStrm nVal false.

(** Reading a digit string back. *)
Definition is_digit (c : ascii) : bool :=
  ((48 <=? N_of_ascii c) && (N_of_ascii c <=? 57))%N.

Definition digits_value (ds : list ascii) : N :=
  fold_left (fun acc c => (10 * acc + (N_of_ascii c - 48))%N) ds 0%N.

Definition no_leading_zero (ds : list ascii) : Prop :=
  match ds with
  | c :: _ :: _ => c <> "0"%char
  | _ => True
  end.

Definition decimal_of (n : N) (ds : list ascii) : Prop :=
  ds <> [] /\ forallb is_digit ds = true /\ digits_value ds = n /\ no_leading_zero ds.

(** A number has one decimal string without leading zeros. *)
Definition canonical (ds : list ascii) : Prop :=
  forallb is_digit ds = true /\ hd_error ds <> Some "0"%char.

(* an array that holds something else than zeros *)
Definition stale_aBuf : list ascii := repeat "7"%char 28.

(** *** Write, CopyNextPam and ResetWriter *)

(** Positions, the caller's ring of PaMs and the writer's own cursor. *)
Record SwPosition := { nNode : Z; nContent : Z }.

(* A PaM of the caller's ring, seen through the accessors Write and
   CopyNextPam use: Start(), End() and GetDoc(). *)
Record SwPaM := { Start : SwPosition; End : SwPosition; GetDoc : nat }.

(* m_pCurrentPam: the cursor the writer owns. *)
Record SwUnoCursor := { GetPoint : SwPosition; GetMark : SwPosition; HasMark : bool }.

Definition ErrCode := Z.
Definition ERRCODE_NONE : ErrCode := 0.

Record SvxFontItem := { font_id : nat }.

Record Writer_Impl := {
  m_pStream : option nat;              (* address of the stream *)
  maFileNameMap : list (string * string);
  aFontRemoveLst : list nat;
  aBkmkNodePos : list (Z * nat) }.

Definition new_Writer_Impl : Writer_Impl :=
  {| m_pStream := None; maFileNameMap := []; aFontRemoveLst := []; aBkmkNodePos := [] |}.

Record Writer := {
  m_pImpl : Writer_Impl;
  m_pOrigFileName : option string;
  m_pDoc : option nat;
  m_pOrigPam : option nat;          (* address of the caller's PaM in the ring *)
  m_pCurrentPam : option SwUnoCursor;
  IsStgWriter : bool;
  m_bWriteAll : bool;
  m_bShowProgress : bool;
  m_bUCS2_WithStartChar : bool;
  m_bASCII_NoLastLineEnd : bool;
  m_bASCII_ParaAsBlank : bool;
  m_bASCII_ParaAsCR : bool;
  m_bWriteClipboardDoc : bool;
  m_bWriteOnlyFirstTable : bool;
  m_bBlock : bool;
  m_bOrganizerMode : bool;
  m_bHideDeleteRedlines : bool;
  m_bExportParagraphNumbering : bool }.

(* What a call can touch: the writer, the ring the caller's PaM lives in
   (a PaM pointer is an index, GetNext steps cyclically) and the attribute
   pool of the document. *)
Record World := {
  writer : Writer;
  ring : list SwPaM;
  pool : list nat;
  strm : SvStream }.

Definition set_writer (w : World) (wr : Writer) : World :=
  {| writer := wr; ring := ring w; pool := pool w; strm := strm w |}.

Definition GetNext (w : World) (p : nat) : nat :=
  if (S p =? length (ring w))%nat then 0%nat else S p.

Definition deref (w : World) (p : nat) : SwPaM :=
  nth p (ring w) {| Start := {| nNode := 0; nContent := 0 |};
                    End := {| nNode := 0; nContent := 0 |}; GetDoc := 0 |}.

Definition Writer_ctor (stg : bool) : Writer :=
  {| m_pImpl := new_Writer_Impl; m_pOrigFileName := None; m_pDoc := None;
     m_pOrigPam := None; m_pCurrentPam := None; IsStgWriter := stg;
     m_bWriteAll := true; m_bShowProgress := true; m_bUCS2_WithStartChar := true;
     m_bASCII_NoLastLineEnd := false; m_bASCII_ParaAsBlank := false;
     m_bASCII_ParaAsCR := false; m_bWriteClipboardDoc := false;
     m_bWriteOnlyFirstTable := false; m_bBlock := false; m_bOrganizerMode := false;
     m_bHideDeleteRedlines := false; m_bExportParagraphNumbering := true |}.

(* Writer_Impl::RemoveFontList: rDoc.GetAttrPool().Remove over the list *)
Definition RemoveFontList (impl : Writer_Impl) (pl : list nat) : list nat :=
  fold_left (fun pl it => remove Nat.eq_dec it pl) (aFontRemoveLst impl) pl.

Definition ResetWriter (w : World) : World :=
  let wr := writer w in
  {| writer :=
       {| m_pImpl := new_Writer_Impl;
          m_pOrigFileName := None;
          m_pDoc := None;
          m_pOrigPam := m_pOrigPam wr;
          m_pCurrentPam := None;
          IsStgWriter := IsStgWriter wr;
          m_bWriteAll := m_bWriteAll wr;
          m_bShowProgress := true;
          m_bUCS2_WithStartChar := true;
          m_bASCII_NoLastLineEnd := false;
          m_bASCII_ParaAsBlank := false;
          m_bASCII_ParaAsCR := false;
          m_bWriteClipboardDoc := false;
          m_bWriteOnlyFirstTable := false;
          m_bBlock := false;
          m_bOrganizerMode := false;
          m_bHideDeleteRedlines := m_bHideDeleteRedlines wr;
          m_bExportParagraphNumbering := m_bExportParagraphNumbering wr |};
     ring := ring w;
     pool := RemoveFontList (m_pImpl wr) (pool w);
     strm := strm w |}.

Definition set_cursor (wr : Writer) (c : option SwUnoCursor) : Writer :=
  {| m_pImpl := m_pImpl wr; m_pOrigFileName := m_pOrigFileName wr;
     m_pDoc := m_pDoc wr; m_pOrigPam := m_pOrigPam wr; m_pCurrentPam := c;
     IsStgWriter := IsStgWriter wr; m_bWriteAll := m_bWriteAll wr;
     m_bShowProgress := m_bShowProgress wr;
     m_bUCS2_WithStartChar := m_bUCS2_WithStartChar wr;
     m_bASCII_NoLastLineEnd := m_bASCII_NoLastLineEnd wr;
     m_bASCII_ParaAsBlank := m_bASCII_ParaAsBlank wr;
     m_bASCII_ParaAsCR := m_bASCII_ParaAsCR wr;
     m_bWriteClipboardDoc := m_bWriteClipboardDoc wr;
     m_bWriteOnlyFirstTable := m_bWriteOnlyFirstTable wr;
     m_bBlock := m_bBlock wr; m_bOrganizerMode := m_bOrganizerMode wr;
     m_bHideDeleteRedlines := m_bHideDeleteRedlines wr;
     m_bExportParagraphNumbering := m_bExportParagraphNumbering wr |}.

Definition opt_nat_eqb (a b : option nat) : bool :=
  match a, b with
  | Some x, Some y => (x =? y)%nat
  | None, None => true
  | _, _ => false
  end.

(* bool Writer::CopyNextPam( SwPaM ** ppPam ) *)
Definition CopyNextPam (w : World) (ppPam : nat) : bool * nat * World :=
  if opt_nat_eqb (Some (GetNext w ppPam)) (m_pOrigPam (writer w)) then
    (false, GetNext w ppPam, w)
  else
    let ppPam := GetNext w ppPam in
    let wr := writer w in
    let cur := option_map
      (fun c => {| GetPoint := Start (deref w ppPam);
                   GetMark := End (deref w ppPam);
                   HasMark := HasMark c |}) (m_pCurrentPam wr) in
    (true, ppPam, set_writer w (set_cursor wr cur)).

Definition CreateUnoCursor (rPos : SwPosition) : SwUnoCursor :=
  {| GetPoint := rPos; GetMark := rPos; HasMark := false |}.

Definition SetMark (c : SwUnoCursor) : SwUnoCursor :=
  {| GetPoint := GetPoint c; GetMark := GetPoint c; HasMark := true |}.

Definition assign_Point (c : SwUnoCursor) (rPos : SwPosition) : SwUnoCursor :=
  {| GetPoint := rPos; GetMark := GetMark c; HasMark := HasMark c |}.

Definition ERR_SWG_WRITE_ERROR : ErrCode := 1.

Section WriteStream.
(* The virtual WriteStream of the concrete filter, and the storage overload
   Write( rPaM, SotStorage&, pFName ) a storage writer supplies. *)
Variable WriteStream : World -> ErrCode * World.
Variable Write_storage : World -> nat -> nat -> option string -> ErrCode * World.

(* The state in which Write hands over to WriteStream. *)
Definition Write_entry (w : World) (rPaM : nat) (rStrm : nat)
    (pFName : option string) : World :=
  let wr := writer w in
  let impl := m_pImpl wr in
  let cur := CreateUnoCursor (End (deref w rPaM)) in
  let cur := SetMark cur in
  let cur := assign_Point cur (Start (deref w rPaM)) in
  set_writer w
    {| m_pImpl := {| m_pStream := Some rStrm;
                     maFileNameMap := maFileNameMap impl;
                     aFontRemoveLst := aFontRemoveLst impl;
                     aBkmkNodePos := aBkmkNodePos impl |};
       m_pOrigFileName := pFName;
       m_pDoc := Some (GetDoc (deref w rPaM));
       m_pOrigPam := Some rPaM;
       m_pCurrentPam := Some cur;
       IsStgWriter := IsStgWriter wr; m_bWriteAll := m_bWriteAll wr;
       m_bShowProgress := m_bShowProgress wr;
       m_bUCS2_WithStartChar := m_bUCS2_WithStartChar wr;
       m_bASCII_NoLastLineEnd := m_bASCII_NoLastLineEnd wr;
       m_bASCII_ParaAsBlank := m_bASCII_ParaAsBlank wr;
       m_bASCII_ParaAsCR := m_bASCII_ParaAsCR wr;
       m_bWriteClipboardDoc := m_bWriteClipboardDoc wr;
       m_bWriteOnlyFirstTable := m_bWriteOnlyFirstTable wr;
       m_bBlock := m_bBlock wr; m_bOrganizerMode := m_bOrganizerMode wr;
       m_bHideDeleteRedlines := m_bHideDeleteRedlines wr;
       m_bExportParagraphNumbering := m_bExportParagraphNumbering wr |}.

(* ErrCode Writer::Write( SwPaM& rPaM, SvStream& rStrm, const OUString* pFName ) *)
Definition Write (w : World) (rPaM : nat) (rStrm : nat) (pFName : option string)
    : ErrCode * World :=
  if IsStgWriter (writer w) then Write_storage w rPaM rStrm pFName
  else
    let '(nRet, w) := WriteStream (Write_entry w rPaM rStrm pFName) in
    let w := ResetWriter w in
    (nRet, w).
End WriteStream.

(* The loop of a stream filter's WriteStream:
     do { ... m_pCurrentPam ... } while( CopyNextPam( &pPam ) );
   with the ranges it sees in m_pCurrentPam collected. *)
Fixpoint visit_ranges (fuel : nat) (w : World) (pPam : nat)
    : list (SwPosition * SwPosition) * World :=
  match fuel with
  | O => ([], w)
  | S fuel =>
      let seen := match m_pCurrentPam (writer w) with
                  | Some c => [(GetPoint c, GetMark c)]
                  | None => []
                  end in
      let '(more, pPam, w) := CopyNextPam w pPam in
      if more then
        let '(rest, w) := visit_ranges fuel w pPam in (seen ++ rest, w)
      else (seen, w)
  end.

Definition range_of (p : SwPaM) : SwPosition * SwPosition := (Start p, End p).

Definition no_storage (w : World) (rPaM rStrm : nat) (pFName : option string)
    : ErrCode * World := (ERR_SWG_WRITE_ERROR, w).

(* A filter whose WriteStream is the CopyNextPam loop, writing nothing. *)
Definition loop_WriteStream (w : World) : ErrCode * World :=
  match m_pOrigPam (writer w) with
  | Some p => (ERRCODE_NONE, snd (visit_ranges (length (ring w)) w p))
  | None => (ERR_SWG_WRITE_ERROR, w)
  end.

Definition two_pams : World :=
  {| writer := Writer_ctor false;
     ring := [ {| Start := {| nNode := 3; nContent := 0 |};
                  End := {| nNode := 5; nContent := 2 |}; GetDoc := 7 |};
               {| Start := {| nNode := 8; nContent := 1 |};
                  End := {| nNode := 8; nContent := 4 |}; GetDoc := 7 |} ];
     pool := []; strm := [] |}.

(** *** The digits of OutLong and OutULong *)

Lemma store_length aBuf k c : length (store aBuf k c) = length aBuf.
Proof.
  revert k; induction aBuf as [|h t IH]; intros [|k]; simpl; auto.
Qed.

Lemma skipn_store aBuf k c :
  (k < length aBuf)%nat ->
  skipn k (store aBuf k c) = c :: skipn (S k) aBuf.
Proof.
  revert k; induction aBuf as [|h t IH]; intros [|k] Hk; simpl in *; try lia.
  - reflexivity.
  - apply IH; lia.
Qed.

Lemma poke_length aBuf i c : length (poke aBuf i c) = length aBuf.
Proof. unfold poke; destruct (i <? 0); auto using store_length. Qed.

Lemma skipn_poke aBuf i c :
  0 <= i < Z.of_nat (length aBuf) ->
  skipn (Z.to_nat i) (poke aBuf i c) = c :: skipn (Z.to_nat (i + 1)) aBuf.
Proof.
  intros Hi. unfold poke.
  destruct (Z.ltb_spec i 0); [lia|].
  rewrite skipn_store by lia.
  f_equal. f_equal. lia.
Qed.

Lemma digits_value_snoc ds c :
  digits_value (ds ++ [c]) = (10 * digits_value ds + (N_of_ascii c - 48))%N.
Proof. unfold digits_value. rewrite fold_left_app. reflexivity. Qed.

Lemma digit_char (d : N) :
  (d < 10)%N ->
  is_digit (ascii_of_N (48 + d)) = true /\
  (N_of_ascii (ascii_of_N (48 + d)) - 48 = d)%N /\
  (ascii_of_N (48 + d) = "0"%char -> d = 0%N) /\
  ascii_of_N (48 + d) <> NUL.
Proof.
  intros Hd. unfold is_digit.
  assert (E : N_of_ascii (ascii_of_N (48 + d)) = (48 + d)%N)
    by (apply N_ascii_embedding; lia).
  rewrite E. repeat split.
  - apply andb_true_iff; split; apply N.leb_le; lia.
  - lia.
  - intros H. rewrite H in E. change (N_of_ascii "0") with 48%N in E. lia.
  - intros H. rewrite H in E. change (N_of_ascii NUL) with 0%N in E. lia.
Qed.

Lemma no_leading_zero_snoc ds c :
  ds <> [] -> no_leading_zero ds -> (hd NUL ds = "0"%char -> False) ->
  no_leading_zero (ds ++ [c]).
Proof.
  destruct ds as [|a [|b t]]; simpl; intros; auto; congruence.
Qed.

(** What the do-while loop leaves in the buffer. *)
Lemma digit_loop_spec aBuf i nVal :
  exists ds,
    decimal_of nVal ds /\
    (10 ^ (N.of_nat (length ds) - 1) <= N.max nVal 1)%N /\
    snd (digit_loop aBuf i nVal) = i - Z.of_nat (length ds) /\
    (Z.of_nat (length ds) <= i <= Z.of_nat (length aBuf) ->
     length (fst (digit_loop aBuf i nVal)) = length aBuf /\
     skipn (Z.to_nat (i - Z.of_nat (length ds))) (fst (digit_loop aBuf i nVal))
       = ds ++ skipn (Z.to_nat i) aBuf).
Proof.
  funelim (digit_loop aBuf i nVal).
  - (* last digit *)
    clear Heq Heqcall.
    assert (Hlt : (nVal < 10)%N).
    { destruct (N.lt_ge_cases nVal 10) as [|Hge]; auto.
      exfalso. pose proof (N.Div0.div_le_mono 10 nVal 10 Hge) as Hd.
      rewrite e in Hd. change (10 / 10)%N with 1%N in Hd. lia. }
    rewrite N.mod_small by assumption.
    destruct (digit_char nVal Hlt) as (Hdig & Hval & Hz & Hnul).
    set (c := ascii_of_N (48 + nVal)) in *. clearbody c.
    exists [c]. simpl. repeat split.
    + discriminate.
    + simpl. now rewrite Hdig.
    + unfold digits_value; simpl. lia.
    + lia.
    + now rewrite poke_length.
    + rewrite skipn_poke by lia. replace (i - 1 + 1) with i by lia. reflexivity.
  - clear Heq Heqcall.
    match goal with IH : exists _, _ |- _ => destruct IH as (ds & Hdec & Hbound & Hi & Hbuf) end.
    set (d := (nVal mod 10)%N) in *.
    assert (Hd : (d < 10)%N) by (apply N.mod_lt; discriminate).
    destruct (digit_char d Hd) as (Hdig & Hval & Hz & Hnul).
    set (c := ascii_of_N (48 + d)) in *. clearbody c.
    destruct Hdec as (Hne & Hall & Hv & Hlz).
    exists (ds ++ [c]).
    rewrite length_app. simpl length.
    repeat split.
    + destruct ds; discriminate.
    + rewrite forallb_app, Hall. simpl. now rewrite Hdig.
    + rewrite digits_value_snoc, Hv, Hval. unfold d.
      symmetry. apply N.div_mod. discriminate.
    + apply no_leading_zero_snoc; auto.
      intros H0. destruct ds as [|a t]; [congruence|]. simpl in H0. subst a.
      destruct t as [|b t].
      * unfold digits_value in Hv. simpl in Hv. congruence.
      * simpl in Hlz. congruence.
    + replace (N.of_nat (length ds + 1) - 1)%N with (N.succ (N.of_nat (length ds) - 1))%N
        by (destruct ds; [congruence| simpl length; lia]).
      rewrite N.pow_succ_r'.
      pose proof (N.Div0.mul_div_le nVal 10).
      assert (N.max (nVal / 10) 1 = nVal / 10)%N by lia.
      assert (10 * 10 ^ (N.of_nat (length ds) - 1) <= 10 * (nVal / 10))%N
        by (apply N.mul_le_mono_l; lia).
      lia.
    + rewrite Hi. lia.
    + destruct Hbuf as [Hl _]; [rewrite poke_length; lia|].
      now rewrite Hl, poke_length.
    + destruct Hbuf as [_ Hs]; [rewrite poke_length; lia|].
      replace (i - Z.of_nat (length ds + 1)) with (i - 1 - Z.of_nat (length ds)) by lia.
      rewrite Hs, skipn_poke by lia.
      replace (i - 1 + 1) with i by lia.
      now rewrite <- app_assoc.
Qed.

Lemma is_digit_not_NUL c : is_digit c = true -> Ascii.eqb c NUL = false.
Proof.
  intros H. apply Ascii.eqb_neq. intros ->. discriminate H.
Qed.

Lemma until_nul_digits ds rest :
  forallb is_digit ds = true -> until_nul (ds ++ NUL :: rest) = ds.
Proof.
  induction ds as [|c ds IH]; simpl; intros H.
  - reflexivity.
  - apply andb_true_iff in H as [Hc Hds].
    rewrite (is_digit_not_NUL _ Hc), IH by assumption. reflexivity.
Qed.

Lemma decimal_of_length n ds :
  (n < 2 ^ 64)%N -> decimal_of n ds ->
  (10 ^ (N.of_nat (length ds) - 1) <= N.max n 1)%N ->
  (length ds <= 20)%nat.
Proof.
  intros Hn _ Hb.
  assert (H : (10 ^ (N.of_nat (length ds) - 1) < 10 ^ 20)%N).
  { eapply N.le_lt_trans; [exact Hb|].
    apply N.max_lub_lt; [| reflexivity].
    eapply N.lt_trans; [exact Hn | reflexivity]. }
  apply N.pow_lt_mono_r_iff in H; lia.
Qed.

Lemma lcl_OutLongExt_spec aBuf rStrm nVal bNeg :
  length aBuf = 28%nat ->
  (nVal < 2 ^ 64)%N ->
  exists ds, decimal_of nVal ds /\
    lcl_OutLongExt aBuf rStrm nVal bNeg
      = rStrm ++ (if bNeg then ["-"%char] else []) ++ ds.
Proof.
  intros Hbuf0 Hn. unfold lcl_OutLongExt, SAL_N_ELEMENTS_aBuf.
  change (28 - 1) with 27.
  set (aBuf0 := poke aBuf 27 NUL).
  destruct (digit_loop_spec aBuf0 27 nVal) as (ds & Hdec & Hbound & Hi & Hbuf).
  pose proof (decimal_of_length _ _ Hn Hdec Hbound) as Hlen.
  assert (Hl0 : length aBuf0 = 28%nat) by (subst aBuf0; now rewrite poke_length).
  assert (Hnul : skipn (Z.to_nat 27) aBuf0 = [NUL]).
  { subst aBuf0. rewrite skipn_poke by lia.
    now rewrite skipn_all2 by (rewrite Hbuf0; apply Nat.le_refl). }
  rewrite Hnul in Hbuf.
  clearbody aBuf0.
  clear Hbound Hn.
  destruct Hbuf as [Hl Hs]; [split; lia|].
  destruct (digit_loop aBuf0 27 nVal) as [aBuf1 i]. cbn [fst snd] in Hi, Hl, Hs. subst i.
  exists ds. split; [assumption|].
  destruct Hdec as (_ & Hall & _).
  unfold WriteCharPtr, c_str. f_equal.
  destruct bNeg.
  - destruct (Z.ltb_spec (27 - Z.of_nat (length ds) - 1) 0); [lia|].
    rewrite skipn_poke by lia.
    replace (27 - Z.of_nat (length ds) - 1 + 1) with (27 - Z.of_nat (length ds)) by lia.
    rewrite Hs. cbn [until_nul app]. change (Ascii.eqb "-" NUL) with false.
    cbv iota. now rewrite until_nul_digits.
  - destruct (Z.ltb_spec (27 - Z.of_nat (length ds)) 0); [lia|].
    rewrite Hs. now rewrite until_nul_digits.
Qed.

Lemma abs_as_sal_uLong v :
  - 2 ^ 63 <= v < 2 ^ 63 ->
  to_sal_uLong (if v <? 0 then wrap_long (- v) else v) = Z.to_N (Z.abs v).
Proof.
  intros Hv. unfold to_sal_uLong, wrap_long, LONG_BITS. f_equal.
  change (2 ^ (64 - 1)) with 9223372036854775808.
  change (2 ^ 64) with 18446744073709551616.
  change (2 ^ 63) with 9223372036854775808 in Hv.
  destruct (Z.ltb_spec v 0); Z.div_mod_to_equations; lia.
Qed.

Lemma is_digit_value c :
  is_digit c = true -> (48 <= N_of_ascii c <= 57)%N.
Proof.
  unfold is_digit. intros H. apply andb_true_iff in H as [H1 H2].
  apply N.leb_le in H1, H2. lia.
Qed.

Lemma canonical_snoc ds c :
  canonical (ds ++ [c]) -> is_digit c = true /\ canonical ds.
Proof.
  intros [Hall Hhd]. rewrite forallb_app in Hall.
  apply andb_true_iff in Hall as [Hds Hc]. simpl in Hc.
  rewrite andb_true_r in Hc. repeat split; auto.
  destruct ds; [discriminate | exact Hhd].
Qed.

Lemma canonical_positive ds :
  canonical ds -> ds <> [] -> (0 < digits_value ds)%N.
Proof.
  induction ds as [|c ds IH] using rev_ind; intros Hc Hne; [congruence|].
  rewrite digits_value_snoc.
  destruct (canonical_snoc _ _ Hc) as [Hd Hds].
  pose proof (is_digit_value _ Hd) as Hv.
  destruct ds as [|a ds].
  - destruct Hc as [_ Hhd]. simpl in Hhd.
    assert (N_of_ascii c <> 48%N).
    { intros E. apply Hhd. f_equal. rewrite <- (ascii_N_embedding c), E. reflexivity. }
    unfold digits_value. simpl. lia.
  - specialize (IH Hds ltac:(discriminate)). lia.
Qed.

Lemma canonical_unique ds1 : forall ds2,
  canonical ds1 -> canonical ds2 -> digits_value ds1 = digits_value ds2 ->
  ds1 = ds2.
Proof.
  induction ds1 as [|c1 ds1 IH] using rev_ind; intros ds2 H1 H2 E.
  - destruct ds2 as [|a ds2]; [reflexivity|].
    pose proof (canonical_positive _ H2 ltac:(discriminate)) as Hp.
    unfold digits_value in E at 1. simpl in E. lia.
  - pose proof (canonical_positive _ H1 ltac:(now destruct ds1)) as Hp.
    destruct ds2 as [|c2 ds2 _] using rev_ind.
    + unfold digits_value in E at 2. simpl in E. lia.
    + rewrite !digits_value_snoc in E.
      destruct (canonical_snoc _ _ H1) as [Hd1 Hc1].
      destruct (canonical_snoc _ _ H2) as [Hd2 Hc2].
      pose proof (is_digit_value _ Hd1). pose proof (is_digit_value _ Hd2).
      assert (Ec : N_of_ascii c1 = N_of_ascii c2) by lia.
      assert (Ev : digits_value ds1 = digits_value ds2) by lia.
      rewrite (IH ds2 Hc1 Hc2 Ev). f_equal. f_equal.
      rewrite <- (ascii_N_embedding c1), <- (ascii_N_embedding c2). now f_equal.
Qed.

Lemma decimal_of_canonical n ds :
  decimal_of n ds -> (ds = ["0"%char] /\ n = 0%N) \/ canonical ds.
Proof.
  intros (Hne & Hall & Hv & Hlz).
  destruct ds as [|a [|b t]]; [congruence | |].
  - destruct (Ascii.eqb_spec a "0"%char) as [->|Ha].
    + left. split; [reflexivity|]. now rewrite <- Hv.
    + right. split; [assumption|]. simpl. congruence.
  - right. split; [assumption|]. simpl in *. congruence.
Qed.

Lemma decimal_of_unique n ds1 ds2 :
  decimal_of n ds1 -> decimal_of n ds2 -> ds1 = ds2.
Proof.
  intros H1 H2.
  destruct (decimal_of_canonical _ _ H1) as [[-> E1]|C1],
           (decimal_of_canonical _ _ H2) as [[-> E2]|C2].
  - reflexivity.
  - exfalso. destruct H2 as (Hne & _ & Hv & _).
    pose proof (canonical_positive _ C2 Hne). lia.
  - exfalso. destruct H1 as (Hne & _ & Hv & _).
    pose proof (canonical_positive _ C1 Hne). lia.
  - apply canonical_unique; auto.
    destruct H1 as (_ & _ & -> & _). now destruct H2 as (_ & _ & -> & _).
Qed.

(** C10: OutULong appends to the stream the decimal digits of its argument:
    a string of digits without leading zero whose value is the argument
    ("0" for zero), and there is only one such string; OutLong appends the
    digits of the absolute value, after a '-' when the value is negative. *)
Theorem OutLong_writes_decimal (aBuf : list ascii) (rStrm : SvStream)
    (n : N) (v : Z)
    (Hbuf : length aBuf = 28%nat)
    (Hn : (n < 2 ^ 64)%N) (Hv : - 2 ^ 63 <= v < 2 ^ 63) :
  (exists ds, decimal_of n ds
     /\ (forall ds', decimal_of n ds' -> ds' = ds)
     /\ OutULong aBuf rStrm n = rStrm ++ ds) /\
  (exists ds, decimal_of (Z.to_N (Z.abs v)) ds
     /\ (forall ds', decimal_of (Z.to_N (Z.abs v)) ds' -> ds' = ds)
     /\ OutLong aBuf rStrm v
        = rStrm ++ (if v <? 0 then ["-"%char] else []) ++ ds).
Proof.
  split.
  - destruct (lcl_OutLongExt_spec aBuf rStrm n false Hbuf Hn) as (ds & Hd & E).
    exists ds. split; [assumption|]. split; [| exact E].
    intros ds' Hd'. exact (decimal_of_unique _ _ _ Hd' Hd).
  - unfold OutLong. rewrite abs_as_sal_uLong by assumption.
    destruct (lcl_OutLongExt_spec aBuf rStrm (Z.to_N (Z.abs v)) (v <? 0) Hbuf)
      as (ds & Hd & E).
    { change (2 ^ 63) with 9223372036854775808 in Hv.
      change (2 ^ 64)%N with 18446744073709551616%N. lia. }
    exists ds. split; [assumption|]. split; [| exact E].
    intros ds' Hd'. exact (decimal_of_unique _ _ _ Hd' Hd).
Qed.

Lemma OutLong_writes_decimal_witness :
  (exists ds, decimal_of 1203 ds
     /\ (forall ds', decimal_of 1203 ds' -> ds' = ds)
     /\ OutULong stale_aBuf [] 1203 = [] ++ ds) /\
  (exists ds, decimal_of (Z.to_N (Z.abs (-45))) ds
     /\ (forall ds', decimal_of (Z.to_N (Z.abs (-45))) ds' -> ds' = ds)
     /\ OutLong stale_aBuf [] (-45)
        = [] ++ (if -45 <? 0 then ["-"%char] else []) ++ ds).
Proof.
  apply (OutLong_writes_decimal stale_aBuf [] 1203 (-45)).
  - reflexivity.
  - reflexivity.
  - split; [discriminate | reflexivity].
Defined.

Example OutLong_min : OutLong stale_aBuf [] (- 2 ^ 63)
  = list_ascii_of_string "-9223372036854775808".
Proof. vm_compute. reflexivity. Qed.

Example OutULong_zero : OutULong stale_aBuf ["x"%char] 0 = ["x"; "0"]%char.
Proof. vm_compute. reflexivity. Qed.

(** *** Write on a stream writer *)

Lemma CopyNextPam_frame w p :
  let '(_, _, w') := CopyNextPam w p in
  ring w' = ring w /\ m_pOrigPam (writer w') = m_pOrigPam (writer w).
Proof.
  unfold CopyNextPam.
  destruct (opt_nat_eqb _ _); simpl; auto.
Qed.

Lemma visit_ranges_frame fuel : forall w p,
  ring (snd (visit_ranges fuel w p)) = ring w.
Proof.
  induction fuel as [|fuel IH]; intros w p; simpl; [reflexivity|].
  pose proof (CopyNextPam_frame w p) as F.
  destruct (CopyNextPam w p) as [[more p'] w'].
  destruct F as [Fr _].
  destruct more; simpl; [| exact Fr].
  specialize (IH w' p').
  destruct (visit_ranges fuel w' p') as [rest w'']. simpl in *. congruence.
Qed.

Lemma GetNext_mod w p :
  (p < length (ring w))%nat -> GetNext w p = (S p mod length (ring w))%nat.
Proof.
  intros Hp. unfold GetNext.
  destruct (Nat.eqb_spec (S p) (length (ring w))) as [E|E].
  - rewrite E. symmetry. apply Nat.Div0.mod_same.
  - symmetry. apply Nat.mod_small. lia.
Qed.

Lemma ring_step n p0 k :
  (p0 < n)%nat -> (k < n)%nat ->
  (S ((p0 + k) mod n) mod n = (p0 + S k) mod n)%nat /\
  ((p0 + S k) mod n = p0 <-> S k = n)%nat.
Proof.
  intros Hp Hk. split.
  - replace (S ((p0 + k) mod n)) with ((p0 + k) mod n + 1)%nat by lia.
    rewrite Nat.Div0.add_mod_idemp_l. f_equal. lia.
  - split; intros H.
    + destruct (Nat.lt_ge_cases (p0 + S k) n) as [Hlt|Hge].
      * rewrite Nat.mod_small in H by lia. lia.
      * replace (p0 + S k)%nat with ((p0 + S k - n) + 1 * n)%nat in H by lia.
        rewrite Nat.Div0.mod_add, Nat.mod_small in H by lia. lia.
    + rewrite H. replace (p0 + n)%nat with (p0 + 1 * n)%nat by lia.
      rewrite Nat.Div0.mod_add. apply Nat.mod_small. assumption.
Qed.

(** From a cursor that holds the range of PaM number p0 + k of the ring, the
    loop sees the ranges of the PaMs p0 + k, ..., p0 + n - 1 (indices taken
    cyclically) and stops because CopyNextPam is back at m_pOrigPam. *)
Lemma visit_ranges_from fuel : forall w p0 k c,
  (p0 < length (ring w))%nat -> (k < length (ring w))%nat ->
  m_pOrigPam (writer w) = Some p0 ->
  m_pCurrentPam (writer w) = Some c ->
  (GetPoint c, GetMark c) = range_of (deref w ((p0 + k) mod length (ring w))) ->
  (length (ring w) - k <= fuel)%nat ->
  fst (visit_ranges fuel w ((p0 + k) mod length (ring w)))
  = map (fun j => range_of (deref w ((p0 + j) mod length (ring w))))
        (seq k (length (ring w) - k)).
Proof.
  induction fuel as [|fuel IH]; intros w p0 k c Hp Hk Ho Hc Hr Hf; [lia|].
  set (n := length (ring w)) in *.
  destruct (ring_step n p0 k Hp Hk) as [Hs Hend].
  assert (Hlt : ((p0 + k) mod n < n)%nat) by (apply Nat.mod_upper_bound; lia).
  cbn [visit_ranges]. unfold CopyNextPam.
  rewrite Hc, Ho, GetNext_mod by exact Hlt. fold n. rewrite Hs.
  cbn [opt_nat_eqb].
  destruct (Nat.eqb_spec ((p0 + S k) mod n) p0) as [E|E].
  - apply Hend in E. replace (n - k)%nat with 1%nat by lia.
    cbn [fst seq map]. now rewrite Hr.
  - assert (Hk' : (S k < n)%nat) by (rewrite Hend in E; lia).
    replace (n - k)%nat with (S (n - S k)) by lia.
    cbn [seq map]. rewrite <- Hr.
    set (w' := set_writer w _).
    specialize (IH w' p0 (S k)).
    change (ring w') with (ring w) in IH. fold n in IH.
    change (deref w') with (deref w) in IH.
    specialize (IH _ Hp Hk' Ho eq_refl eq_refl ltac:(lia)).
    destruct (visit_ranges fuel w' ((p0 + S k) mod n)) as [rest w''].
    cbn [fst] in *. now rewrite IH.
Qed.

(** C6: on a stream writer, Write works on a copy of rPaM (a cursor from
    Start to End of rPaM, through which the CopyNextPam loop sees the range
    of every PaM of the ring once, in ring order from rPaM), writes nothing
    to the caller's ring itself (the ring is as WriteStream leaves it, and
    CopyNextPam does not touch it), returns what WriteStream returned, and
    leaves m_pDoc, m_pOrigFileName and m_pCurrentPam as the constructor
    made them. *)
Theorem Write_stream_writer
    (WriteStream : World -> ErrCode * World)
    (Write_storage : World -> nat -> nat -> option string -> ErrCode * World)
    (w : World) (rPaM rStrm : nat) (pFName : option string)
    (Hstream : IsStgWriter (writer w) = false) :
  let entry := Write_entry w rPaM rStrm pFName in
  let res := Write WriteStream Write_storage w rPaM rStrm pFName in
  (m_pCurrentPam (writer entry)
     = Some {| GetPoint := Start (deref w rPaM); GetMark := End (deref w rPaM);
               HasMark := true |}
   /\ m_pOrigPam (writer entry) = Some rPaM
   /\ ring entry = ring w)
  /\ ((rPaM < length (ring w))%nat ->
      forall fuel, (length (ring w) <= fuel)%nat ->
        fst (visit_ranges fuel entry rPaM)
          = map (fun j => range_of (deref w ((rPaM + j) mod length (ring w))))
                (seq 0 (length (ring w)))
        /\ ring (snd (visit_ranges fuel entry rPaM)) = ring w)
  /\ fst res = fst (WriteStream entry)
  /\ ring (snd res) = ring (snd (WriteStream entry))
  /\ (ring (snd (WriteStream entry)) = ring entry -> ring (snd res) = ring w)
  /\ m_pDoc (writer (snd res)) = m_pDoc (Writer_ctor false)
  /\ m_pOrigFileName (writer (snd res)) = m_pOrigFileName (Writer_ctor false)
  /\ m_pCurrentPam (writer (snd res)) = m_pCurrentPam (Writer_ctor false).
Proof.
  intros entry res. split; [| split].
  - repeat split.
  - intros Hp fuel Hf. split; [| exact (visit_ranges_frame fuel entry rPaM)].
    pose proof (visit_ranges_from fuel entry rPaM 0
                  {| GetPoint := Start (deref w rPaM);
                     GetMark := End (deref w rPaM); HasMark := true |}) as V.
    change (ring entry) with (ring w) in V.
    change (deref entry) with (deref w) in V.
    rewrite Nat.add_0_r, Nat.sub_0_r, Nat.mod_small in V by exact Hp.
    apply V; auto; lia.
  - subst res. unfold Write. rewrite Hstream. fold entry.
    destruct (WriteStream entry) as [nRet w1]. cbn [fst snd].
    repeat split. intros E. exact E.
Qed.

Lemma Write_stream_writer_witness :
  fst (Write loop_WriteStream no_storage
         two_pams 1 0 None) = ERRCODE_NONE
  /\ ring (snd (Write loop_WriteStream no_storage
                  two_pams 1 0 None)) = ring two_pams
  /\ m_pCurrentPam (writer (snd (Write loop_WriteStream
       no_storage two_pams 1 0 None))) = None.
Proof.
  pose proof (Write_stream_writer loop_WriteStream
                no_storage two_pams 1 0 None eq_refl)
    as (_ & _ & Hret & Hring & _ & _ & _ & Hcur).
  rewrite Hret, Hring, Hcur. repeat split.
Defined.

Example visit_two_pams :
  fst (visit_ranges 5 (Write_entry two_pams 1 0 None) 1)
  = [ ({| nNode := 8; nContent := 1 |}, {| nNode := 8; nContent := 4 |});
      ({| nNode := 3; nContent := 0 |}, {| nNode := 5; nContent := 2 |}) ].
Proof. reflexivity. Qed.

(** *** The bookmark table: InsertBkmk, CreateBookmarkTable and GetBookmarks *)

(* A bookmark, as the table code reads it; its address is its place among
   the bookmarks of the document. *)
Record IMark := {
  GetMarkPos : SwPosition;
  GetOtherMarkPos : SwPosition;
  IsExpanded : bool }.

(* std::multimap<SwNodeOffset, const IMark*>: its entries in the order of
   iteration, keys ascending, equal keys in the order of insertion. *)
Definition SwBookmarkNodeTable := list (Z * nat).

(* aBkmkNodePos.emplace( nNd, &rBkmk ): behind the entries whose key is not
   greater than nNd *)
Fixpoint emplace (t : SwBookmarkNodeTable) (nNd : Z) (pBkmk : nat)
    : SwBookmarkNodeTable :=
  match t with
  | [] => [(nNd, pBkmk)]
  | it :: rest =>
      if nNd <? fst it then (nNd, pBkmk) :: t else it :: emplace rest nNd pBkmk
  end.

Definition set_aBkmkNodePos (impl : Writer_Impl) (t : SwBookmarkNodeTable)
    : Writer_Impl :=
  {| m_pStream := m_pStream impl; maFileNameMap := maFileNameMap impl;
     aFontRemoveLst := aFontRemoveLst impl; aBkmkNodePos := t |}.

(* void Writer_Impl::InsertBkmk( const IMark& rBkmk ) *)
Definition InsertBkmk (impl : Writer_Impl) (pBkmk : nat) (rBkmk : IMark)
    : Writer_Impl :=
  let nNd := nNode (GetMarkPos rBkmk) in
  let impl := set_aBkmkNodePos impl (emplace (aBkmkNodePos impl) nNd pBkmk) in
  if IsExpanded rBkmk && negb (nNode (GetOtherMarkPos rBkmk) =? nNd) then
    let nNd := nNode (GetOtherMarkPos rBkmk) in
    set_aBkmkNodePos impl (emplace (aBkmkNodePos impl) nNd pBkmk)
  else impl.

(* for( ppBkmk = getBookmarksBegin(); ppBkmk != getBookmarksEnd(); ++ppBkmk )
       m_pImpl->InsertBkmk( **ppBkmk );      [ppBkmk] is the address of *ppBkmk *)
Fixpoint InsertBkmk_from (impl : Writer_Impl) (rest : list IMark) (ppBkmk : nat)
    : Writer_Impl :=
  match rest with
  | [] => impl
  | rBkmk :: rest => InsertBkmk_from (InsertBkmk impl ppBkmk rBkmk) rest (S ppBkmk)
  end.

(* void Writer::CreateBookmarkTable() *)
Definition CreateBookmarkTable (impl : Writer_Impl) (bookmarks : list IMark)
    : Writer_Impl :=
  InsertBkmk_from impl bookmarks 0.

(* aBkmkNodePos.equal_range( nNd ): the entries from the first whose key is
   not less than nNd up to the first whose key is greater *)
Fixpoint lower_bound (t : SwBookmarkNodeTable) (nNd : Z) : SwBookmarkNodeTable :=
  match t with
  | [] => []
  | it :: rest => if fst it <? nNd then lower_bound rest nNd else t
  end.

Fixpoint until_upper_bound (t : SwBookmarkNodeTable) (nNd : Z) : SwBookmarkNodeTable :=
  match t with
  | [] => []
  | it :: rest => if nNd <? fst it then [] else it :: until_upper_bound rest nNd
  end.

Definition equal_range (t : SwBookmarkNodeTable) (nNd : Z) : SwBookmarkNodeTable :=
  until_upper_bound (lower_bound t nNd) nNd.

(* the test of the second loop of GetBookmarks; two nodes are the same node
   when they have the same index *)
Definition in_range (rBkmk : IMark) (nNd nStt nEnd : Z) : bool :=
  if (nNode (GetMarkPos rBkmk) =? nNd)
     && (nStt <=? nContent (GetMarkPos rBkmk))
     && (nContent (GetMarkPos rBkmk) <? nEnd)
  then true
  else IsExpanded rBkmk
       && (nNd =? nNode (GetOtherMarkPos rBkmk))
       && (nStt <=? nContent (GetOtherMarkPos rBkmk))
       && (nContent (GetOtherMarkPos rBkmk) <? nEnd).

Definition empty {A} (rArr : list A) : bool :=
  match rArr with [] => true | _ :: _ => false end.

(* bool Writer::GetBookmarks( rNd, nStt, nEnd, rArr ), with the index nNd
   and the length nLen of rNd *)
Definition GetBookmarks (impl : Writer_Impl) (bookmarks : list IMark)
    (nNd nLen nStt nEnd : Z) (rArr : list nat) : bool * list nat :=
  let aIterPair := equal_range (aBkmkNodePos impl) nNd in
  let rArr :=
    match aIterPair with
    | [] => rArr
    | _ :: _ =>
        if (nStt =? 0) && (nEnd =? nLen) then
          fold_left (fun rArr it => rArr ++ [snd it]) aIterPair rArr
        else
          fold_left
            (fun rArr it =>
               match nth_error bookmarks (snd it) with
               | Some rBkmk =>
                   if in_range rBkmk nNd nStt nEnd then rArr ++ [snd it] else rArr
               | None => rArr
               end) aIterPair rArr
    end in
  (negb (empty rArr), rArr).

(* The table is sorted by node index. *)
Fixpoint keys_ascending (t : SwBookmarkNodeTable) : Prop :=
  match t with
  | [] => True
  | it :: rest => Forall (fun it' => fst it <= fst it') rest /\ keys_ascending rest
  end.

(* the addresses, from [i] on, of the elements that satisfy [p] *)
Fixpoint positions_from {A} (p : A -> bool) (l : list A) (i : nat) : list nat :=
  match l with
  | [] => []
  | a :: rest =>
      if p a then i :: positions_from p rest (S i) else positions_from p rest (S i)
  end.

Definition positions {A} (p : A -> bool) (l : list A) : list nat :=
  positions_from p l 0.

(* One of the two positions of the bookmark is in node nNd. *)
Definition touches (nNd : Z) (rBkmk : IMark) : bool :=
  (nNode (GetMarkPos rBkmk) =? nNd)
  || (IsExpanded rBkmk && (nNode (GetOtherMarkPos rBkmk) =? nNd)).

Definition at_node (n c : Z) : SwPosition := {| nNode := n; nContent := c |}.

Definition three_bookmarks : list IMark :=
  [ {| GetMarkPos := at_node 7 2; GetOtherMarkPos := at_node 7 2; IsExpanded := false |};
    {| GetMarkPos := at_node 4 0; GetOtherMarkPos := at_node 7 5; IsExpanded := true |};
    {| GetMarkPos := at_node 7 9; GetOtherMarkPos := at_node 7 1; IsExpanded := true |} ].

Lemma Forall_emplace (P : Z * nat -> Prop) t nNd pBkmk :
  Forall P t -> P (nNd, pBkmk) -> Forall P (emplace t nNd pBkmk).
Proof.
  intros H Hn. induction H as [|x rest Hx Hr IH]; simpl.
  - now constructor.
  - destruct (nNd <? fst x); repeat constructor; assumption.
Qed.

Lemma emplace_ascending t : forall nNd pBkmk,
  keys_ascending t -> keys_ascending (emplace t nNd pBkmk).
Proof.
  induction t as [|it rest IH]; intros nNd pBkmk H; simpl.
  - split; [constructor | exact I].
  - destruct H as [Hall Hrest].
    destruct (Z.ltb_spec nNd (fst it)) as [Hlt|Hge]; simpl.
    + split; [| split; assumption].
      constructor; [lia|].
      rewrite Forall_forall in *. intros x Hx. specialize (Hall x Hx). simpl. lia.
    + split; [| now apply IH].
      apply Forall_emplace; [assumption | simpl; lia].
Qed.

Lemma filter_none {A} (f : A -> bool) l :
  (forall x, In x l -> f x = false) -> filter f l = [].
Proof.
  induction l as [|a rest IH]; intros H; simpl; [reflexivity|].
  rewrite (H a) by now left. apply IH. intros x Hx. apply H. now right.
Qed.

Lemma equal_range_filter t nNd :
  keys_ascending t -> equal_range t nNd = filter (fun it => fst it =? nNd) t.
Proof.
  unfold equal_range. induction t as [|it rest IH]; intros H; simpl; [reflexivity|].
  destruct H as [Hall Hrest].
  destruct (Z.ltb_spec (fst it) nNd) as [Hlt|Hge].
  - destruct (Z.eqb_spec (fst it) nNd); [lia | now apply IH].
  - simpl. destruct (Z.ltb_spec nNd (fst it)) as [Hgt|Hle].
    + destruct (Z.eqb_spec (fst it) nNd); [lia|].
      symmetry. apply filter_none.
      rewrite Forall_forall in Hall. intros x Hx. specialize (Hall x Hx).
      apply Z.eqb_neq. lia.
    + destruct (Z.eqb_spec (fst it) nNd); [| lia].
      f_equal. rewrite <- IH by assumption.
      destruct rest as [|x rest']; [reflexivity|]. simpl.
      apply Forall_inv in Hall.
      destruct (Z.ltb_spec (fst x) nNd); [lia | reflexivity].
Qed.

Lemma filter_emplace t k : forall nNd pBkmk,
  keys_ascending t ->
  filter (fun it => fst it =? k) (emplace t nNd pBkmk)
  = filter (fun it => fst it =? k) t ++ (if nNd =? k then [(nNd, pBkmk)] else []).
Proof.
  induction t as [|it rest IH]; intros nNd pBkmk H; simpl.
  - now destruct (nNd =? k).
  - destruct H as [Hall Hrest].
    destruct (Z.ltb_spec nNd (fst it)) as [Hlt|Hge].
    + cbn [filter fst]. destruct (Z.eqb_spec nNd k) as [->|Hne].
      * destruct (Z.eqb_spec (fst it) k); [lia|].
        replace (filter (fun it0 => fst it0 =? k) rest) with (@nil (Z * nat));
          [reflexivity|].
        symmetry. apply filter_none.
        rewrite Forall_forall in Hall. intros x Hx. specialize (Hall x Hx).
        apply Z.eqb_neq. lia.
      * now rewrite app_nil_r.
    + cbn [filter]. rewrite IH by assumption.
      now destruct (fst it =? k).
Qed.

Lemma InsertBkmk_entries impl pBkmk rBkmk k :
  keys_ascending (aBkmkNodePos impl) ->
  keys_ascending (aBkmkNodePos (InsertBkmk impl pBkmk rBkmk))
  /\ filter (fun it => fst it =? k) (aBkmkNodePos (InsertBkmk impl pBkmk rBkmk))
     = filter (fun it => fst it =? k) (aBkmkNodePos impl)
       ++ (if touches k rBkmk then [(k, pBkmk)] else []).
Proof.
  intros H. unfold InsertBkmk, touches. cbv zeta.
  set (n1 := nNode (GetMarkPos rBkmk)). set (n2 := nNode (GetOtherMarkPos rBkmk)).
  pose proof (emplace_ascending _ n1 pBkmk H) as H1.
  destruct (IsExpanded rBkmk); cbn [andb orb].
  - destruct (Z.eqb_spec n2 n1) as [E|E]; cbn [negb set_aBkmkNodePos aBkmkNodePos].
    + split; [assumption|]. rewrite filter_emplace by assumption.
      rewrite E. destruct (Z.eqb_spec n1 k) as [->|]; reflexivity.
    + split; [now apply emplace_ascending|].
      rewrite !filter_emplace by assumption.
      rewrite <- app_assoc. f_equal.
      destruct (Z.eqb_spec n1 k) as [E1|E1], (Z.eqb_spec n2 k) as [E2|E2];
        subst; try reflexivity; congruence.
  - cbn [set_aBkmkNodePos aBkmkNodePos]. split; [assumption|].
    rewrite filter_emplace by assumption. rewrite orb_false_r.
    destruct (Z.eqb_spec n1 k) as [->|]; reflexivity.
Qed.

Lemma InsertBkmk_from_entries bookmarks k : forall impl ppBkmk,
  keys_ascending (aBkmkNodePos impl) ->
  keys_ascending (aBkmkNodePos (InsertBkmk_from impl bookmarks ppBkmk))
  /\ filter (fun it => fst it =? k)
       (aBkmkNodePos (InsertBkmk_from impl bookmarks ppBkmk))
     = filter (fun it => fst it =? k) (aBkmkNodePos impl)
       ++ map (pair k) (positions_from (touches k) bookmarks ppBkmk).
Proof.
  induction bookmarks as [|b rest IH]; intros impl i H; simpl.
  - split; [assumption | now rewrite app_nil_r].
  - destruct (InsertBkmk_entries impl i b k H) as [H1 E1].
    destruct (IH _ (S i) H1) as [H2 E2]. split; [assumption|].
    rewrite E2, E1, <- app_assoc. f_equal.
    now destruct (touches k b).
Qed.

Lemma push_back_all (l : list (Z * nat)) : forall rArr : list nat,
  fold_left (fun rArr it => rArr ++ [snd it]) l rArr = rArr ++ map snd l.
Proof.
  induction l as [|it rest IH]; intros rArr; simpl.
  - now rewrite app_nil_r.
  - now rewrite IH, <- app_assoc.
Qed.

Lemma push_back_in_range (q : IMark -> bool) (k : Z) (p : IMark -> bool) l :
  forall (pre : list IMark) (rArr : list nat),
  fold_left
    (fun rArr it =>
       match nth_error (pre ++ l) (snd it) with
       | Some rBkmk => if q rBkmk then rArr ++ [snd it] else rArr
       | None => rArr
       end) (map (pair k) (positions_from p l (length pre))) rArr
  = rArr ++ positions_from (fun b => p b && q b) l (length pre).
Proof.
  induction l as [|b rest IH]; intros pre rArr; simpl.
  - now rewrite app_nil_r.
  - specialize (IH (pre ++ [b])).
    rewrite length_app, Nat.add_1_r in IH.
    assert (E : pre ++ b :: rest = (pre ++ [b]) ++ rest) by now rewrite <- app_assoc.
    destruct (p b); cbn [andb map fold_left snd].
    + rewrite nth_error_app2, Nat.sub_diag by lia. cbn [nth_error].
      rewrite E, IH. destruct (q b); [| reflexivity].
      now rewrite <- app_assoc.
    + rewrite E. apply IH.
Qed.

Lemma positions_from_ext {A} (p q : A -> bool) l : forall i,
  (forall a, In a l -> p a = q a) -> positions_from p l i = positions_from q l i.
Proof.
  induction l as [|a rest IH]; intros i H; simpl; [reflexivity|].
  rewrite (H a) by now left. rewrite (IH (S i)); [reflexivity|].
  intros x Hx. apply H. now right.
Qed.

Lemma in_range_touches rBkmk nNd nStt nEnd :
  in_range rBkmk nNd nStt nEnd = true -> touches nNd rBkmk = true.
Proof.
  unfold in_range, touches. rewrite (Z.eqb_sym nNd).
  destruct (nNode (GetMarkPos rBkmk) =? nNd); [reflexivity|].
  destruct (IsExpanded rBkmk); [| discriminate].
  now destruct (nNode (GetOtherMarkPos rBkmk) =? nNd).
Qed.

Lemma positions_from_In {A} (p : A -> bool) (j : nat) l : forall i,
  In j (positions_from p l i) ->
  (i <= j)%nat /\ exists a, nth_error l (j - i) = Some a /\ p a = true.
Proof.
  induction l as [|b rest IH]; intros i H; simpl in H; [contradiction|].
  assert (G : In j (positions_from p rest (S i)) ->
              (i <= j)%nat /\ exists a, nth_error (b :: rest) (j - i) = Some a
                                        /\ p a = true).
  { intros H'. destruct (IH _ H') as (Hle & r & Hr & Ht). split; [lia|].
    exists r. replace (j - i)%nat with (S (j - S i)) by lia. now split. }
  destruct (p b) eqn:Eb; [| now apply G].
  destruct H as [<- | H]; [| now apply G].
  split; [lia|]. rewrite Nat.sub_diag. now exists b.
Qed.

(** The table CreateBookmarkTable builds from an empty one is sorted by node
    index, and under each node index it lists, in the order of the
    bookmarks and once each, the bookmarks that have their position or, if
    they are expanded, their other position in that node. *)
Theorem CreateBookmarkTable_entries (impl : Writer_Impl) (bookmarks : list IMark)
    (nNd : Z) (Hnew : aBkmkNodePos impl = []) :
  let t := aBkmkNodePos (CreateBookmarkTable impl bookmarks) in
  keys_ascending t
  /\ equal_range t nNd = map (pair nNd) (positions (touches nNd) bookmarks)
  /\ (forall it, In it t ->
        exists rBkmk, nth_error bookmarks (snd it) = Some rBkmk
                      /\ touches (fst it) rBkmk = true).
Proof.
  intros t. subst t. unfold CreateBookmarkTable.
  assert (H0 : keys_ascending (aBkmkNodePos impl)) by (rewrite Hnew; exact I).
  destruct (InsertBkmk_from_entries bookmarks nNd impl 0 H0) as [Hs Hf].
  split; [assumption|]. split.
  - rewrite equal_range_filter by assumption. rewrite Hf, Hnew. reflexivity.
  - intros [k j] Hin. cbn [fst snd].
    destruct (InsertBkmk_from_entries bookmarks k impl 0 H0) as [_ Hk].
    rewrite Hnew in Hk. cbn [filter app] in Hk.
    assert (Hj : In (k, j) (map (pair k) (positions_from (touches k) bookmarks 0))).
    { rewrite <- Hk. apply filter_In. split; [assumption|]. apply Z.eqb_refl. }
    apply in_map_iff in Hj as (j' & E & Hj). injection E as ->.
    destruct (positions_from_In _ _ _ _ Hj) as (_ & r & Hr & Ht).
    rewrite Nat.sub_0_r in Hr. now exists r.
Qed.

Lemma CreateBookmarkTable_entries_witness :
  equal_range (aBkmkNodePos (CreateBookmarkTable new_Writer_Impl three_bookmarks)) 7
  = [(7, 0%nat); (7, 1%nat); (7, 2%nat)].
Proof.
  destruct (CreateBookmarkTable_entries new_Writer_Impl three_bookmarks 7 eq_refl)
    as (_ & H & _).
  rewrite H. reflexivity.
Defined.

(** GetBookmarks on the table CreateBookmarkTable has built: asked for the
    whole node (nStt is 0 and nEnd its length) it appends to rArr the
    bookmarks that have a position in the node; asked for a part it appends
    those whose position lies in the node at nStt <= index < nEnd, or, if
    they are expanded, whose other position does; each bookmark once, in the
    order of the bookmarks of the document; and it returns whether rArr is
    then not empty. *)
Theorem GetBookmarks_finds (impl : Writer_Impl) (bookmarks : list IMark)
    (nNd nLen nStt nEnd : Z) (rArr : list nat)
    (Hnew : aBkmkNodePos impl = []) :
  let found :=
    positions (fun rBkmk => if (nStt =? 0) && (nEnd =? nLen)
                            then touches nNd rBkmk
                            else in_range rBkmk nNd nStt nEnd) bookmarks in
  GetBookmarks (CreateBookmarkTable impl bookmarks) bookmarks nNd nLen nStt nEnd rArr
  = (negb (empty (rArr ++ found)), rArr ++ found).
Proof.
  intros found. unfold GetBookmarks. cbv zeta.
  assert (H0 : keys_ascending (aBkmkNodePos impl)) by (rewrite Hnew; exact I).
  destruct (InsertBkmk_from_entries bookmarks nNd impl 0 H0) as [Hs Hf].
  fold (CreateBookmarkTable impl bookmarks) in Hs, Hf.
  rewrite equal_range_filter by assumption. rewrite Hf, Hnew. cbn [filter app].
  fold (positions (touches nNd) bookmarks).
  assert (E : match map (pair nNd) (positions (touches nNd) bookmarks) with
              | [] => rArr
              | _ :: _ =>
                  if (nStt =? 0) && (nEnd =? nLen) then
                    fold_left (fun rArr it => rArr ++ [snd it])
                      (map (pair nNd) (positions (touches nNd) bookmarks)) rArr
                  else
                    fold_left
                      (fun rArr it =>
                         match nth_error bookmarks (snd it) with
                         | Some rBkmk =>
                             if in_range rBkmk nNd nStt nEnd
                             then rArr ++ [snd it] else rArr
                         | None => rArr
                         end)
                      (map (pair nNd) (positions (touches nNd) bookmarks)) rArr
              end = rArr ++ found).
  { assert (Hall : fold_left (fun rArr it => rArr ++ [snd it])
                     (map (pair nNd) (positions (touches nNd) bookmarks)) rArr
                   = rArr ++ positions (touches nNd) bookmarks).
    { rewrite push_back_all, map_map. cbn [snd]. now rewrite map_id. }
    assert (Hpart : fold_left
                      (fun rArr it =>
                         match nth_error bookmarks (snd it) with
                         | Some rBkmk =>
                             if in_range rBkmk nNd nStt nEnd
                             then rArr ++ [snd it] else rArr
                         | None => rArr
                         end)
                      (map (pair nNd) (positions (touches nNd) bookmarks)) rArr
                    = rArr ++ positions (fun b => in_range b nNd nStt nEnd) bookmarks).
    { pose proof (push_back_in_range (fun b => in_range b nNd nStt nEnd) nNd
                    (touches nNd) bookmarks [] rArr) as P.
      cbn [app length] in P. unfold positions. rewrite P. f_equal.
      apply positions_from_ext. intros b _.
      destruct (in_range b nNd nStt nEnd) eqn:Er.
      - now rewrite (in_range_touches _ _ _ _ Er).
      - apply andb_false_r. }
    subst found.
    destruct ((nStt =? 0) && (nEnd =? nLen)).
    - change (fun rBkmk : IMark => touches nNd rBkmk) with (touches nNd).
      rewrite <- Hall. now destruct (positions (touches nNd) bookmarks).
    - rewrite <- Hpart. now destruct (positions (touches nNd) bookmarks). }
  now rewrite E.
Qed.

Lemma GetBookmarks_finds_witness :
  GetBookmarks (CreateBookmarkTable new_Writer_Impl three_bookmarks) three_bookmarks
    7 12 0 12 [] = (true, [0; 1; 2]%nat)
  /\ GetBookmarks (CreateBookmarkTable new_Writer_Impl three_bookmarks) three_bookmarks
       7 12 3 12 [] = (true, [1; 2]%nat)
  /\ GetBookmarks (CreateBookmarkTable new_Writer_Impl three_bookmarks) three_bookmarks
       5 12 0 12 [] = (false, []).
Proof.
  rewrite !(GetBookmarks_finds new_Writer_Impl three_bookmarks) by reflexivity.
  repeat split.
Defined.

(** *** How much OutLong and OutULong write *)

Lemma canonical_lower_bound ds :
  canonical ds -> ds <> [] ->
  (10 ^ (N.of_nat (length ds) - 1) <= digits_value ds)%N.
Proof.
  induction ds as [|c ds IH] using rev_ind; intros Hc Hne; [congruence|].
  pose proof (canonical_positive _ Hc Hne) as Hpos.
  destruct (canonical_snoc _ _ Hc) as [Hd Hds].
  destruct ds as [|a ds].
  - cbn [app length] in *. change (10 ^ (N.of_nat 1 - 1))%N with 1%N. lia.
  - specialize (IH Hds ltac:(discriminate)).
    rewrite digits_value_snoc, length_app. cbn [length] in *.
    replace (N.of_nat (S (length ds) + 1) - 1)%N
      with (N.succ (N.of_nat (S (length ds)) - 1))%N by lia.
    rewrite N.pow_succ_r'. lia.
Qed.

Lemma decimal_of_bound n ds :
  decimal_of n ds -> (10 ^ (N.of_nat (length ds) - 1) <= N.max n 1)%N.
Proof.
  intros H. destruct (decimal_of_canonical _ _ H) as [[-> ->]|Hc].
  - simpl. change (10 ^ 0)%N with 1%N. lia.
  - destruct H as (Hne & _ & <- & _).
    pose proof (canonical_lower_bound _ Hc Hne). lia.
Qed.

Lemma decimal_of_digits n ds (k : nat) :
  decimal_of n ds -> (0 < k)%nat -> (n < 10 ^ N.of_nat k)%N -> (length ds <= k)%nat.
Proof.
  intros H Hk Hn. pose proof (decimal_of_bound _ _ H) as Hb.
  assert (Hlt : (10 ^ (N.of_nat (length ds) - 1) < 10 ^ N.of_nat k)%N).
  { eapply N.le_lt_trans; [exact Hb|].
    apply N.max_lub_lt; [assumption|].
    apply N.pow_gt_1; lia. }
  apply N.pow_lt_mono_r_iff in Hlt; lia.
Qed.

Lemma digits_no_sign ds : forallb is_digit ds = true -> hd_error ds <> Some "-"%char.
Proof.
  destruct ds as [|c ds]; simpl; [discriminate|].
  intros H [= ->]. discriminate H.
Qed.

(** OutULong writes at least one and at most 20 characters, OutLong at
    least one and at most 20 with the sign: the 28 characters of aBuf are
    never exceeded. *)
Theorem OutLong_length (aBuf : list ascii) (rStrm : SvStream) (n : N) (v : Z)
    (Hbuf : length aBuf = 28%nat)
    (Hn : (n < 2 ^ 64)%N) (Hv : - 2 ^ 63 <= v < 2 ^ 63) :
  (length rStrm + 1 <= length (OutULong aBuf rStrm n) <= length rStrm + 20)%nat
  /\ (length rStrm + 1 <= length (OutLong aBuf rStrm v) <= length rStrm + 20)%nat
  /\ firstn (length rStrm) (OutULong aBuf rStrm n) = rStrm
  /\ firstn (length rStrm) (OutLong aBuf rStrm v) = rStrm.
Proof.
  assert (Hprefix : forall a b : list ascii, firstn (length a) (a ++ b) = a).
  { intros a b. rewrite firstn_app, Nat.sub_diag, firstn_all. simpl.
    apply app_nil_r. }
  destruct (lcl_OutLongExt_spec aBuf rStrm n false Hbuf Hn) as (ds & Hd & E).
  unfold OutLong. rewrite abs_as_sal_uLong by assumption.
  assert (Ha : (Z.to_N (Z.abs v) < 10 ^ N.of_nat 19)%N).
  { change (10 ^ N.of_nat 19)%N with 10000000000000000000%N.
    change (2 ^ 63) with 9223372036854775808 in Hv. lia. }
  destruct (lcl_OutLongExt_spec aBuf rStrm (Z.to_N (Z.abs v)) (v <? 0) Hbuf)
    as (ds' & Hd' & E').
  { eapply N.lt_trans; [exact Ha | reflexivity]. }
  unfold OutULong. rewrite E, E'. rewrite !length_app, !Hprefix.
  pose proof (decimal_of_digits n ds 20 Hd ltac:(lia)
                ltac:(eapply N.lt_trans; [exact Hn | reflexivity])) as L.
  pose proof (decimal_of_digits _ ds' 19 Hd' ltac:(lia) Ha) as L'.
  destruct Hd as (Hne & _), Hd' as (Hne' & _).
  assert (0 < length ds)%nat by (destruct ds; [congruence | simpl; lia]).
  assert (0 < length ds')%nat by (destruct ds'; [congruence | simpl; lia]).
  destruct (v <? 0); cbn [length app]; repeat split; lia.
Qed.

Lemma OutLong_length_witness :
  (length (OutLong stale_aBuf ["="%char] (- 2 ^ 63)) <= 1 + 20)%nat.
Proof.
  apply (OutLong_length stale_aBuf ["="%char] 0 (- 2 ^ 63)).
  - reflexivity.
  - reflexivity.
  - split; [apply Z.le_refl | reflexivity].
Defined.

(** Two numbers that OutLong writes alike are the same number, whatever the
    two buffers held before; the same holds for OutULong. The written text
    identifies the number. *)
Theorem OutLong_injective (aBuf1 aBuf2 : list ascii) (rStrm : SvStream)
    (n1 n2 : N) (v1 v2 : Z)
    (Hbuf1 : length aBuf1 = 28%nat) (Hbuf2 : length aBuf2 = 28%nat)
    (Hn1 : (n1 < 2 ^ 64)%N) (Hn2 : (n2 < 2 ^ 64)%N)
    (Hv1 : - 2 ^ 63 <= v1 < 2 ^ 63) (Hv2 : - 2 ^ 63 <= v2 < 2 ^ 63) :
  (OutULong aBuf1 rStrm n1 = OutULong aBuf2 rStrm n2 -> n1 = n2)
  /\ (OutLong aBuf1 rStrm v1 = OutLong aBuf2 rStrm v2 -> v1 = v2).
Proof.
  split.
  - unfold OutULong.
    destruct (lcl_OutLongExt_spec aBuf1 rStrm n1 false Hbuf1 Hn1) as (d1 & H1 & E1).
    destruct (lcl_OutLongExt_spec aBuf2 rStrm n2 false Hbuf2 Hn2) as (d2 & H2 & E2).
    rewrite E1, E2. intros E. apply app_inv_head in E. cbn [app] in E. subst d2.
    destruct H1 as (_ & _ & <- & _). now destruct H2 as (_ & _ & <- & _).
  - unfold OutLong. rewrite !abs_as_sal_uLong by assumption.
    assert (B : forall v, - 2 ^ 63 <= v < 2 ^ 63 -> (Z.to_N (Z.abs v) < 2 ^ 64)%N).
    { intros v Hv. change (2 ^ 63) with 9223372036854775808 in Hv.
      change (2 ^ 64)%N with 18446744073709551616%N. lia. }
    destruct (lcl_OutLongExt_spec aBuf1 rStrm _ (v1 <? 0) Hbuf1 (B _ Hv1))
      as (d1 & H1 & E1).
    destruct (lcl_OutLongExt_spec aBuf2 rStrm _ (v2 <? 0) Hbuf2 (B _ Hv2))
      as (d2 & H2 & E2).
    rewrite E1, E2. intros E. apply app_inv_head in E.
    destruct H1 as (_ & D1 & V1 & _), H2 as (_ & D2 & V2 & _).
    destruct (Z.ltb_spec v1 0), (Z.ltb_spec v2 0); cbn [app] in E.
    + injection E as E. subst d2. lia.
    + exfalso. apply (digits_no_sign _ D2). now rewrite <- E.
    + exfalso. apply (digits_no_sign _ D1). now rewrite E.
    + subst d2. lia.
Qed.

Lemma OutLong_injective_witness :
  OutLong stale_aBuf [] (-17) = OutLong (repeat "0"%char 28) [] (-17)
  /\ -17 = -17.
Proof.
  split; [reflexivity|].
  apply (OutLong_injective stale_aBuf (repeat "0"%char 28) [] 0 0 (-17) (-17));
    try reflexivity; split; (discriminate || reflexivity).
Defined.

(** *** CopyLocalFileToINet *)

Definition set_maFileNameMap (wr : Writer) (m : list (string * string)) : Writer :=
  {| m_pImpl := {| m_pStream := m_pStream (m_pImpl wr); maFileNameMap := m;
                   aFontRemoveLst := aFontRemoveLst (m_pImpl wr);
                   aBkmkNodePos := aBkmkNodePos (m_pImpl wr) |};
     m_pOrigFileName := m_pOrigFileName wr; m_pDoc := m_pDoc wr;
     m_pOrigPam := m_pOrigPam wr; m_pCurrentPam := m_pCurrentPam wr;
     IsStgWriter := IsStgWriter wr; m_bWriteAll := m_bWriteAll wr;
     m_bShowProgress := m_bShowProgress wr;
     m_bUCS2_WithStartChar := m_bUCS2_WithStartChar wr;
     m_bASCII_NoLastLineEnd := m_bASCII_NoLastLineEnd wr;
     m_bASCII_ParaAsBlank := m_bASCII_ParaAsBlank wr;
     m_bASCII_ParaAsCR := m_bASCII_ParaAsCR wr;
     m_bWriteClipboardDoc := m_bWriteClipboardDoc wr;
     m_bWriteOnlyFirstTable := m_bWriteOnlyFirstTable wr;
     m_bBlock := m_bBlock wr; m_bOrganizerMode := m_bOrganizerMode wr;
     m_bHideDeleteRedlines := m_bHideDeleteRedlines wr;
     m_bExportParagraphNumbering := m_bExportParagraphNumbering wr |}.

(* maFileNameMap.find( rFileNm ): the map is only searched by key, so it is
   kept as the list of its entries *)
Fixpoint map_find (m : list (string * string)) (k : string) : option string :=
  match m with
  | [] => None
  | (k', v) :: rest => if String.eqb k' k then Some v else map_find rest k
  end.

(* maFileNameMap.insert( std::make_pair( k, v ) ): an entry that is there stays *)
Definition map_insert (m : list (string * string)) (k v : string)
    : list (string * string) :=
  match map_find m k with
  | Some _ => m
  | None => m ++ [(k, v)]
  end.

Section CopyLocalFileToINet.
(* INetURLObject (GetProtocol, GetPartBeforeLastName, GetLastName) and the
   three values of INetProtocol that are compared with, and the copy through
   two SfxMedium objects, which says whether the target was committed
   without error, belong to other parts of the suite. *)
Variable GetProtocol : string -> Z.
Variable INetProtocol_File INetProtocol_Ftp INetProtocol_VndSunStarWebdav : Z.
Variable GetPartBeforeLastName : string -> string.
Variable GetLastName : string -> string.
Variable Files : Type.
Variable copy_medium : Files -> string -> string -> bool * Files.

(* bool Writer::CopyLocalFileToINet( OUString& rFileNm ): the result, rFileNm,
   the writer and the files afterwards *)
Definition CopyLocalFileToINet (wr : Writer) (fs : Files) (rFileNm : string)
    : bool * string * Writer * Files :=
  match m_pOrigFileName wr with
  | None => (false, rFileNm, wr, fs)
  | Some aTargetUrl =>
      let bRet := false in
      let aFileUrl := rFileNm in
      if negb ((INetProtocol_File =? GetProtocol aFileUrl)
               && negb (INetProtocol_File =? GetProtocol aTargetUrl)
               && (INetProtocol_Ftp <=? GetProtocol aTargetUrl)
               && (INetProtocol_VndSunStarWebdav >=? GetProtocol aTargetUrl))
      then (bRet, rFileNm, wr, fs)
      else
        match map_find (maFileNameMap (m_pImpl wr)) rFileNm with
        | Some second => (true, second, wr, fs)
        | None =>
            let aSrc := rFileNm in
            let aDest := (GetPartBeforeLastName aTargetUrl ++ GetLastName aFileUrl)%string in
            let '(bRet, fs) := copy_medium fs aSrc aDest in
            if bRet then
              (bRet, aDest,
               set_maFileNameMap wr (map_insert (maFileNameMap (m_pImpl wr)) aSrc aDest),
               fs)
            else (bRet, rFileNm, wr, fs)
        end
  end.

Lemma map_find_insert m k v :
  map_find m k = None -> map_find (map_insert m k v) k = Some v.
Proof.
  intros H. unfold map_insert. rewrite H.
  induction m as [|[k' v'] rest IH]; simpl in *.
  - now rewrite String.eqb_refl.
  - destruct (String.eqb k' k); [discriminate | now apply IH].
Qed.

(** A file that CopyLocalFileToINet has copied is not copied again: the
    next call for the same name, on the writer the first call left, gives
    the same target name and leaves the files alone. *)
Theorem CopyLocalFileToINet_once (wr wr' : Writer) (fs fs' : Files)
    (rFileNm rFileNm' : string)
    (Hfirst : CopyLocalFileToINet wr fs rFileNm = (true, rFileNm', wr', fs')) :
  forall fs2, CopyLocalFileToINet wr' fs2 rFileNm = (true, rFileNm', wr', fs2).
Proof.
  intros fs2. unfold CopyLocalFileToINet in *. cbv zeta in *.
  destruct (m_pOrigFileName wr) as [aTargetUrl|] eqn:Eo; [| discriminate].
  destruct (negb _) eqn:Ep; [discriminate|].
  destruct (map_find (maFileNameMap (m_pImpl wr)) rFileNm) as [second|] eqn:Ef.
  - injection Hfirst as <- <- <-. now rewrite Eo, Ep, Ef.
  - destruct (copy_medium fs rFileNm _) as [[|] fs1]; [| discriminate].
    injection Hfirst as <- <- <-.
    cbn [set_maFileNameMap m_pOrigFileName m_pImpl maFileNameMap].
    rewrite Eo, Ep. now rewrite (map_find_insert _ _ _ Ef).
Qed.

(** When CopyLocalFileToINet returns false, rFileNm and the writer are as
    they were; and without an original file name, as when writing to the
    clipboard, or when the protocols do not ask for a copy, the files are
    not touched either. *)
Theorem CopyLocalFileToINet_refused (wr wr' : Writer) (fs fs' : Files)
    (rFileNm rFileNm' : string)
    (Hcall : CopyLocalFileToINet wr fs rFileNm = (false, rFileNm', wr', fs')) :
  rFileNm' = rFileNm /\ wr' = wr
  /\ (m_pOrigFileName wr = None -> fs' = fs)
  /\ (GetProtocol rFileNm <> INetProtocol_File -> fs' = fs)
  /\ (forall aTargetUrl, m_pOrigFileName wr = Some aTargetUrl ->
        GetProtocol aTargetUrl = INetProtocol_File
        \/ GetProtocol aTargetUrl < INetProtocol_Ftp
        \/ INetProtocol_VndSunStarWebdav < GetProtocol aTargetUrl ->
        fs' = fs).
Proof.
  unfold CopyLocalFileToINet in Hcall. cbv zeta in Hcall.
  destruct (m_pOrigFileName wr) as [aTargetUrl|] eqn:Eo.
  - destruct (negb _) eqn:Ep.
    + injection Hcall as <- <- <-. repeat split; auto.
    + apply negb_false_iff in Ep.
      apply andb_true_iff in Ep as [Ep E4]. apply andb_true_iff in Ep as [Ep E3].
      apply andb_true_iff in Ep as [E1 E2].
      apply Z.eqb_eq in E1. apply negb_true_iff, Z.eqb_neq in E2.
      apply Z.leb_le in E3. apply Z.geb_le in E4.
      destruct (map_find _ rFileNm); [discriminate|].
      destruct (copy_medium fs rFileNm _) as [[|] fs1]; [discriminate|].
      injection Hcall as <- <- <-. repeat split.
      * discriminate.
      * intros H. congruence.
      * intros t [= <-] [H | [H | H]]; [congruence | lia | lia].
  - injection Hcall as <- <- <-. repeat split; auto.
Qed.
End CopyLocalFileToINet.

Definition set_m_pOrigFileName (wr : Writer) (pFName : option string) : Writer :=
  {| m_pImpl := m_pImpl wr;
     m_pOrigFileName := pFName; m_pDoc := m_pDoc wr;
     m_pOrigPam := m_pOrigPam wr; m_pCurrentPam := m_pCurrentPam wr;
     IsStgWriter := IsStgWriter wr; m_bWriteAll := m_bWriteAll wr;
     m_bShowProgress := m_bShowProgress wr;
     m_bUCS2_WithStartChar := m_bUCS2_WithStartChar wr;
     m_bASCII_NoLastLineEnd := m_bASCII_NoLastLineEnd wr;
     m_bASCII_ParaAsBlank := m_bASCII_ParaAsBlank wr;
     m_bASCII_ParaAsCR := m_bASCII_ParaAsCR wr;
     m_bWriteClipboardDoc := m_bWriteClipboardDoc wr;
     m_bWriteOnlyFirstTable := m_bWriteOnlyFirstTable wr;
     m_bBlock := m_bBlock wr; m_bOrganizerMode := m_bOrganizerMode wr;
     m_bHideDeleteRedlines := m_bHideDeleteRedlines wr;
     m_bExportParagraphNumbering := m_bExportParagraphNumbering wr |}.

(* A small world of URLs: file: is protocol 1, ftp: protocol 5, and the
   copy notes the pair of names and succeeds unless the target is "full". *)
Definition sample_protocol (url : string) : Z :=
  if String.prefix "file:" url then 1
  else if String.prefix "ftp:" url then 5 else 0.

Definition sample_copy (fs : list (string * string)) (aSrc aDest : string)
    : bool * list (string * string) :=
  (negb (String.prefix "ftp://full/" aDest), fs ++ [(aSrc, aDest)]).

Definition sample_part (url : string) : string :=
  if String.prefix "ftp://full/" url then "ftp://full/" else "ftp://host/dir/".

Definition sample_last (url : string) : string := "pic.png".

Definition sample_Copy :=
  CopyLocalFileToINet sample_protocol 1 5 9 sample_part sample_last
    (list (string * string)) sample_copy.

Definition ftp_writer (aTargetUrl : string) : Writer :=
  set_m_pOrigFileName (Writer_ctor false) (Some aTargetUrl).

Definition copied_writer : Writer :=
  set_maFileNameMap (ftp_writer "ftp://host/dir/doc.html")
    [("file:///tmp/pic.png", "ftp://host/dir/pic.png")]%string.

Lemma CopyLocalFileToINet_once_witness :
  sample_Copy (ftp_writer "ftp://host/dir/doc.html") [] "file:///tmp/pic.png"
  = (true, "ftp://host/dir/pic.png"%string, copied_writer,
     [("file:///tmp/pic.png", "ftp://host/dir/pic.png")]%string)
  /\ sample_Copy copied_writer [] "file:///tmp/pic.png"
     = (true, "ftp://host/dir/pic.png"%string, copied_writer, []).
Proof.
  split; [reflexivity|].
  apply (CopyLocalFileToINet_once sample_protocol 1 5 9 sample_part sample_last
           (list (string * string)) sample_copy
           (ftp_writer "ftp://host/dir/doc.html") copied_writer
           [] [("file:///tmp/pic.png", "ftp://host/dir/pic.png")]%string
           "file:///tmp/pic.png" "ftp://host/dir/pic.png" eq_refl).
Defined.

Lemma CopyLocalFileToINet_refused_witness :
  sample_Copy (ftp_writer "ftp://full/doc.html") [] "file:///tmp/pic.png"
  = (false, "file:///tmp/pic.png"%string, ftp_writer "ftp://full/doc.html",
     [("file:///tmp/pic.png", "ftp://full/pic.png")]%string)
  /\ sample_Copy (ftp_writer "file:///home/doc.html") [] "file:///tmp/pic.png"
     = (false, "file:///tmp/pic.png"%string, ftp_writer "file:///home/doc.html", []).
Proof.
  split; [reflexivity|].
  destruct (sample_Copy (ftp_writer "file:///home/doc.html") [] "file:///tmp/pic.png")
    as [[[b f] w] fs] eqn:E.
  assert (Eb : b = false) by (vm_compute in E; congruence). subst b.
  destruct (CopyLocalFileToINet_refused sample_protocol 1 5 9 sample_part sample_last
              (list (string * string)) sample_copy _ _ _ _ _ _ E)
    as (-> & -> & _ & _ & H).
  rewrite (H "file:///home/doc.html"%string eq_refl); [reflexivity|].
  left. reflexivity.
Defined.
(*END*)
(*END*)
(*END*)
End Wrt.

(** ** DocumentLinksAdministrationManager *)
Module Links.

(** The document, as far as the manager reads it. A node pointer is the
    index of the node in the nodes array of the document. *)
Inductive NodeKind := TableNd | SectionNd | TextNd | NoTextNd | OtherNd.

Record SwNode := {
  nd_kind : NodeKind;
  EndOfSectionNode : nat;
  GetAttrOutlineLevel : Z;        (* of a text node *)
  GetObject : option nat }.       (* the SwServerObject of the section or table *)

Record SwPosition := { nNode : nat; nContent : Z }.

Record Mark := {
  mark_Name : string;
  isDdeBookmark : bool;           (* dynamic_cast<DdeBookmark*> succeeds *)
  IsExpanded : bool;
  GetMarkPos : SwPosition;
  GetOtherMarkPos : SwPosition;
  GetRefObject : option nat }.

(* GetContent().GetContentIdx(): null, or a node index together with
   whether it points into the nodes array of the document *)
Record ContentIdx := { inDocNodes : bool; idx : nat }.

Record SwSectionFormat := {
  GetSectionName : option string;   (* none when GetSection() is null *)
  sect_ContentIdx : option ContentIdx }.

Record SwTableBox := {
  GetSttNd : option ContentIdx;
  FindTableNode : option nat }.

Record SwTableFormat := {
  table_Name : string;
  FindTable : option (list (option SwTableBox)) }.   (* GetTabSortBoxes() of SwTable::FindTable *)

Record SwFlyFrameFormat := { fly_ContentIdx : option nat }.

Record SwDoc := {
  GetNodes : list SwNode;
  getAllMarks : list Mark;
  GetSections : list SwSectionFormat;
  GetTableFrameFormats : list SwTableFormat;
  GetOutLineNds : list nat;       (* node pointers, ascending *)
  GetEndOfContent : nat;
  servers : list nat;             (* GetLinkManager(): the inserted servers *)
  next_object : nat }.            (* the address the next new SwServerObject gets *)

Record SwNodeRange := { aStart : nat; aEnd : nat }.
Record SwPaM := { pam_Point : SwPosition; pam_Mark : SwPosition }.

Record FindItem := {
  m_Item : string;
  pTableNd : option nat;
  pSectNd : option nat }.

Definition new_FindItem (aS : string) : FindItem :=
  {| m_Item := aS; pTableNd := None; pSectNd := None |}.

(* What a SwServerObject is made from. *)
Inductive ServerSource :=
| OfBookmark (pBkmk : nat)
| OfSection (pSectNd : nat)
| OfTable (pTableNd : nat).

Definition node_at (rDoc : SwDoc) (p : nat) : option SwNode := nth_error (GetNodes rDoc) p.

Definition is_kind (rDoc : SwDoc) (k : NodeKind) (p : nat) : bool :=
  match node_at rDoc p with
  | Some n => match nd_kind n, k with
              | TableNd, TableNd | SectionNd, SectionNd | TextNd, TextNd
              | NoTextNd, NoTextNd | OtherNd, OtherNd => true
              | _, _ => false
              end
  | None => false
  end.

Definition end_of_section (rDoc : SwDoc) (p : nat) : nat :=
  match node_at rDoc p with Some n => EndOfSectionNode n | None => p end.

(** *** A lower-casing of Latin letters, and small documents *)

Definition ascii_lower (c : ascii) : ascii :=
  let n := nat_of_ascii c in
  if ((65 <=? n) && (n <=? 90))%nat then ascii_of_nat (n + 32) else c.

Fixpoint string_lower (s : string) : string :=
  match s with
  | EmptyString => EmptyString
  | String c rest => String (ascii_lower c) (string_lower rest)
  end.

Definition no_fly (rDoc : SwDoc) (name : string) : option SwFlyFrameFormat := None.
Definition no_outline (rDoc : SwDoc) (name : string) : option nat := None.
Definition count_GetData (rDoc : SwDoc) (src : ServerSource) (rValue : nat)
    (rMimeType : string) : bool * nat := (true, S rValue).

Definition pos (n : nat) : SwPosition := {| nNode := n; nContent := 0 |}.

Definition dde_mark (name : string) (expanded : bool) (a b : nat) : Mark :=
  {| mark_Name := name; isDdeBookmark := true; IsExpanded := expanded;
     GetMarkPos := pos a; GetOtherMarkPos := pos b; GetRefObject := None |}.

Definition text_node : SwNode :=
  {| nd_kind := TextNd; EndOfSectionNode := 0; GetAttrOutlineLevel := 0;
     GetObject := None |}.

Definition doc_of (marks : list Mark) (sections : list SwSectionFormat)
    (tables : list SwTableFormat) (nodes : list SwNode) : SwDoc :=
  {| GetNodes := nodes; getAllMarks := marks; GetSections := sections;
     GetTableFrameFormats := tables; GetOutLineNds := [];
     GetEndOfContent := length nodes; servers := []; next_object := 0 |}.

(* a DDE bookmark "Intro" that is not expanded, and a section "Intro" in
   nodes 1 to 3 *)
Definition doc_mark_on_section : SwDoc :=
  doc_of [dde_mark "Intro" false 2 2]
    [ {| GetSectionName := Some "Intro"%string;
         sect_ContentIdx := Some {| inDocNodes := true; idx := 1 |} |} ]
    []
    [ text_node;
      {| nd_kind := SectionNd; EndOfSectionNode := 3; GetAttrOutlineLevel := 0;
         GetObject := None |};
      text_node; text_node ].

(* What a view of a released buffer may read: the text that was there, as
   long as the memory has not been used again, or something else. *)
Definition read_back (s : string) : string := s.

Fixpoint overwritten (s : string) : string :=
  match s with
  | EmptyString => EmptyString
  | String _ rest => String Ascii.zero (overwritten rest)
  end.

(* a DDE bookmark "foo" that is expanded before one "Foo" that is not *)
Definition doc_foo_Foo : SwDoc :=
  doc_of [dde_mark "foo" true 0 1; dde_mark "Foo" false 2 2] [] []
         [text_node; text_node; text_node].

(* a table "Table1" in nodes 1 to 4 and a section "Intro" in nodes 5 to 7 *)
Definition doc_table_section : SwDoc :=
  doc_of [dde_mark "Mark" true 0 0]
    [ {| GetSectionName := Some "Intro"%string;
         sect_ContentIdx := Some {| inDocNodes := true; idx := 5 |} |} ]
    [ {| table_Name := "Table1";
         FindTable := Some [Some {| GetSttNd := Some {| inDocNodes := true; idx := 2 |};
                                    FindTableNode := Some 1%nat |}] |} ]
    [ text_node;
      {| nd_kind := TableNd; EndOfSectionNode := 4; GetAttrOutlineLevel := 0;
         GetObject := None |};
      {| nd_kind := OtherNd; EndOfSectionNode := 3; GetAttrOutlineLevel := 0;
         GetObject := None |};
      text_node; text_node;
      {| nd_kind := SectionNd; EndOfSectionNode := 7; GetAttrOutlineLevel := 0;
         GetObject := None |};
      text_node; text_node ].

(** *** The manager *)

Section Manager.
(* GetAppCharClass().lowercase, INetURLObject::decode( ..., WithCharset ),
   cMarkSeparator, SwDoc::FindFlyByName, SwDoc::GotoOutline and
   SwServerObject::GetData belong to other parts of the suite. *)
Variable lowercase : string -> string.
Variable decode : string -> string.
Variable cMarkSeparator : ascii.
Variable FindFlyByName : SwDoc -> string -> option SwFlyFrameFormat.
Variable GotoOutline : SwDoc -> string -> option nat.
Variable Any : Type.
Variable ServerObject_GetData : SwDoc -> ServerSource -> Any -> string -> bool * Any.

(* In SelectServerObj the kind behind the separator, sCmp, is a
   std::u16string_view into the buffer of sItem, and the statement after
   it, sItem = rCC.lowercase( sItem ), releases that buffer. What the
   comparisons of sCmp read afterwards is not decided by this code:
   [released s] stands for what is read where the buffer held s. *)
Variable released : string -> string.

(* lcl_FindDdeBookmark, the iteration from ppMark on; [i] is the address of *ppMark *)
Fixpoint FindDdeBookmark_from (marks : list Mark) (i : nat) (sNameLc : string)
    (bCaseSensitive : bool) : option nat :=
  match marks with
  | [] => None
  | pBkmk :: rest =>
      if isDdeBookmark pBkmk
         && ((bCaseSensitive && String.eqb (mark_Name pBkmk) sNameLc)
             || (negb bCaseSensitive
                 && String.eqb (lowercase (mark_Name pBkmk)) sNameLc))
      then Some i
      else FindDdeBookmark_from rest (S i) sNameLc bCaseSensitive
  end.

Definition lcl_FindDdeBookmark (rDoc : SwDoc) (rName : string)
    (bCaseSensitive : bool) : option nat :=
  let sNameLc := if bCaseSensitive then rName else lowercase rName in
  FindDdeBookmark_from (getAllMarks rDoc) 0 sNameLc bCaseSensitive.

(* bool lcl_FindSection( pSectFormat, pItem, bCaseSensitive ) *)
Definition lcl_FindSection (rDoc : SwDoc) (pSectFormat : SwSectionFormat)
    (pItem : FindItem) (bCaseSensitive : bool) : bool * FindItem :=
  match GetSectionName pSectFormat with
  | Some name =>
      let sNm := if bCaseSensitive then name else lowercase name in
      let sCompare := if bCaseSensitive then m_Item pItem
                      else lowercase (m_Item pItem) in
      if String.eqb sNm sCompare then
        match sect_ContentIdx pSectFormat with
        | Some pIdx =>
            if inDocNodes pIdx then
              (false, {| m_Item := m_Item pItem; pTableNd := pTableNd pItem;
                         pSectNd := if is_kind rDoc SectionNd (idx pIdx)
                                    then Some (idx pIdx) else None |})
            else (true, pItem)
        | None => (true, pItem)
        end
      else (true, pItem)
  | None => (true, pItem)
  end.

(* bool lcl_FindTable( pTableFormat, pItem ) *)
Definition lcl_FindTable (rDoc : SwDoc) (pTableFormat : SwTableFormat)
    (pItem : FindItem) : bool * FindItem :=
  let sNm := lowercase (table_Name pTableFormat) in
  if String.eqb sNm (m_Item pItem) then
    match FindTable pTableFormat with
    | Some boxes =>
        match nth_error boxes 0 with
        | Some (Some pFBox) =>
            match GetSttNd pFBox with
            | Some stt =>
                if inDocNodes stt then
                  (false, {| m_Item := m_Item pItem;
                             pTableNd := FindTableNode pFBox;
                             pSectNd := pSectNd pItem |})
                else (true, pItem)
            | None => (true, pItem)
            end
        | _ => (true, pItem)
        end
    | None => (true, pItem)
    end
  else (true, pItem).

(* for( pFormat : GetSections() ) if( !lcl_FindSection( ... ) ) break; *)
Fixpoint for_sections (rDoc : SwDoc) (l : list SwSectionFormat) (aPara : FindItem)
    (bCaseSensitive : bool) : FindItem :=
  match l with
  | [] => aPara
  | pFormat :: rest =>
      let '(go_on, aPara) := lcl_FindSection rDoc pFormat aPara bCaseSensitive in
      if go_on then for_sections rDoc rest aPara bCaseSensitive else aPara
  end.

(* for( pFormat : *GetTableFrameFormats() ) if( !lcl_FindTable( ... ) ) break; *)
Fixpoint for_tables (rDoc : SwDoc) (l : list SwTableFormat) (aPara : FindItem)
    : FindItem :=
  match l with
  | [] => aPara
  | pFormat :: rest =>
      let '(go_on, aPara) := lcl_FindTable rDoc pFormat aPara in
      if go_on then for_tables rDoc rest aPara else aPara
  end.

(* The body of the loop
     bool bCaseSensitive = true;
     while( true ) { ...; if( !bCaseSensitive ) break; bCaseSensitive = false; }
   runs with true, then with false; [two_passes body after] is that loop
   followed by the code after it, [Some r] in a body being a return. *)
Definition two_passes {R} (body : bool -> option R) (after : R) : R :=
  match body true with
  | Some r => r
  | None => match body false with
            | Some r => r
            | None => after
            end
  end.

(* bool DocumentLinksAdministrationManager::GetData( rItem, rMimeType, rValue ) *)
Definition GetData (rDoc : SwDoc) (rItem rMimeType : string) (rValue : Any)
    : bool * Any :=
  two_passes
    (fun bCaseSensitive =>
       match lcl_FindDdeBookmark rDoc rItem bCaseSensitive with
       | Some pBkmk => Some (ServerObject_GetData rDoc (OfBookmark pBkmk) rValue rMimeType)
       | None =>
           let sItem := if bCaseSensitive then rItem else lowercase rItem in
           let aPara := new_FindItem sItem in
           let aPara := for_sections rDoc (GetSections rDoc) aPara bCaseSensitive in
           match pSectNd aPara with
           | Some nd => Some (ServerObject_GetData rDoc (OfSection nd) rValue rMimeType)
           | None => None
           end
       end)
    (let aPara := new_FindItem (lowercase rItem) in
     let aPara := for_tables rDoc (GetTableFrameFormats rDoc) aPara in
     match pTableNd aPara with
     | Some nd => ServerObject_GetData rDoc (OfTable nd) rValue rMimeType
     | None => (false, rValue)
     end).

(* void DocumentLinksAdministrationManager::SetData( rItem ): it returns
   nothing; the model returns what its search stopped at. *)
Definition SetData (rDoc : SwDoc) (rItem : string) : option ServerSource :=
  two_passes
    (fun bCaseSensitive =>
       match lcl_FindDdeBookmark rDoc rItem bCaseSensitive with
       | Some pBkmk => Some (Some (OfBookmark pBkmk))
       | None =>
           let sItem := if bCaseSensitive then rItem else lowercase rItem in
           let aPara := new_FindItem sItem in
           let aPara := for_sections rDoc (GetSections rDoc) aPara bCaseSensitive in
           match pSectNd aPara with
           | Some nd => Some (Some (OfSection nd))
           | None => None
           end
       end)
    (let sItem := lowercase rItem in
     let aPara := new_FindItem sItem in
     let aPara := for_tables rDoc (GetTableFrameFormats rDoc) aPara in
     option_map OfTable (pTableNd aPara)).

Definition update_nth {A} (l : list A) (k : nat) (f : A -> A) : list A :=
  firstn k l ++ match nth_error l k with
                | Some a => f a :: skipn (S k) l
                | None => []
                end.

(* pObj = new SwServerObject( ... ); x.SetRefObject( pObj );
   GetLinkManager().InsertServer( pObj );   with the marks and nodes as
   SetRefObject leaves them *)
Definition InsertServer_in (rDoc : SwDoc) (marks : list Mark) (nodes : list SwNode)
    : SwDoc :=
  {| GetNodes := nodes; getAllMarks := marks;
     GetSections := GetSections rDoc;
     GetTableFrameFormats := GetTableFrameFormats rDoc;
     GetOutLineNds := GetOutLineNds rDoc;
     GetEndOfContent := GetEndOfContent rDoc;
     servers := servers rDoc ++ [next_object rDoc];
     next_object := S (next_object rDoc) |}.

Definition hotlink_bookmark (rDoc : SwDoc) (pBkmk : nat) : nat * SwDoc :=
  let pObj := next_object rDoc in
  (pObj,
   InsertServer_in rDoc
     (update_nth (getAllMarks rDoc) pBkmk
        (fun m => {| mark_Name := mark_Name m; isDdeBookmark := isDdeBookmark m;
                     IsExpanded := IsExpanded m; GetMarkPos := GetMarkPos m;
                     GetOtherMarkPos := GetOtherMarkPos m;
                     GetRefObject := Some pObj |}))
     (GetNodes rDoc)).

Definition hotlink_node (rDoc : SwDoc) (pNd : nat) : nat * SwDoc :=
  let pObj := next_object rDoc in
  (pObj,
   InsertServer_in rDoc (getAllMarks rDoc)
     (update_nth (GetNodes rDoc) pNd
        (fun n => {| nd_kind := nd_kind n; EndOfSectionNode := EndOfSectionNode n;
                     GetAttrOutlineLevel := GetAttrOutlineLevel n;
                     GetObject := Some pObj |}))).

Definition node_object (rDoc : SwDoc) (p : nat) : option nat :=
  match node_at rDoc p with Some n => GetObject n | None => None end.

(* The link source, with what it belongs to. *)
Record LinkSource := { pObj : nat; source : ServerSource }.

(* ::sfx2::SvLinkSource* DocumentLinksAdministrationManager::CreateLinkSource( rItem ) *)
Definition CreateLinkSource (rDoc : SwDoc) (rItem : string)
    : option LinkSource * SwDoc :=
  two_passes
    (fun bCaseSensitive =>
       let found :=
         match lcl_FindDdeBookmark rDoc rItem bCaseSensitive with
         | Some pBkmk =>
             match nth_error (getAllMarks rDoc) pBkmk with
             | Some m =>
                 if IsExpanded m then
                   match GetRefObject m with
                   | Some o => Some ({| pObj := o; source := OfBookmark pBkmk |}, rDoc)
                   | None =>
                       let '(o, rDoc) := hotlink_bookmark rDoc pBkmk in
                       Some ({| pObj := o; source := OfBookmark pBkmk |}, rDoc)
                   end
                 else None
             | None => None
             end
         | None => None
         end in
       match found with
       | Some (o, rDoc) => Some (Some o, rDoc)
       | None =>
           let aPara :=
             new_FindItem (if bCaseSensitive then rItem else lowercase rItem) in
           let aPara := for_sections rDoc (GetSections rDoc) aPara bCaseSensitive in
           match pSectNd aPara with
           | Some nd =>
               match node_object rDoc nd with
               | Some o => Some (Some {| pObj := o; source := OfSection nd |}, rDoc)
               | None =>
                   let '(o, rDoc) := hotlink_node rDoc nd in
                   Some (Some {| pObj := o; source := OfSection nd |}, rDoc)
               end
           | None => None
           end
       end)
    (let aPara := new_FindItem (lowercase rItem) in
     let aPara := for_tables rDoc (GetTableFrameFormats rDoc) aPara in
     match pTableNd aPara with
     | Some nd =>
         match node_object rDoc nd with
         | Some o => (Some {| pObj := o; source := OfTable nd |}, rDoc)
         | None =>
             let '(o, rDoc) := hotlink_node rDoc nd in
             (Some {| pObj := o; source := OfTable nd |}, rDoc)
         end
     | None => (None, rDoc)
     end).

(* sItem.indexOf( c ) *)
Fixpoint indexOf (sItem : string) (c : ascii) : option nat :=
  match sItem with
  | EmptyString => None
  | String x rest =>
      if Ascii.eqb x c then Some O else option_map S (indexOf rest c)
  end.

Definition copy (s : string) (from n : nat) : string := substring from n s.
Definition subView (s : string) (from : nat) : string :=
  substring from (String.length s - from) s.

(* rOutlNds.Seek_Entry( pNd, &nTmpPos ): the position of pNd in the sorted
   vector, or where it would be inserted *)
Fixpoint Seek_Entry (rOutlNds : list nat) (pNd : nat) : nat :=
  match rOutlNds with
  | [] => O
  | x :: rest => if (x <? pNd)%nat then S (Seek_Entry rest pNd) else O
  end.

Definition outline_level (rDoc : SwDoc) (p : nat) : Z :=
  match node_at rDoc p with Some n => GetAttrOutlineLevel n | None => 0 end.

(* for( ; nTmpPos < rOutlNds.size() &&
          nLvl < rOutlNds[ nTmpPos ]->GetTextNode()->GetAttrOutlineLevel()-1;
        ++nTmpPos ) ;    [from] is rOutlNds from nTmpPos on *)
Fixpoint skip_deeper (rDoc : SwDoc) (nLvl : Z) (from : list nat) (nTmpPos : nat)
    : nat :=
  match from with
  | [] => nTmpPos
  | p :: rest =>
      if nLvl <? outline_level rDoc p - 1
      then skip_deeper rDoc nLvl rest (S nTmpPos) else nTmpPos
  end.

Definition SelectResult : Type := bool * option SwPaM * option SwNodeRange.

(* the bookmark and section passes at the end of SelectServerObj *)
Definition select_passes (rDoc : SwDoc) (sItem : string) : SelectResult :=
  two_passes
    (fun bCaseSensitive =>
       match lcl_FindDdeBookmark rDoc sItem bCaseSensitive with
       | Some pBkmk =>
           let rpPam :=
             match nth_error (getAllMarks rDoc) pBkmk with
             | Some m =>
                 if IsExpanded m
                 then Some {| pam_Point := GetMarkPos m;
                              pam_Mark := GetOtherMarkPos m |}
                 else None
             | None => None
             end in
           Some (match rpPam with Some _ => true | None => false end, rpPam, None)
       | None =>
           let aPara :=
             new_FindItem (if bCaseSensitive then sItem else lowercase sItem) in
           match GetSections rDoc with
           | [] => None
           | _ :: _ =>
               let aPara :=
                 for_sections rDoc (GetSections rDoc) aPara bCaseSensitive in
               match pSectNd aPara with
               | Some nd =>
                   Some (true, None,
                         Some {| aStart := nd + 1; aEnd := end_of_section rDoc nd |})
               | None => None
               end
           end
       end)
    (false, None, None).

(* bool DocumentLinksAdministrationManager::SelectServerObj( rStr, rpPam, roRange ) *)
Definition SelectServerObj (rDoc : SwDoc) (rStr : string) : SelectResult :=
  let sItem := decode rStr in
  match indexOf sItem cMarkSeparator with
  | Some nPos =>
      let sName := copy sItem 0 nPos in
      let sCmp := subView sItem (nPos + 1) in
      let sItem := lowercase sItem in    (* the buffer sCmp views is released *)
      let sCmp := released sCmp in
      let aPara := new_FindItem sName in
      if String.eqb sCmp "table" then
        let sName := lowercase sName in
        let aPara := for_tables rDoc (GetTableFrameFormats rDoc) aPara in
        match pTableNd aPara with
        | Some nd =>
            (true, None,
             Some {| aStart := nd + 0; aEnd := end_of_section rDoc nd + 1 |})
        | None => (false, None, None)
        end
      else if String.eqb sCmp "frame" then
        match FindFlyByName rDoc sName with
        | Some pFlyFormat =>
            match fly_ContentIdx pFlyFormat with
            | Some pNd =>
                if negb (is_kind rDoc NoTextNd pNd) then
                  (true, None,
                   Some {| aStart := pNd + 1; aEnd := end_of_section rDoc pNd |})
                else (false, None, None)
            | None => (false, None, None)
            end
        | None => (false, None, None)
        end
      else if String.eqb sCmp "region" then
        let sItem := sName in       (* Is being dealt with further down! *)
        select_passes rDoc sItem
      else if String.eqb sCmp "outline" then
        match GotoOutline rDoc sName with
        | Some pNd =>
            let nLvl := outline_level rDoc pNd - 1 in
            let rOutlNds := GetOutLineNds rDoc in
            let nTmpPos := Seek_Entry rOutlNds pNd in
            let nTmpPos :=
              skip_deeper rDoc nLvl (skipn (S nTmpPos) rOutlNds) (S nTmpPos) in
            (true, None,
             Some {| aStart := pNd + 0;
                     aEnd := match nth_error rOutlNds nTmpPos with
                             | Some e => e
                             | None => GetEndOfContent rDoc
                             end |})
        | None => (false, None, None)
        end
      else (false, None, None)
  | None => select_passes rDoc sItem
  end.

(** *** The lookups, stated on the lists of the document *)

(* the first element of [l] that satisfies [p], with its position from [i] *)
Fixpoint first_from {A} (p : A -> bool) (l : list A) (i : nat) : option (nat * A) :=
  match l with
  | [] => None
  | a :: rest => if p a then Some (i, a) else first_from p rest (S i)
  end.

Definition names (bCaseSensitive : bool) (name sItem : string) : bool :=
  if bCaseSensitive then String.eqb name sItem
  else String.eqb (lowercase name) (lowercase sItem).

(* the first DDE bookmark of that name *)
Definition first_bookmark (rDoc : SwDoc) (sItem : string) (bCaseSensitive : bool)
    : option (nat * Mark) :=
  first_from (fun m => isDdeBookmark m && names bCaseSensitive (mark_Name m) sItem)
             (getAllMarks rDoc) 0.

(* the section node of the first section of that name whose content lies in
   the nodes array of the document *)
Definition first_section (rDoc : SwDoc) (sItem : string) (bCaseSensitive : bool)
    : option nat :=
  match first_from
          (fun f => match GetSectionName f, sect_ContentIdx f with
                    | Some name, Some c => names bCaseSensitive name sItem && inDocNodes c
                    | _, _ => false
                    end) (GetSections rDoc) 0 with
  | Some (_, f) =>
      match sect_ContentIdx f with
      | Some c => if is_kind rDoc SectionNd (idx c) then Some (idx c) else None
      | None => None
      end
  | None => None
  end.

Definition first_box (f : SwTableFormat) : option SwTableBox :=
  match FindTable f with
  | Some (Some b :: _) =>
      match GetSttNd b with
      | Some stt => if inDocNodes stt then Some b else None
      | None => None
      end
  | _ => None
  end.

(* the table node of the first table in the nodes array of the document
   whose lower-cased name is [sLower] *)
Definition first_table (rDoc : SwDoc) (sLower : string) : option nat :=
  match first_from
          (fun f => String.eqb (lowercase (table_Name f)) sLower
                    && match first_box f with Some _ => true | None => false end)
          (GetTableFrameFormats rDoc) 0 with
  | Some (_, f) => match first_box f with
                   | Some b => FindTableNode b
                   | None => None
                   end
  | None => None
  end.

Fixpoint first_some {A} (l : list (option A)) : option A :=
  match l with
  | [] => None
  | Some a :: _ => Some a
  | None :: rest => first_some rest
  end.

(* The order of GetData and SetData: a DDE bookmark of exactly that name, a
   section of exactly that name, then the same two ignoring case, then a
   table ignoring case. *)
Definition lookup_order (rDoc : SwDoc) (rItem : string) : option ServerSource :=
  first_some
    [ option_map (fun b => OfBookmark (fst b)) (first_bookmark rDoc rItem true);
      option_map OfSection (first_section rDoc rItem true);
      option_map (fun b => OfBookmark (fst b)) (first_bookmark rDoc rItem false);
      option_map OfSection (first_section rDoc rItem false);
      option_map OfTable (first_table rDoc (lowercase rItem)) ].

(* CreateLinkSource passes over a bookmark that is not expanded. *)
Definition expanded_bookmark (rDoc : SwDoc) (rItem : string) (bCaseSensitive : bool)
    : option ServerSource :=
  match first_bookmark rDoc rItem bCaseSensitive with
  | Some (i, m) => if IsExpanded m then Some (OfBookmark i) else None
  | None => None
  end.

Definition link_order (rDoc : SwDoc) (rItem : string) : option ServerSource :=
  first_some
    [ expanded_bookmark rDoc rItem true;
      option_map OfSection (first_section rDoc rItem true);
      expanded_bookmark rDoc rItem false;
      option_map OfSection (first_section rDoc rItem false);
      option_map OfTable (first_table rDoc (lowercase rItem)) ].


(* One pass of SelectServerObj: a bookmark of that name decides, expanded or
   not; else a section of that name. *)
Definition select_stage (rDoc : SwDoc) (sItem : string) (bCaseSensitive : bool)
    : option SelectResult :=
  match first_bookmark rDoc sItem bCaseSensitive with
  | Some (_, m) =>
      Some (if IsExpanded m
            then (true, Some {| pam_Point := GetMarkPos m;
                                pam_Mark := GetOtherMarkPos m |}, None)
            else (false, None, None))
  | None =>
      option_map
        (fun nd => (true, None,
                    Some {| aStart := nd + 1; aEnd := end_of_section rDoc nd |}))
        (first_section rDoc sItem bCaseSensitive)
  end.

Definition select_order (rDoc : SwDoc) (sItem : string) : SelectResult :=
  match first_some [select_stage rDoc sItem true; select_stage rDoc sItem false] with
  | Some r => r
  | None => (false, None, None)
  end.

(* the outline node that ends the chapter of heading [pNd]: the next one
   that is not deeper, or the end of the content *)
Definition outline_end (rDoc : SwDoc) (pNd : nat) : nat :=
  match find (fun p => outline_level rDoc p <=? outline_level rDoc pNd)
             (skipn (S (Seek_Entry (GetOutLineNds rDoc) pNd)) (GetOutLineNds rDoc)) with
  | Some e => e
  | None => GetEndOfContent rDoc
  end.

Definition not_found : SelectResult := (false, None, None).
Definition found_range (a e : nat) : SelectResult :=
  (true, None, Some {| aStart := a; aEnd := e |}).

(* The reading of SelectServerObj that the description of the manager
   gives: true exactly when the document has an object of the requested
   kind with that name (names compared ignoring case): a table for "table",
   a text frame that is no graphic for "frame", an outline heading for
   "outline", a section for "region" or a plain name, an expanded DDE
   bookmark for a plain name. *)
Definition has_section (rDoc : SwDoc) (name : string) : bool :=
  existsb (fun f => match GetSectionName f with
                    | Some n => names false n name
                    | None => false
                    end) (GetSections rDoc).

Definition has_expanded_bookmark (rDoc : SwDoc) (name : string) : bool :=
  existsb (fun m => isDdeBookmark m && IsExpanded m && names false (mark_Name m) name)
          (getAllMarks rDoc).

Definition has_table (rDoc : SwDoc) (name : string) : bool :=
  existsb (fun f => names false (table_Name f) name) (GetTableFrameFormats rDoc).

Definition has_text_frame (rDoc : SwDoc) (name : string) : bool :=
  match FindFlyByName rDoc name with
  | Some pFlyFormat =>
      match fly_ContentIdx pFlyFormat with
      | Some pNd => negb (is_kind rDoc NoTextNd pNd)
      | None => false
      end
  | None => false
  end.

Definition has_outline (rDoc : SwDoc) (name : string) : bool :=
  match GotoOutline rDoc name with Some _ => true | None => false end.

Definition claimed_match (rDoc : SwDoc) (rStr : string) : bool :=
  let sItem := decode rStr in
  match indexOf sItem cMarkSeparator with
  | Some nPos =>
      let sName := copy sItem 0 nPos in
      let sCmp := subView sItem (nPos + 1) in
      if String.eqb sCmp "table" then has_table rDoc sName
      else if String.eqb sCmp "frame" then has_text_frame rDoc sName
      else if String.eqb sCmp "outline" then has_outline rDoc sName
      else if String.eqb sCmp "region" then has_section rDoc sName
      else false
  | None => has_section rDoc sItem || has_expanded_bookmark rDoc sItem
  end.

(* What a caller finds in rpPam and roRange, with the result. *)
Definition one_answer (r : SelectResult) : Prop :=
  match r with
  | (true, Some _, None) => True
  | (true, None, Some _) => True
  | (false, None, None) => True
  | _ => False
  end.

(* The server object a source has, and the hotlink made for one that has
   none. *)
Definition object_of (rDoc : SwDoc) (src : ServerSource) : option nat :=
  match src with
  | OfBookmark pBkmk =>
      match nth_error (getAllMarks rDoc) pBkmk with
      | Some m => GetRefObject m
      | None => None
      end
  | OfSection nd => node_object rDoc nd
  | OfTable nd => node_object rDoc nd
  end.

Definition hotlink (rDoc : SwDoc) (src : ServerSource) : nat * SwDoc :=
  match src with
  | OfBookmark pBkmk => hotlink_bookmark rDoc pBkmk
  | OfSection nd => hotlink_node rDoc nd
  | OfTable nd => hotlink_node rDoc nd
  end.

Definition link_source (rDoc : SwDoc) (rItem : string) : option LinkSource * SwDoc :=
  match link_order rDoc rItem with
  | Some src =>
      match object_of rDoc src with
      | Some o => (Some {| pObj := o; source := src |}, rDoc)
      | None =>
          let '(o, rDoc) := hotlink rDoc src in
          (Some {| pObj := o; source := src |}, rDoc)
      end
  | None => (None, rDoc)
  end.

Definition source_valid (rDoc : SwDoc) (src : ServerSource) : Prop :=
  match src with
  | OfBookmark pBkmk => nth_error (getAllMarks rDoc) pBkmk <> None
  | OfSection nd => node_at rDoc nd <> None
  | OfTable nd => node_at rDoc nd <> None
  end.

(* Every table node a table box points to is a node of the document. *)
Definition table_nodes_valid (rDoc : SwDoc) : Prop :=
  forall f b nd, In f (GetTableFrameFormats rDoc) -> first_box f = Some b ->
                 FindTableNode b = Some nd -> node_at rDoc nd <> None.

Hypothesis lowercase_idem : forall s, lowercase (lowercase s) = lowercase s.

Lemma FindDdeBookmark_from_first marks :
  forall (i : nat) (sItem : string) (bCaseSensitive : bool),
  FindDdeBookmark_from marks i
    (if bCaseSensitive then sItem else lowercase sItem) bCaseSensitive
  = option_map (@fst nat Mark)
      (first_from (fun m => isDdeBookmark m
                            && names bCaseSensitive (mark_Name m) sItem) marks i).
Proof.
  induction marks as [|m rest IH]; intros i sItem cs; simpl; [reflexivity|].
  rewrite IH. unfold names.
  destruct (isDdeBookmark m); simpl; [| reflexivity].
  destruct cs; simpl.
  - rewrite orb_false_r. now destruct (String.eqb _ _).
  - now destruct (String.eqb _ _).
Qed.

Lemma lcl_FindDdeBookmark_first rDoc sItem bCaseSensitive :
  lcl_FindDdeBookmark rDoc sItem bCaseSensitive
  = option_map (@fst nat Mark) (first_bookmark rDoc sItem bCaseSensitive).
Proof. apply FindDdeBookmark_from_first. Qed.

Lemma first_from_nth {A} (p : A -> bool) l : forall i k a,
  first_from p l i = Some (k, a) ->
  (i <= k)%nat /\ nth_error l (k - i) = Some a /\ p a = true.
Proof.
  induction l as [|x rest IH]; intros i k a H; simpl in H; [discriminate|].
  destruct (p x) eqn:Ep.
  - injection H as <- <-. rewrite Nat.sub_diag. auto with arith.
  - apply IH in H as (Hle & Hn & Hp).
    replace (k - i)%nat with (S (k - S i)) by lia. simpl. split; [lia | auto].
Qed.

Lemma for_sections_first rDoc l :
  forall (sItem : string) (bCaseSensitive : bool) (t : option nat) (i : nat),
  let aPara := {| m_Item := if bCaseSensitive then sItem else lowercase sItem;
                  pTableNd := t; pSectNd := None |} in
  pSectNd (for_sections rDoc l aPara bCaseSensitive)
  = match first_from
            (fun f => match GetSectionName f, sect_ContentIdx f with
                      | Some name, Some c =>
                          names bCaseSensitive name sItem && inDocNodes c
                      | _, _ => false
                      end) l i with
    | Some (_, f) =>
        match sect_ContentIdx f with
        | Some c => if is_kind rDoc SectionNd (idx c) then Some (idx c) else None
        | None => None
        end
    | None => None
    end.
Proof.
  induction l as [|f rest IH]; intros sItem cs t i; simpl; [reflexivity|].
  unfold lcl_FindSection. cbn [m_Item pTableNd pSectNd].
  destruct (GetSectionName f) as [name|]; [| apply IH].
  assert (E : String.eqb (if cs then name else lowercase name)
                (if cs then (if cs then sItem else lowercase sItem)
                 else lowercase (if cs then sItem else lowercase sItem))
              = names cs name sItem).
  { unfold names. destruct cs; [reflexivity|]. now rewrite lowercase_idem. }
  rewrite E.
  destruct (sect_ContentIdx f) as [c|] eqn:Ec;
    destruct (names cs name sItem); simpl; try apply IH.
  destruct (inDocNodes c); simpl; [| apply IH].
  rewrite Ec. reflexivity.
Qed.

Lemma for_sections_first_section rDoc sItem (bCaseSensitive : bool) :
  pSectNd (for_sections rDoc (GetSections rDoc)
             (new_FindItem (if bCaseSensitive then sItem else lowercase sItem))
             bCaseSensitive)
  = first_section rDoc sItem bCaseSensitive.
Proof. apply (for_sections_first rDoc (GetSections rDoc) sItem bCaseSensitive None 0%nat). Qed.

Lemma for_sections_exact rDoc sItem :
  pSectNd (for_sections rDoc (GetSections rDoc) (new_FindItem sItem) true)
  = first_section rDoc sItem true.
Proof. exact (for_sections_first_section rDoc sItem true). Qed.

Lemma for_sections_folded rDoc sItem :
  pSectNd (for_sections rDoc (GetSections rDoc) (new_FindItem (lowercase sItem)) false)
  = first_section rDoc sItem false.
Proof. exact (for_sections_first_section rDoc sItem false). Qed.

Lemma for_tables_first rDoc l : forall (sLower : string) (s : option nat) (i : nat),
  let aPara := {| m_Item := sLower; pTableNd := None; pSectNd := s |} in
  pTableNd (for_tables rDoc l aPara)
  = match first_from
            (fun f => String.eqb (lowercase (table_Name f)) sLower
                      && match first_box f with Some _ => true | None => false end)
            l i with
    | Some (_, f) => match first_box f with
                     | Some b => FindTableNode b
                     | None => None
                     end
    | None => None
    end.
Proof.
  induction l as [|f rest IH]; intros sLower s i; simpl; [reflexivity|].
  unfold lcl_FindTable, first_box. cbn [m_Item pTableNd pSectNd].
  destruct (String.eqb (lowercase (table_Name f)) sLower); [| apply IH].
  destruct (FindTable f) as [[|[b|] boxes]|] eqn:EF; simpl; try apply IH.
  destruct (GetSttNd b) as [stt|] eqn:ES; simpl; [| apply IH].
  destruct (inDocNodes stt) eqn:EI; simpl; [| apply IH].
  now rewrite EF, ES, EI.
Qed.

Lemma for_tables_first_table rDoc sLower :
  pTableNd (for_tables rDoc (GetTableFrameFormats rDoc) (new_FindItem sLower))
  = first_table rDoc sLower.
Proof. apply (for_tables_first rDoc (GetTableFrameFormats rDoc) sLower None 0%nat). Qed.

Lemma first_bookmark_nth rDoc sItem (bCaseSensitive : bool) k m :
  first_bookmark rDoc sItem bCaseSensitive = Some (k, m) ->
  nth_error (getAllMarks rDoc) k = Some m.
Proof.
  intros H. apply first_from_nth in H as (_ & H & _).
  now rewrite Nat.sub_0_r in H.
Qed.

Lemma select_passes_order rDoc sItem :
  select_passes rDoc sItem = select_order rDoc sItem.
Proof.
  unfold select_passes, select_order, two_passes, select_stage. cbv zeta.
  cbn [first_some].
  rewrite !lcl_FindDdeBookmark_first, for_sections_exact, for_sections_folded.
  assert (S : forall cs : bool,
    match GetSections rDoc with
    | [] => None
    | _ :: _ =>
        match first_section rDoc sItem cs with
        | Some nd => Some (true, @None SwPaM,
                           Some {| aStart := nd + 1; aEnd := end_of_section rDoc nd |})
        | None => None
        end
    end
    = option_map
        (fun nd => (true, None,
                    Some {| aStart := nd + 1; aEnd := end_of_section rDoc nd |}))
        (first_section rDoc sItem cs)).
  { intros cs. unfold first_section.
    destruct (GetSections rDoc); [reflexivity|].
    now destruct (match first_from _ _ _ with Some _ => _ | None => _ end). }
  rewrite (S true), (S false).
  destruct (first_bookmark rDoc sItem true) as [[k m]|] eqn:E1; cbn [option_map fst].
  - rewrite (first_bookmark_nth _ _ _ _ _ E1). now destruct (IsExpanded m).
  - destruct (first_section rDoc sItem true); cbn [option_map]; [reflexivity|].
    destruct (first_bookmark rDoc sItem false) as [[k m]|] eqn:E2; cbn [option_map fst].
    + rewrite (first_bookmark_nth _ _ _ _ _ E2). now destruct (IsExpanded m).
    + now destruct (first_section rDoc sItem false).
Qed.

Lemma GetData_order rDoc rItem rMimeType rValue :
  GetData rDoc rItem rMimeType rValue
  = match lookup_order rDoc rItem with
    | Some src => ServerObject_GetData rDoc src rValue rMimeType
    | None => (false, rValue)
    end.
Proof.
  unfold GetData, lookup_order, two_passes. cbv zeta.
  rewrite !lcl_FindDdeBookmark_first, for_sections_exact, for_sections_folded,
          for_tables_first_table.
  destruct (first_bookmark rDoc rItem true) as [[k m]|]; cbn; [reflexivity|].
  destruct (first_section rDoc rItem true); cbn; [reflexivity|].
  destruct (first_bookmark rDoc rItem false) as [[k m]|]; cbn; [reflexivity|].
  destruct (first_section rDoc rItem false); cbn; [reflexivity|].
  now destruct (first_table rDoc (lowercase rItem)).
Qed.

Lemma SetData_order rDoc rItem : SetData rDoc rItem = lookup_order rDoc rItem.
Proof.
  unfold SetData, lookup_order, two_passes. cbv zeta.
  rewrite !lcl_FindDdeBookmark_first, for_sections_exact, for_sections_folded,
          for_tables_first_table.
  destruct (first_bookmark rDoc rItem true) as [[k m]|]; cbn; [reflexivity|].
  destruct (first_section rDoc rItem true); cbn; [reflexivity|].
  destruct (first_bookmark rDoc rItem false) as [[k m]|]; cbn; [reflexivity|].
  destruct (first_section rDoc rItem false); cbn; [reflexivity|].
  now destruct (first_table rDoc (lowercase rItem)).
Qed.

Lemma CreateLinkSource_order rDoc rItem :
  option_map source (fst (CreateLinkSource rDoc rItem)) = link_order rDoc rItem.
Proof.
  unfold CreateLinkSource, link_order, two_passes, expanded_bookmark. cbv zeta.
  rewrite !lcl_FindDdeBookmark_first, for_sections_exact, for_sections_folded,
          for_tables_first_table.
  assert (B : forall cs : bool,
    match option_map (@fst nat Mark) (first_bookmark rDoc rItem cs) with
    | Some pBkmk =>
        match nth_error (getAllMarks rDoc) pBkmk with
        | Some m =>
            if IsExpanded m then
              match GetRefObject m with
              | Some o => Some ({| pObj := o; source := OfBookmark pBkmk |}, rDoc)
              | None =>
                  let '(o, rDoc0) := hotlink_bookmark rDoc pBkmk in
                  Some ({| pObj := o; source := OfBookmark pBkmk |}, rDoc0)
              end
            else None
        | None => None
        end
    | None => None
    end
    = match first_bookmark rDoc rItem cs with
      | Some (i, m) =>
          if IsExpanded m then
            Some ({| pObj := match GetRefObject m with
                             | Some o => o
                             | None => next_object rDoc
                             end; source := OfBookmark i |},
                  match GetRefObject m with
                  | Some _ => rDoc
                  | None => snd (hotlink_bookmark rDoc i)
                  end)
          else None
      | None => None
      end).
  { intros cs. destruct (first_bookmark rDoc rItem cs) as [[k m]|] eqn:E;
      cbn [option_map fst]; [| reflexivity].
    rewrite (first_bookmark_nth _ _ _ _ _ E).
    destruct (IsExpanded m); [| reflexivity]. now destruct (GetRefObject m). }
  rewrite (B true), (B false). clear B.
  assert (N : forall nd (k : option LinkSource * SwDoc -> option LinkSource * SwDoc),
    option_map source
      (fst match node_object rDoc nd with
           | Some o => (Some {| pObj := o; source := OfSection nd |}, rDoc)
           | None => let '(o, rDoc0) := hotlink_node rDoc nd in
                     (Some {| pObj := o; source := OfSection nd |}, rDoc0)
           end) = Some (OfSection nd)).
  { intros nd _. now destruct (node_object rDoc nd). }
  destruct (first_bookmark rDoc rItem true) as [[k m]|]; cbn [first_some option_map].
  - destruct (IsExpanded m); [reflexivity|].
    destruct (first_section rDoc rItem true) as [nd|]; cbn [first_some option_map].
    + now destruct (node_object rDoc nd).
    + destruct (first_bookmark rDoc rItem false) as [[k' m']|];
        cbn [first_some option_map].
      * destruct (IsExpanded m'); [reflexivity|].
        destruct (first_section rDoc rItem false) as [nd|]; cbn [first_some option_map].
        -- now destruct (node_object rDoc nd).
        -- destruct (first_table rDoc (lowercase rItem)) as [nd|]; [|reflexivity].
           now destruct (node_object rDoc nd).
      * destruct (first_section rDoc rItem false) as [nd|]; cbn [first_some option_map].
        -- now destruct (node_object rDoc nd).
        -- destruct (first_table rDoc (lowercase rItem)) as [nd|]; [|reflexivity].
           now destruct (node_object rDoc nd).
  - destruct (first_section rDoc rItem true) as [nd|]; cbn [first_some option_map].
    + now destruct (node_object rDoc nd).
    + destruct (first_bookmark rDoc rItem false) as [[k' m']|];
        cbn [first_some option_map].
      * destruct (IsExpanded m'); [reflexivity|].
        destruct (first_section rDoc rItem false) as [nd|]; cbn [first_some option_map].
        -- now destruct (node_object rDoc nd).
        -- destruct (first_table rDoc (lowercase rItem)) as [nd|]; [|reflexivity].
           now destruct (node_object rDoc nd).
      * destruct (first_section rDoc rItem false) as [nd|]; cbn [first_some option_map].
        -- now destruct (node_object rDoc nd).
        -- destruct (first_table rDoc (lowercase rItem)) as [nd|]; [|reflexivity].
           now destruct (node_object rDoc nd).
Qed.

Lemma indexOf_app sName c sCmp :
  indexOf sName c = None ->
  indexOf (sName ++ String c sCmp) c = Some (String.length sName).
Proof.
  induction sName as [|x rest IH]; simpl; intros H.
  - now rewrite Ascii.eqb_refl.
  - destruct (Ascii.eqb x c); [discriminate|].
    destruct (indexOf rest c); [discriminate|]. now rewrite IH.
Qed.

Lemma substring_whole s : substring 0 (String.length s) s = s.
Proof. induction s as [|x rest IH]; simpl; [reflexivity | now rewrite IH]. Qed.

Lemma copy_app sName t : copy (sName ++ t) 0 (String.length sName) = sName.
Proof.
  unfold copy. induction sName as [|x rest IH]; simpl.
  - now destruct t.
  - now rewrite IH.
Qed.

Lemma subView_app sName c sCmp :
  subView (sName ++ String c sCmp) (String.length sName + 1) = sCmp.
Proof.
  unfold subView. induction sName as [|x rest IH]; simpl.
  - rewrite Nat.sub_0_r. apply substring_whole.
  - exact IH.
Qed.

Lemma skip_deeper_find rDoc nLvl rest : forall pre,
  nth_error (pre ++ rest) (skip_deeper rDoc nLvl rest (length pre))
  = find (fun p => negb (nLvl <? outline_level rDoc p - 1)) rest.
Proof.
  induction rest as [|p r IH]; intros pre; simpl.
  - apply nth_error_None. rewrite app_nil_r. lia.
  - destruct (nLvl <? outline_level rDoc p - 1); simpl.
    + specialize (IH (pre ++ [p])).
      rewrite <- app_assoc, length_app, Nat.add_1_r in IH. exact IH.
    + rewrite nth_error_app2, Nat.sub_diag by lia. reflexivity.
Qed.

Lemma outline_end_found rDoc pNd :
  let rOutlNds := GetOutLineNds rDoc in
  let nTmpPos := Seek_Entry rOutlNds pNd in
  match nth_error rOutlNds
          (skip_deeper rDoc (outline_level rDoc pNd - 1)
                       (skipn (S nTmpPos) rOutlNds) (S nTmpPos)) with
  | Some e => e
  | None => GetEndOfContent rDoc
  end = outline_end rDoc pNd.
Proof.
  intros l n. unfold outline_end. fold l. fold n.
  assert (F : forall rest,
    find (fun p => negb (outline_level rDoc pNd - 1 <? outline_level rDoc p - 1)) rest
    = find (fun p => outline_level rDoc p <=? outline_level rDoc pNd) rest).
  { induction rest as [|p r IHr]; simpl; [reflexivity|]. rewrite IHr.
    destruct (Z.ltb_spec (outline_level rDoc pNd - 1) (outline_level rDoc p - 1));
      destruct (Z.leb_spec (outline_level rDoc p) (outline_level rDoc pNd));
      simpl; try reflexivity; lia. }
  rewrite <- F.
  destruct (Nat.le_gt_cases (S n) (length l)) as [Hle|Hgt].
  - pose proof (skip_deeper_find rDoc (outline_level rDoc pNd - 1)
                  (skipn (S n) l) (firstn (S n) l)) as H.
    rewrite firstn_skipn, length_firstn, Nat.min_l in H by exact Hle.
    now rewrite H.
  - rewrite skipn_all2 by lia. cbn [skip_deeper find].
    assert (E : nth_error l (S n) = None) by (apply nth_error_None; lia).
    now rewrite E.
Qed.

Lemma first_from_none {A} (p : A -> bool) l : forall i,
  (forall a, In a l -> p a = false) -> first_from p l i = None.
Proof.
  induction l as [|x rest IH]; intros i H; simpl; [reflexivity|].
  rewrite (H x) by (now left). apply IH. intros a Ha. apply H. now right.
Qed.

Lemma names_lowercase (bCaseSensitive : bool) name sItem :
  lowercase name <> lowercase sItem -> names bCaseSensitive name sItem = false.
Proof.
  intros H. unfold names. destruct bCaseSensitive; apply String.eqb_neq; congruence.
Qed.

Lemma SelectServerObj_plain rDoc rStr :
  indexOf (decode rStr) cMarkSeparator = None ->
  SelectServerObj rDoc rStr = select_order rDoc (decode rStr).
Proof.
  intros H. unfold SelectServerObj. cbv zeta. rewrite H.
  apply select_passes_order.
Qed.

(* An item "name<separator>kind", taken apart as SelectServerObj does: the
   kind is what the comparisons read through the view of the released
   buffer. *)
Lemma SelectServerObj_suffix rDoc rStr sName sCmp :
  decode rStr = (sName ++ String cMarkSeparator sCmp)%string ->
  indexOf sName cMarkSeparator = None ->
  SelectServerObj rDoc rStr =
    if String.eqb (released sCmp) "table" then
      match first_table rDoc sName with
      | Some nd => found_range (nd + 0) (end_of_section rDoc nd + 1)
      | None => not_found
      end
    else if String.eqb (released sCmp) "frame" then
      match FindFlyByName rDoc sName with
      | Some pFlyFormat =>
          match fly_ContentIdx pFlyFormat with
          | Some pNd =>
              if negb (is_kind rDoc NoTextNd pNd)
              then found_range (pNd + 1) (end_of_section rDoc pNd)
              else not_found
          | None => not_found
          end
      | None => not_found
      end
    else if String.eqb (released sCmp) "region" then select_order rDoc sName
    else if String.eqb (released sCmp) "outline" then
      match GotoOutline rDoc sName with
      | Some pNd => found_range (pNd + 0) (outline_end rDoc pNd)
      | None => not_found
      end
    else not_found.
Proof.
  intros E H. unfold SelectServerObj. cbv zeta.
  rewrite E, (indexOf_app _ _ _ H), copy_app, subView_app.
  rewrite for_tables_first_table, select_passes_order.
  destruct (String.eqb (released sCmp) "table"); [reflexivity|].
  destruct (String.eqb (released sCmp) "frame"); [reflexivity|].
  destruct (String.eqb (released sCmp) "region"); [reflexivity|].
  destruct (String.eqb (released sCmp) "outline"); [| reflexivity].
  destruct (GotoOutline rDoc sName) as [pNd|]; [| reflexivity].
  unfold found_range. now rewrite (outline_end_found rDoc pNd).
Qed.

(** C4, as the code has it: a plain item goes through the two bookmark and
    section passes (select_order: the first DDE bookmark of that name
    decides, true with a PaM between its two positions if it is expanded
    and false otherwise; else the first section of that name in the nodes
    array gives the range from behind its section node to its end node).
    For an item "name<separator>kind" the kind is what the comparisons read
    through the view of the released buffer: read as "region", the name
    goes through the same two passes; as "frame", the answer is the range
    of the fly of that name unless its content node is a NoTextNode; as
    "outline", the range from the heading to the next outline node that is
    not deeper, or to the end of the content; as "table", for a name that
    is its own lower-case form, the range of the first table whose
    lower-cased name it is; as anything else, false. *)
Theorem SelectServerObj_resolves (rDoc : SwDoc) (rStr sName sCmp : string) :
  (indexOf (decode rStr) cMarkSeparator = None ->
   SelectServerObj rDoc rStr = select_order rDoc (decode rStr))
  /\ (decode rStr = (sName ++ String cMarkSeparator sCmp)%string ->
      indexOf sName cMarkSeparator = None ->
      (released sCmp = "table"%string -> lowercase sName = sName ->
       SelectServerObj rDoc rStr =
         match first_table rDoc (lowercase sName) with
         | Some nd => found_range nd (end_of_section rDoc nd + 1)
         | None => not_found
         end)
      /\ (released sCmp = "frame"%string ->
          SelectServerObj rDoc rStr =
            match FindFlyByName rDoc sName with
            | Some pFlyFormat =>
                match fly_ContentIdx pFlyFormat with
                | Some pNd =>
                    if is_kind rDoc NoTextNd pNd then not_found
                    else found_range (pNd + 1) (end_of_section rDoc pNd)
                | None => not_found
                end
            | None => not_found
            end)
      /\ (released sCmp = "region"%string ->
          SelectServerObj rDoc rStr = select_order rDoc sName)
      /\ (released sCmp = "outline"%string ->
          SelectServerObj rDoc rStr =
            match GotoOutline rDoc sName with
            | Some pNd => found_range pNd (outline_end rDoc pNd)
            | None => not_found
            end)
      /\ (released sCmp <> "table"%string -> released sCmp <> "frame"%string ->
          released sCmp <> "region"%string -> released sCmp <> "outline"%string ->
          SelectServerObj rDoc rStr = not_found)).
Proof.
  split; [apply SelectServerObj_plain|].
  intros E H. rewrite (SelectServerObj_suffix rDoc rStr sName sCmp E H).
  repeat split.
  - intros -> Hl. rewrite Hl. cbn [String.eqb Ascii.eqb Bool.eqb].
    destruct (first_table rDoc sName) as [nd|]; [| reflexivity].
    now rewrite Nat.add_0_r.
  - intros ->. cbn [String.eqb Ascii.eqb Bool.eqb].
    destruct (FindFlyByName rDoc sName) as [fly|]; [| reflexivity].
    destruct (fly_ContentIdx fly) as [pNd|]; [| reflexivity].
    now destruct (is_kind rDoc NoTextNd pNd).
  - now intros ->.
  - intros ->. cbn [String.eqb Ascii.eqb Bool.eqb].
    destruct (GotoOutline rDoc sName) as [pNd|]; [| reflexivity].
    now rewrite Nat.add_0_r.
  - intros H1 H2 H3 H4.
    apply String.eqb_neq in H1, H2, H3, H4. now rewrite H1, H2, H3, H4.
Qed.

(** C8, as the code has it: GetData and SetData take the first of: a DDE
    bookmark of exactly the item's name, a section of exactly that name,
    a DDE bookmark of that name ignoring case, a section of that name
    ignoring case, a table whose lower-cased name is the lower-cased item;
    CreateLinkSource does the same but passes over a bookmark that is not
    expanded; SelectServerObj makes the two bookmark and section passes for
    a plain item, where a bookmark that is not expanded ends the search
    with false, and never looks at the tables there. *)
Theorem lookup_case_order (rDoc : SwDoc) (rItem rMimeType : string) (rValue : Any)
    (rStr : string) :
  GetData rDoc rItem rMimeType rValue
    = match lookup_order rDoc rItem with
      | Some src => ServerObject_GetData rDoc src rValue rMimeType
      | None => (false, rValue)
      end
  /\ SetData rDoc rItem = lookup_order rDoc rItem
  /\ option_map source (fst (CreateLinkSource rDoc rItem)) = link_order rDoc rItem
  /\ (indexOf (decode rStr) cMarkSeparator = None ->
      SelectServerObj rDoc rStr = select_order rDoc (decode rStr)).
Proof.
  split; [apply GetData_order|].
  split; [apply SetData_order|].
  split; [apply CreateLinkSource_order|].
  apply SelectServerObj_plain.
Qed.

(** C9: when no DDE bookmark, no section and no table of the document has
    the item's name, even ignoring case, GetData returns false and rValue
    is what it was. *)
Theorem GetData_no_match (rDoc : SwDoc) (rItem rMimeType : string) (rValue : Any)
    (Hmarks : forall m, In m (getAllMarks rDoc) -> isDdeBookmark m = true ->
                lowercase (mark_Name m) <> lowercase rItem)
    (Hsections : forall f name, In f (GetSections rDoc) ->
                   GetSectionName f = Some name ->
                   lowercase name <> lowercase rItem)
    (Htables : forall f, In f (GetTableFrameFormats rDoc) ->
                 lowercase (table_Name f) <> lowercase rItem) :
  GetData rDoc rItem rMimeType rValue = (false, rValue).
Proof.
  rewrite GetData_order. unfold lookup_order.
  assert (B : forall cs : bool, first_bookmark rDoc rItem cs = None).
  { intros cs. apply first_from_none. intros m Hm.
    destruct (isDdeBookmark m) eqn:Ed; [| reflexivity].
    simpl. apply names_lowercase. now apply Hmarks. }
  assert (S : forall cs : bool, first_section rDoc rItem cs = None).
  { intros cs. unfold first_section. rewrite first_from_none; [reflexivity|].
    intros f Hf. destruct (GetSectionName f) as [name|] eqn:En; [| reflexivity].
    destruct (sect_ContentIdx f); [| reflexivity].
    rewrite names_lowercase; [reflexivity|]. now apply (Hsections f). }
  assert (T : first_table rDoc (lowercase rItem) = None).
  { unfold first_table. rewrite first_from_none; [reflexivity|].
    intros f Hf. apply andb_false_intro1. apply String.eqb_neq. now apply Htables. }
  now rewrite !B, !S, T.
Qed.
Lemma two_passes_ind {R} (P : R -> Prop) (body : bool -> option R) (after : R) :
  (forall bCaseSensitive r, body bCaseSensitive = Some r -> P r) -> P after ->
  P (two_passes body after).
Proof.
  intros Hb Ha. unfold two_passes.
  destruct (body true) eqn:E1; [now apply (Hb true)|].
  destruct (body false) eqn:E2; [now apply (Hb false) | exact Ha].
Qed.

(** SelectServerObj answers with a PaM or with a range, never with both,
    exactly when it returns true; when it returns false rpPam is null and
    roRange is empty. *)
Theorem SelectServerObj_one_answer (rDoc : SwDoc) (rStr : string) :
  one_answer (SelectServerObj rDoc rStr).
Proof.
  assert (P : forall sItem, one_answer (select_passes rDoc sItem)).
  { intros sItem. unfold select_passes. apply two_passes_ind; [| exact I].
    intros cs r.
    destruct (lcl_FindDdeBookmark rDoc sItem cs) as [pBkmk|].
    - intros [= <-].
      destruct (nth_error (getAllMarks rDoc) pBkmk) as [m|]; [| exact I].
      destruct (IsExpanded m); exact I.
    - destruct (GetSections rDoc); [discriminate|].
      destruct (pSectNd _); [| discriminate]. intros [= <-]. exact I. }
  unfold SelectServerObj. cbv zeta.
  destruct (indexOf (decode rStr) cMarkSeparator) as [nPos|]; [| apply P].
  destruct (String.eqb _ "table").
  { destruct (pTableNd _); exact I. }
  destruct (String.eqb _ "frame").
  { destruct (FindFlyByName rDoc _) as [fly|]; [| exact I].
    destruct (fly_ContentIdx fly) as [pNd|]; [| exact I].
    destruct (negb _); exact I. }
  destruct (String.eqb _ "region"); [apply P|].
  destruct (String.eqb _ "outline"); [| exact I].
  destruct (GotoOutline rDoc _); exact I.
Qed.

Lemma update_nth_nil {A} (k : nat) (f : A -> A) : update_nth [] k f = [].
Proof. unfold update_nth. now destruct k. Qed.

Lemma update_nth_cons {A} (a : A) l (k : nat) f :
  update_nth (a :: l) (S k) f = a :: update_nth l k f.
Proof. reflexivity. Qed.

Lemma nth_error_update_nth {A} (f : A -> A) l : forall k j,
  nth_error (update_nth l k f) j
  = if (j =? k)%nat then option_map f (nth_error l k) else nth_error l j.
Proof.
  induction l as [|a l IH]; intros k j.
  - rewrite update_nth_nil. destruct (j =? k)%nat, j, k; reflexivity.
  - destruct k as [|k].
    + destruct j; reflexivity.
    + rewrite update_nth_cons. destruct j as [|j]; [reflexivity|].
      cbn [nth_error]. rewrite IH. reflexivity.
Qed.

Lemma first_from_update_nth {A} (p : A -> bool) (f : A -> A) l :
  (forall a, p (f a) = p a) ->
  forall k i,
  first_from p (update_nth l k f) i
  = option_map (fun r => (fst r, if (fst r =? i + k)%nat then f (snd r) else snd r))
      (first_from p l i).
Proof.
  intros Hp. induction l as [|a l IH]; intros k i.
  - now rewrite update_nth_nil.
  - destruct k as [|k].
    + change (update_nth (a :: l) 0 f) with (f a :: l). cbn [first_from].
      rewrite Hp. destruct (p a); cbn [option_map fst snd].
      * now rewrite Nat.add_0_r, Nat.eqb_refl.
      * destruct (first_from p l (S i)) as [[j x]|] eqn:E; [| reflexivity].
        cbn [option_map fst snd]. apply first_from_nth in E as (Hle & _).
        destruct (Nat.eqb_spec j (i + 0)); [lia | reflexivity].
    + rewrite update_nth_cons. cbn [first_from].
      destruct (p a); cbn [option_map fst snd].
      * destruct (Nat.eqb_spec i (i + S k)); [lia | reflexivity].
      * rewrite IH. replace (S i + k)%nat with (i + S k)%nat by lia. reflexivity.
Qed.

(* The lookups read the names, the kinds and the places of the objects, not
   their server objects. *)
Lemma link_order_hotlink rDoc src rItem :
  link_order (snd (hotlink rDoc src)) rItem = link_order rDoc rItem.
Proof.
  assert (S : forall marks nodes,
    map nd_kind nodes = map nd_kind (GetNodes rDoc) ->
    forall cs, first_section (InsertServer_in rDoc marks nodes) rItem cs
               = first_section rDoc rItem cs).
  { intros marks nodes Hk cs. unfold first_section.
    cbn [InsertServer_in GetSections].
    destruct (first_from _ (GetSections rDoc) 0) as [[j f0]|]; [| reflexivity].
    destruct (sect_ContentIdx f0) as [c|]; [| reflexivity].
    unfold is_kind, node_at. cbn [InsertServer_in GetNodes].
    assert (E : option_map nd_kind (nth_error nodes (idx c))
                = option_map nd_kind (nth_error (GetNodes rDoc) (idx c)))
      by now rewrite <- !nth_error_map, Hk.
    destruct (nth_error nodes (idx c)), (nth_error (GetNodes rDoc) (idx c));
      cbn [option_map] in E; try congruence.
    injection E as ->. reflexivity. }
  assert (B : forall k nodes cs,
    expanded_bookmark
      (InsertServer_in rDoc
         (update_nth (getAllMarks rDoc) k
            (fun m => {| mark_Name := mark_Name m; isDdeBookmark := isDdeBookmark m;
                         IsExpanded := IsExpanded m; GetMarkPos := GetMarkPos m;
                         GetOtherMarkPos := GetOtherMarkPos m;
                         GetRefObject := Some (next_object rDoc) |})) nodes)
      rItem cs
    = expanded_bookmark rDoc rItem cs).
  { intros k nodes cs. unfold expanded_bookmark, first_bookmark.
    cbn [InsertServer_in getAllMarks].
    rewrite first_from_update_nth by reflexivity.
    destruct (first_from _ (getAllMarks rDoc) 0) as [[j m]|]; [| reflexivity].
    cbn [option_map fst snd]. now destruct (j =? 0 + k)%nat. }
  assert (K : forall nd,
    map nd_kind
      (update_nth (GetNodes rDoc) nd
         (fun n => {| nd_kind := nd_kind n; EndOfSectionNode := EndOfSectionNode n;
                      GetAttrOutlineLevel := GetAttrOutlineLevel n;
                      GetObject := Some (next_object rDoc) |}))
    = map nd_kind (GetNodes rDoc)).
  { intros nd. apply nth_error_ext. intros j.
    rewrite !nth_error_map, nth_error_update_nth.
    destruct (Nat.eqb_spec j nd) as [->|]; [| reflexivity].
    now destruct (nth_error (GetNodes rDoc) nd). }
  unfold link_order.
  destruct src as [k|nd|nd]; cbn [hotlink hotlink_bookmark hotlink_node snd].
  - rewrite !B, !S by reflexivity. reflexivity.
  - rewrite !S by apply K.
    assert (B' : forall cs,
      expanded_bookmark (InsertServer_in rDoc (getAllMarks rDoc)
        (update_nth (GetNodes rDoc) nd
           (fun n => {| nd_kind := nd_kind n; EndOfSectionNode := EndOfSectionNode n;
                        GetAttrOutlineLevel := GetAttrOutlineLevel n;
                        GetObject := Some (next_object rDoc) |}))) rItem cs
      = expanded_bookmark rDoc rItem cs) by reflexivity.
    rewrite !B'. reflexivity.
  - rewrite !S by apply K.
    assert (B' : forall cs,
      expanded_bookmark (InsertServer_in rDoc (getAllMarks rDoc)
        (update_nth (GetNodes rDoc) nd
           (fun n => {| nd_kind := nd_kind n; EndOfSectionNode := EndOfSectionNode n;
                        GetAttrOutlineLevel := GetAttrOutlineLevel n;
                        GetObject := Some (next_object rDoc) |}))) rItem cs
      = expanded_bookmark rDoc rItem cs) by reflexivity.
    rewrite !B'. reflexivity.
Qed.

Lemma CreateLinkSource_link_source rDoc rItem :
  CreateLinkSource rDoc rItem = link_source rDoc rItem.
Proof.
  unfold CreateLinkSource, link_source, link_order, two_passes, expanded_bookmark.
  cbv zeta.
  rewrite !lcl_FindDdeBookmark_first, for_sections_exact, for_sections_folded,
          for_tables_first_table.
  assert (B : forall cs : bool,
    match option_map (@fst nat Mark) (first_bookmark rDoc rItem cs) with
    | Some pBkmk =>
        match nth_error (getAllMarks rDoc) pBkmk with
        | Some m =>
            if IsExpanded m then
              match GetRefObject m with
              | Some o => Some ({| pObj := o; source := OfBookmark pBkmk |}, rDoc)
              | None =>
                  let '(o, rDoc0) := hotlink_bookmark rDoc pBkmk in
                  Some ({| pObj := o; source := OfBookmark pBkmk |}, rDoc0)
              end
            else None
        | None => None
        end
    | None => None
    end
    = match first_bookmark rDoc rItem cs with
      | Some (i, m) =>
          if IsExpanded m then
            Some (match object_of rDoc (OfBookmark i) with
                  | Some o => ({| pObj := o; source := OfBookmark i |}, rDoc)
                  | None =>
                      let '(o, rDoc0) := hotlink rDoc (OfBookmark i) in
                      ({| pObj := o; source := OfBookmark i |}, rDoc0)
                  end)
          else None
      | None => None
      end).
  { intros cs. destruct (first_bookmark rDoc rItem cs) as [[k m]|] eqn:E;
      cbn [option_map fst]; [| reflexivity].
    cbn [object_of hotlink]. rewrite (first_bookmark_nth _ _ _ _ _ E).
    destruct (IsExpanded m); [| reflexivity]. now destruct (GetRefObject m). }
  rewrite (B true), (B false). clear B.
  repeat match goal with
         | |- context [first_bookmark rDoc rItem ?cs] =>
             destruct (first_bookmark rDoc rItem cs) as [[? ?]|]
         | |- context [IsExpanded ?m] => destruct (IsExpanded m)
         | |- context [first_section rDoc rItem ?cs] =>
             destruct (first_section rDoc rItem cs)
         | |- context [first_table rDoc ?x] => destruct (first_table rDoc x)
         end;
    cbn [first_some option_map object_of hotlink]; try reflexivity;
    repeat match goal with
           | |- context [node_object rDoc ?nd] => destruct (node_object rDoc nd)
           | |- context [nth_error (getAllMarks rDoc) ?k] =>
               destruct (nth_error (getAllMarks rDoc) k)
           | |- context [GetRefObject ?m] => destruct (GetRefObject m)
           end; reflexivity.
Qed.

Lemma first_section_valid rDoc sItem (bCaseSensitive : bool) nd :
  first_section rDoc sItem bCaseSensitive = Some nd -> node_at rDoc nd <> None.
Proof.
  unfold first_section.
  destruct (first_from _ (GetSections rDoc) 0) as [[j f0]|]; [| discriminate].
  destruct (sect_ContentIdx f0) as [c|]; [| discriminate].
  unfold is_kind. destruct (node_at rDoc (idx c)) eqn:E; [| discriminate].
  destruct (match nd_kind s with SectionNd => true | _ => false end);
    [| discriminate].
  intros [= <-]. now rewrite E.
Qed.

Lemma first_table_valid rDoc sLower nd :
  table_nodes_valid rDoc -> first_table rDoc sLower = Some nd ->
  node_at rDoc nd <> None.
Proof.
  intros Hv. unfold first_table.
  destruct (first_from _ (GetTableFrameFormats rDoc) 0) as [[j f0]|] eqn:E;
    [| discriminate].
  apply first_from_nth in E as (_ & Hn & _). apply nth_error_In in Hn.
  destruct (first_box f0) as [b|] eqn:Eb; [| discriminate].
  intros Hnd. exact (Hv f0 b nd Hn Eb Hnd).
Qed.

Lemma link_order_valid rDoc rItem src :
  table_nodes_valid rDoc -> link_order rDoc rItem = Some src -> source_valid rDoc src.
Proof.
  intros Hv. unfold link_order, expanded_bookmark.
  assert (B : forall cs s,
    match first_bookmark rDoc rItem cs with
    | Some (i, m) => if IsExpanded m then Some (OfBookmark i) else None
    | None => None
    end = Some s -> source_valid rDoc s).
  { intros cs s. destruct (first_bookmark rDoc rItem cs) as [[k m]|] eqn:E;
      [| discriminate].
    destruct (IsExpanded m); [| discriminate]. intros [= <-]. cbn [source_valid].
    now rewrite (first_bookmark_nth _ _ _ _ _ E). }
  assert (S : forall cs s,
    option_map OfSection (first_section rDoc rItem cs) = Some s -> source_valid rDoc s).
  { intros cs s. destruct (first_section rDoc rItem cs) as [nd|] eqn:E;
      [| discriminate].
    intros [= <-]. exact (first_section_valid _ _ _ _ E). }
  cbn [first_some].
  destruct (match first_bookmark rDoc rItem true with Some _ => _ | None => _ end)
    eqn:E1; [intros [= <-]; exact (B _ _ E1)|].
  destruct (option_map OfSection (first_section rDoc rItem true))
    eqn:E2; [intros [= <-]; exact (S _ _ E2)|].
  destruct (match first_bookmark rDoc rItem false with Some _ => _ | None => _ end)
    eqn:E3; [intros [= <-]; exact (B _ _ E3)|].
  destruct (option_map OfSection (first_section rDoc rItem false))
    eqn:E4; [intros [= <-]; exact (S _ _ E4)|].
  destruct (first_table rDoc (lowercase rItem)) as [nd|] eqn:E5; [| discriminate].
  intros [= <-]. exact (first_table_valid _ _ _ Hv E5).
Qed.

Lemma object_of_hotlink rDoc src :
  source_valid rDoc src ->
  object_of (snd (hotlink rDoc src)) src = Some (fst (hotlink rDoc src)).
Proof.
  destruct src as [k|nd|nd]; cbn [source_valid hotlink object_of]; intros Hv;
    unfold hotlink_bookmark, hotlink_node, node_object, node_at in *;
    cbn [fst snd InsertServer_in getAllMarks GetNodes];
    rewrite nth_error_update_nth, Nat.eqb_refl.
  - now destruct (nth_error (getAllMarks rDoc) k).
  - now destruct (nth_error (GetNodes rDoc) nd).
  - now destruct (nth_error (GetNodes rDoc) nd).
Qed.

(** Asking CreateLinkSource again for an item it has found gives the same
    server object and changes nothing more: the hotlink of a bookmark, a
    section or a table is made once, and the link manager gets the new
    server object once, behind the ones it has. *)
Theorem CreateLinkSource_again (rDoc rDoc' : SwDoc) (rItem : string) (ls : LinkSource)
    (Hvalid : table_nodes_valid rDoc)
    (Hfirst : CreateLinkSource rDoc rItem = (Some ls, rDoc')) :
  CreateLinkSource rDoc' rItem = (Some ls, rDoc')
  /\ object_of rDoc' (source ls) = Some (pObj ls)
  /\ (rDoc' = rDoc \/ servers rDoc' = servers rDoc ++ [pObj ls]).
Proof.
  rewrite CreateLinkSource_link_source in *. unfold link_source in *.
  destruct (link_order rDoc rItem) as [src|] eqn:El; [| discriminate].
  pose proof (link_order_valid _ _ _ Hvalid El) as Hsrc.
  destruct (object_of rDoc src) as [o|] eqn:Eo.
  - injection Hfirst as <- <-. cbn [source pObj]. rewrite El, Eo. auto.
  - pose proof (object_of_hotlink _ _ Hsrc) as Hobj.
    pose proof (link_order_hotlink rDoc src rItem) as Hsame.
    assert (Hserv : servers (snd (hotlink rDoc src))
                    = servers rDoc ++ [fst (hotlink rDoc src)])
      by now destruct src.
    destruct (hotlink rDoc src) as [o rDoc1]. cbn [fst snd] in *.
    injection Hfirst as <- <-. cbn [source pObj].
    rewrite Hsame, El, Hobj. auto.
Qed.
End Manager.

Local Notation "'Select'" :=
  (SelectServerObj string_lower (fun s => s) "|"%char no_fly no_outline).

Lemma ascii_lower_idem c : ascii_lower (ascii_lower c) = ascii_lower c.
Proof. destruct c as [[] [] [] [] [] [] [] []]; reflexivity. Qed.

Lemma string_lower_idem s : string_lower (string_lower s) = string_lower s.
Proof.
  induction s as [|c rest IH]; simpl; [reflexivity|].
  now rewrite ascii_lower_idem, IH.
Qed.

Example select_section :
  Select overwritten doc_table_section "intro" = found_range 6 7.
Proof. reflexivity. Qed.

(* The same item with a kind, when the released buffer still reads as
   before and when it does not. *)
Example select_table_read_back :
  Select read_back doc_table_section "table1|table" = found_range 1 5.
Proof. reflexivity. Qed.

Example select_table_overwritten :
  Select overwritten doc_table_section "table1|table" = not_found.
Proof. reflexivity. Qed.

Example select_table_as_named :
  Select read_back doc_table_section "Table1|table" = not_found.
Proof. reflexivity. Qed.

(** C4 as stated does not hold, whatever the released buffer reads: the
    plain item "Intro" is answered with false in a document that has a
    section Intro, because a DDE bookmark Intro that is not expanded is
    found first. *)
Lemma SelectServerObj_bookmark_hides_section :
  ~ (exists released, forall rDoc rStr,
       fst (fst (Select released rDoc rStr)) = true
       <-> claimed_match string_lower (fun s => s) "|"%char no_fly no_outline
             rDoc rStr = true).
Proof.
  intros [released H].
  destruct (H doc_mark_on_section "Intro"%string) as [_ H2].
  specialize (H2 eq_refl). discriminate H2.
Qed.

Lemma SelectServerObj_resolves_witness :
  Select overwritten doc_table_section "intro" = found_range 6 7
  /\ Select overwritten doc_table_section "Intro|region" = not_found
  /\ Select read_back doc_table_section "Intro|region" = found_range 6 7.
Proof.
  destruct (SelectServerObj_resolves string_lower (fun s => s) "|"%char
              no_fly no_outline overwritten string_lower_idem doc_table_section
              "intro" EmptyString EmptyString) as [Hp _].
  destruct (SelectServerObj_resolves string_lower (fun s => s) "|"%char
              no_fly no_outline overwritten string_lower_idem doc_table_section
              "Intro|region" "Intro" "region") as [_ Ho].
  destruct (Ho eq_refl eq_refl) as (_ & _ & _ & _ & Ho1).
  destruct (SelectServerObj_resolves string_lower (fun s => s) "|"%char
              no_fly no_outline read_back string_lower_idem doc_table_section
              "Intro|region" "Intro" "region") as [_ Hr].
  destruct (Hr eq_refl eq_refl) as (_ & _ & Hr1 & _).
  split; [| split].
  - rewrite (Hp eq_refl). reflexivity.
  - rewrite Ho1; [reflexivity | discriminate ..].
  - rewrite (Hr1 eq_refl). reflexivity.
Defined.

(** C8 as stated does not hold: for the item "Foo" CreateLinkSource takes
    the bookmark "foo", found ignoring case, although a DDE bookmark named
    exactly "Foo" exists (it is not expanded). *)
Lemma CreateLinkSource_takes_folded_bookmark :
  ~ (forall rDoc rItem i m,
       nth_error (getAllMarks rDoc) i = Some m ->
       isDdeBookmark m = true ->
       mark_Name m = rItem ->
       exists j m',
         option_map source (fst (CreateLinkSource string_lower rDoc rItem))
           = Some (OfBookmark j)
         /\ nth_error (getAllMarks rDoc) j = Some m'
         /\ mark_Name m' = rItem).
Proof.
  intros H.
  destruct (H doc_foo_Foo "Foo"%string 1%nat (dde_mark "Foo" false 2 2)
              eq_refl eq_refl eq_refl) as (j & m' & Hsrc & Hj & Hname).
  vm_compute in Hsrc. injection Hsrc as <-.
  vm_compute in Hj. injection Hj as <-. discriminate Hname.
Qed.

Lemma lookup_case_order_witness :
  SetData string_lower doc_table_section "TABLE1" = Some (OfTable 1)
  /\ SetData string_lower doc_table_section "INTRO" = Some (OfSection 5)
  /\ option_map source (fst (CreateLinkSource string_lower doc_foo_Foo "Foo"))
     = Some (OfBookmark 0).
Proof.
  destruct (lookup_case_order string_lower (fun s => s) "|"%char no_fly no_outline
              nat count_GetData overwritten string_lower_idem doc_table_section
              "TABLE1" "" 0%nat "") as (_ & H1 & _).
  destruct (lookup_case_order string_lower (fun s => s) "|"%char no_fly no_outline
              nat count_GetData overwritten string_lower_idem doc_table_section
              "INTRO" "" 0%nat "") as (_ & H2 & _).
  destruct (lookup_case_order string_lower (fun s => s) "|"%char no_fly no_outline
              nat count_GetData overwritten string_lower_idem doc_foo_Foo
              "Foo" "" 0%nat "") as (_ & _ & H3 & _).
  rewrite H1, H2, H3. repeat split.
Defined.

Lemma GetData_no_match_witness :
  GetData string_lower nat count_GetData doc_table_section "Outro" "text/plain" 7%nat
  = (false, 7%nat).
Proof.
  apply (GetData_no_match string_lower nat count_GetData string_lower_idem
           doc_table_section "Outro" "text/plain" 7%nat).
  - intros m [<- | []] _. discriminate.
  - intros f name [<- | []] [= <-]. discriminate.
  - intros f [<- | []]. discriminate.
Defined.

Example GetData_table :
  GetData string_lower nat count_GetData doc_table_section "TABLE1" "text/plain" 7%nat
  = (true, 8%nat).
Proof. reflexivity. Qed.

Lemma CreateLinkSource_again_witness :
  let r := CreateLinkSource string_lower doc_table_section "TABLE1" in
  fst r = Some {| pObj := 0; source := OfTable 1 |}
  /\ CreateLinkSource string_lower (snd r) "TABLE1" = r
  /\ servers (snd r) = [0%nat].
Proof.
  assert (V : table_nodes_valid doc_table_section).
  { intros f b nd [<- | []] [= <-] [= <-]. discriminate. }
  destruct (CreateLinkSource_again string_lower string_lower_idem
              doc_table_section _ "TABLE1" _ V eq_refl) as (H & _ & _).
  split; [reflexivity|]. split; [exact H | reflexivity].
Defined.


(** *** UpdateLinks *)

(* The values the code compares with: SfxObjectCreateMode::INTERNAL and
   ORGANIZER, the link update modes NEVER, MANUAL and AUTOMATIC, and
   document::UpdateDocMode::NO_UPDATE, QUIET_UPDATE and FULL_UPDATE; every
   other value is the last constructor. *)
Inductive SfxObjectCreateMode := INTERNAL | ORGANIZER | OtherCreateMode.
Inductive LinkUpdateMode := NEVER | MANUAL | AUTOMATIC | OtherLinkMode.
Inductive UpdateDocMode := NO_UPDATE | QUIET_UPDATE | FULL_UPDATE | OtherUpdateDocMode.

(* m_rDoc.GetDocShell(), as far as UpdateLinks reads it; GetMedium is the
   name of the medium, if there is one. *)
Record SwDocShell := {
  GetCreateMode : SfxObjectCreateMode;
  IsPreview : bool;
  GetUpdateDocMode : UpdateDocMode;
  GetMedium : option string }.

(* What UpdateLinks does to the container of embedded objects and to the
   link manager. *)
Inductive LinkUpdate :=
| setUserAllowsLinkUpdate (bAllow : bool)
| UpdateAllLinks (bAskUpdate : bool).

Definition is_NEVER (m : LinkUpdateMode) : bool :=
  match m with NEVER => true | _ => false end.
Definition is_MANUAL (m : LinkUpdateMode) : bool :=
  match m with MANUAL => true | _ => false end.
Definition is_AUTOMATIC (m : LinkUpdateMode) : bool :=
  match m with AUTOMATIC => true | _ => false end.
Definition is_FULL_UPDATE (m : UpdateDocMode) : bool :=
  match m with FULL_UPDATE => true | _ => false end.

Section UpdateLinks.
(* SvtSecurityOptions::isTrustedLocationUriForUpdatingLinks *)
Variable isTrustedLocationUriForUpdatingLinks : string -> bool.

(* void DocumentLinksAdministrationManager::UpdateLinks(), with the document
   shell, whether GetLinkManager().GetLinks() is empty, and the value of
   getLinkUpdateMode(true) *)
Definition UpdateLinks (GetDocShell : option SwDocShell) (links_empty : bool)
    (getLinkUpdateMode : LinkUpdateMode) : list LinkUpdate :=
  match GetDocShell with
  | None => []
  | Some pDocShell =>
      match GetCreateMode pDocShell with
      | INTERNAL => []
      | ORGANIZER => []
      | OtherCreateMode =>
          if IsPreview pDocShell then []
          else if links_empty then []
          else
            let nLinkMode := getLinkUpdateMode in
            let nUpdateDocMode := GetUpdateDocMode pDocShell in
            if is_NEVER nLinkMode && negb (is_FULL_UPDATE nUpdateDocMode) then []
            else
              let bAskUpdate := is_MANUAL nLinkMode in
              let bUpdate := true in
              let '(bUpdate, bAskUpdate) :=
                match nUpdateDocMode with
                | NO_UPDATE => (false, bAskUpdate)
                | QUIET_UPDATE => (bUpdate, false)
                | FULL_UPDATE => (bUpdate, true)
                | OtherUpdateDocMode => (bUpdate, bAskUpdate)
                end in
              let bAskUpdate :=
                if is_AUTOMATIC nLinkMode && negb bAskUpdate then
                  if negb (isTrustedLocationUriForUpdatingLinks
                             match GetMedium pDocShell with
                             | None => ""%string
                             | Some name => name
                             end)
                  then true else bAskUpdate
                else bAskUpdate in
              if bUpdate then
                [setUserAllowsLinkUpdate true; UpdateAllLinks bAskUpdate]
              else [setUserAllowsLinkUpdate false]
      end
  end.

Definition medium_name (pDocShell : SwDocShell) : string :=
  match GetMedium pDocShell with None => ""%string | Some name => name end.

(** UpdateLinks updates the links without asking only when the update mode
    of the document is not NO_UPDATE and not FULL_UPDATE, the link mode is
    not NEVER, a MANUAL link mode comes with QUIET_UPDATE, and an AUTOMATIC
    link mode with a medium at a trusted location; it never updates on
    NO_UPDATE, always asks on FULL_UPDATE, and allows link updates for the
    embedded objects exactly when it updates. *)
Theorem UpdateLinks_policy (GetDocShell : option SwDocShell) (links_empty : bool)
    (nLinkMode : LinkUpdateMode) :
  let did := UpdateLinks GetDocShell links_empty nLinkMode in
  (In (UpdateAllLinks false) did ->
     exists pDocShell, GetDocShell = Some pDocShell
       /\ GetUpdateDocMode pDocShell <> NO_UPDATE
       /\ GetUpdateDocMode pDocShell <> FULL_UPDATE
       /\ nLinkMode <> NEVER
       /\ (nLinkMode = MANUAL -> GetUpdateDocMode pDocShell = QUIET_UPDATE)
       /\ (nLinkMode = AUTOMATIC ->
           isTrustedLocationUriForUpdatingLinks (medium_name pDocShell) = true))
  /\ (forall pDocShell bAskUpdate, GetDocShell = Some pDocShell ->
        In (UpdateAllLinks bAskUpdate) did ->
        GetUpdateDocMode pDocShell <> NO_UPDATE
        /\ (GetUpdateDocMode pDocShell = FULL_UPDATE -> bAskUpdate = true))
  /\ (did = []
      \/ did = [setUserAllowsLinkUpdate false]
      \/ exists bAskUpdate,
           did = [setUserAllowsLinkUpdate true; UpdateAllLinks bAskUpdate])
  /\ (did = [] <->
      match GetDocShell with
      | None => True
      | Some pDocShell =>
          GetCreateMode pDocShell <> OtherCreateMode
          \/ IsPreview pDocShell = true \/ links_empty = true
          \/ (nLinkMode = NEVER /\ GetUpdateDocMode pDocShell <> FULL_UPDATE)
      end).
Proof.
  intros did. subst did. unfold UpdateLinks, medium_name.
  destruct GetDocShell as [[cm pv ud md]|]; cbn [GetCreateMode IsPreview
    GetUpdateDocMode GetMedium].
  2: { cbn. split; [intros []|]. split; [intros ? ? [=]|].
       split; [left; reflexivity|]. split; auto. }
  set (t := isTrustedLocationUriForUpdatingLinks _).
  split; [| split; [| split]].
  - destruct cm, pv, links_empty, nLinkMode, ud; cbn; destruct t eqn:Et; cbn;
      intros Hin; repeat (destruct Hin as [Hin | Hin]; try discriminate Hin);
      try contradiction;
      (eexists; split; [reflexivity|]; cbn; repeat split; try discriminate;
       try reflexivity; try (intros [=]); try exact Et).
  - intros sh ask [= <-]. cbn.
    destruct cm, pv, links_empty, nLinkMode, ud; cbn; destruct t eqn:Et; cbn;
      intros Hin; repeat (destruct Hin as [Hin | Hin]; try discriminate Hin);
      try contradiction; injection Hin as <-;
      (split; [discriminate | (reflexivity || intros [=])]).
  - destruct cm, pv, links_empty, nLinkMode, ud; cbn; destruct t eqn:Et; cbn;
      first [ left; reflexivity | right; left; reflexivity
            | right; right; eexists; reflexivity ].
  - destruct cm, pv, links_empty, nLinkMode, ud; cbn; destruct t eqn:Et; cbn;
      (split;
       [ intros H; try discriminate H;
         first [ left; discriminate | right; left; reflexivity
               | right; right; left; reflexivity
               | right; right; right; split; [reflexivity | discriminate] ]
       | intros [H | [H | [H | [H H']]]]; try reflexivity; try discriminate;
         congruence ]).
Qed.
End UpdateLinks.

Definition trusted_home (uri : string) : bool := String.prefix "file:///home/" uri.

Definition home_shell : SwDocShell :=
  {| GetCreateMode := OtherCreateMode; IsPreview := false;
     GetUpdateDocMode := OtherUpdateDocMode;
     GetMedium := Some "file:///home/doc.odt"%string |}.

Lemma UpdateLinks_policy_witness :
  UpdateLinks trusted_home (Some home_shell) false AUTOMATIC
  = [setUserAllowsLinkUpdate true; UpdateAllLinks false]
  /\ trusted_home (medium_name home_shell) = true.
Proof.
  split; [reflexivity|].
  destruct (UpdateLinks_policy trusted_home (Some home_shell) false AUTOMATIC)
    as (H & _).
  destruct H as (sh & E & _ & _ & _ & _ & Ht); [right; left; reflexivity|].
  injection E as <-. apply Ht. reflexivity.
Defined.

(** *** EmbedAllLinks *)

Inductive SvBaseLinkObjectType := ClientGraphic | ClientFile | OtherObjectType.
Inductive INetProtocol := File | Cid | OtherProtocol.

Record SvBaseLink := {
  GetObjType : SvBaseLinkObjectType;
  isSwBaseLink : bool;     (* dynamic_cast<const SwBaseLink*> succeeds *)
  sFName : string }.       (* the file name LinkManager::GetDisplayNames gives *)

(* The links of the link manager, each with its address. *)
Definition SvBaseLinks := list (nat * SvBaseLink).

Section EmbedAllLinks.
(* INetURLObject( sFName ).GetProtocol(), and what xLink->Closed() and
   rLnkMgr.Remove( xLink.get() ) do to the links of the manager. *)
Variable GetProtocol : string -> INetProtocol.
Variable Closed : nat -> SvBaseLinks -> SvBaseLinks.
Variable Remove : nat -> SvBaseLinks -> SvBaseLinks.

Definition removable (rLnk : SvBaseLink) : bool :=
  match GetObjType rLnk with
  | ClientGraphic | ClientFile =>
      isSwBaseLink rLnk
      && match GetProtocol (sFName rLnk) with
         | File | Cid => true
         | OtherProtocol => false
         end
  | OtherObjectType => false
  end.

(* ::sfx2::SvBaseLink* lcl_FindNextRemovableLink( rLinks ) *)
Fixpoint lcl_FindNextRemovableLink (rLinks : SvBaseLinks) : option nat :=
  match rLinks with
  | [] => None
  | (pLnk, rLnk) :: rest =>
      if removable rLnk then Some pLnk else lcl_FindNextRemovableLink rest
  end.

(* while( nullptr != (pLnk = lcl_FindNextRemovableLink( rLinks )) )
   { xLink->Closed(); rLnkMgr.Remove( xLink.get() ); bRet = true; }
   [None] when the fuel does not reach the end of the loop *)
Fixpoint embed_loop (fuel : nat) (rLinks : SvBaseLinks) (bRet : bool)
    : option (SvBaseLinks * bool) :=
  match fuel with
  | O => None
  | S fuel =>
      match lcl_FindNextRemovableLink rLinks with
      | Some pLnk => embed_loop fuel (Remove pLnk (Closed pLnk rLinks)) true
      | None => Some (rLinks, bRet)
      end
  end.

Record Embedded := {
  bRet : bool;              (* the result *)
  GetLinks : SvBaseLinks;   (* the links of the manager afterwards *)
  DelAllUndoObj : bool;     (* the undo objects were deleted *)
  SetModified : bool }.     (* the document was set modified *)

(* bool DocumentLinksAdministrationManager::EmbedAllLinks() *)
Definition EmbedAllLinks (fuel : nat) (rLinks : SvBaseLinks) : option Embedded :=
  match rLinks with
  | [] => Some {| bRet := false; GetLinks := rLinks;
                  DelAllUndoObj := false; SetModified := false |}
  | _ :: _ =>
      match embed_loop fuel rLinks false with
      | Some (rLinks, bRet) =>
          Some {| bRet := bRet; GetLinks := rLinks;
                  DelAllUndoObj := true; SetModified := true |}
      | None => None
      end
  end.

Definition without (pLnk : nat) (rLinks : SvBaseLinks) : SvBaseLinks :=
  filter (fun it => negb (fst it =? pLnk)%nat) rLinks.

Definition kept (rLinks : SvBaseLinks) : SvBaseLinks :=
  filter (fun it => negb (removable (snd it))) rLinks.

(* A closed and removed link is out of the list, and the other links stay
   as they are. *)
Hypothesis Closed_Remove : forall pLnk rLinks,
  Remove pLnk (Closed pLnk rLinks) = without pLnk rLinks.

Lemma find_removable rLinks pLnk :
  lcl_FindNextRemovableLink rLinks = Some pLnk ->
  exists rLnk, In (pLnk, rLnk) rLinks /\ removable rLnk = true.
Proof.
  induction rLinks as [|[p x] rest IH]; simpl; [discriminate|].
  destruct (removable x) eqn:E.
  - intros [= <-]. exists x. auto.
  - intros H. destruct (IH H) as (y & Hy & Hr). exists y. auto.
Qed.

Lemma find_none rLinks :
  lcl_FindNextRemovableLink rLinks = None <-> kept rLinks = rLinks.
Proof.
  unfold kept. induction rLinks as [|[p x] rest IH]; simpl; [tauto|].
  destruct (removable x) eqn:E; cbn [negb].
  - split; [discriminate|]. intros H.
    assert (L : (length (filter (fun it => negb (removable (snd it))) rest)
                 <= length rest)%nat) by apply filter_length_le.
    rewrite H in L. simpl in L. lia.
  - rewrite IH. split; [now intros -> | now intros [= ->]].
Qed.

Lemma without_shorter pLnk rLnk rLinks :
  In (pLnk, rLnk) rLinks -> (length (without pLnk rLinks) < length rLinks)%nat.
Proof.
  unfold without. induction rLinks as [|[p x] rest IH]; simpl; [contradiction|].
  pose proof (filter_length_le (fun it => negb (fst it =? pLnk)%nat) rest) as L.
  intros [[= -> ->] | H].
  - rewrite Nat.eqb_refl. simpl. lia.
  - specialize (IH H). destruct (p =? pLnk)%nat; simpl; lia.
Qed.

Lemma kept_without pLnk rLnk rLinks :
  NoDup (map fst rLinks) -> In (pLnk, rLnk) rLinks -> removable rLnk = true ->
  kept (without pLnk rLinks) = kept rLinks
  /\ NoDup (map fst (without pLnk rLinks)).
Proof.
  unfold kept, without. induction rLinks as [|[p x] rest IH]; simpl;
    [contradiction|].
  intros Hd Hin Hr. inversion Hd as [|? ? Hp Hrest]; subst.
  destruct Hin as [[= -> ->] | Hin].
  - rewrite Nat.eqb_refl, Hr. cbn [negb].
    assert (E : filter (fun it => negb (fst it =? pLnk)%nat) rest = rest).
    { apply forallb_filter_id. apply forallb_forall. intros [q y] Hq. cbn [fst].
      destruct (Nat.eqb_spec q pLnk) as [->|]; [| reflexivity].
      exfalso. apply Hp. apply (in_map fst) in Hq. exact Hq. }
    rewrite E. split; [reflexivity | assumption].
  - destruct (IH Hrest Hin Hr) as [E1 E2].
    destruct (Nat.eqb_spec p pLnk) as [->|Hne]; cbn [negb].
    + exfalso. apply Hp. apply (in_map fst) in Hin. exact Hin.
    + cbn [filter snd]. rewrite E1. split; [reflexivity|].
      cbn [map fst]. constructor; [| assumption].
      intros Hc. apply Hp. apply in_map_iff in Hc as ([q y] & <- & Hq).
      apply filter_In in Hq as [Hq _]. apply (in_map fst) in Hq. exact Hq.
Qed.

Lemma embed_loop_spec fuel : forall rLinks b,
  NoDup (map fst rLinks) -> (length rLinks < fuel)%nat ->
  embed_loop fuel rLinks b
  = Some (kept rLinks, b || existsb (fun it => removable (snd it)) rLinks).
Proof.
  induction fuel as [|fuel IH]; intros rLinks b Hd Hf; [lia|].
  cbn [embed_loop].
  destruct (lcl_FindNextRemovableLink rLinks) as [pLnk|] eqn:E.
  - destruct (find_removable _ _ E) as (rLnk & Hin & Hr).
    rewrite Closed_Remove.
    destruct (kept_without _ _ _ Hd Hin Hr) as [Ek Hd'].
    pose proof (without_shorter _ _ _ Hin) as Hl.
    rewrite IH by (assumption || lia). rewrite Ek. f_equal. f_equal.
    assert (Hex : existsb (fun it => removable (snd it)) rLinks = true).
    { apply existsb_exists. exists (pLnk, rLnk). auto. }
    rewrite Hex. now rewrite orb_true_r.
  - pose proof (proj1 (find_none _) E) as Ek. rewrite Ek. f_equal. f_equal.
    assert (Hex : existsb (fun it => removable (snd it)) rLinks = false).
    { apply not_true_is_false. intros H. apply existsb_exists in H as ([p x] & Hx & Hr).
      rewrite <- Ek in Hx. apply filter_In in Hx as [_ Hx]. cbn [snd] in *.
      rewrite Hr in Hx. discriminate. }
    rewrite Hex. now rewrite orb_false_r.
Qed.

Lemma kept_kept rLinks : kept (kept rLinks) = kept rLinks.
Proof.
  unfold kept. induction rLinks as [|[p x] rest IH]; simpl; [reflexivity|].
  destruct (removable x) eqn:E; cbn [negb]; [exact IH|].
  cbn [filter snd]. rewrite E. cbn [negb]. now rewrite IH.
Qed.

(** EmbedAllLinks takes out of the link manager every link that is a graphic
    or file link of the document with a file: or cid: URL and leaves the
    other links as they are, in their order, so that no such link remains;
    it returns whether there was one; and it deletes the undo objects and
    sets the document modified whenever the manager had any link, also one
    that stays. *)
Theorem EmbedAllLinks_result (rLinks : SvBaseLinks) (fuel : nat)
    (Hdistinct : NoDup (map fst rLinks)) (Hfuel : (length rLinks < fuel)%nat) :
  exists r, EmbedAllLinks fuel rLinks = Some r
    /\ GetLinks r = kept rLinks
    /\ lcl_FindNextRemovableLink (GetLinks r) = None
    /\ bRet r = existsb (fun it => removable (snd it)) rLinks
    /\ DelAllUndoObj r = match rLinks with [] => false | _ :: _ => true end
    /\ SetModified r = match rLinks with [] => false | _ :: _ => true end.
Proof.
  unfold EmbedAllLinks. destruct rLinks as [|it rest] eqn:El.
  - eexists. split; [reflexivity|]. repeat split.
  - rewrite <- El in *. rewrite embed_loop_spec by assumption.
    eexists. split; [reflexivity|]. cbn [GetLinks bRet DelAllUndoObj SetModified].
    repeat split. apply find_none, kept_kept.
Qed.
End EmbedAllLinks.

Definition file_protocol (url : string) : INetProtocol :=
  if String.prefix "file:" url then File
  else if String.prefix "cid:" url then Cid else OtherProtocol.

Definition graphic_link (url : string) : SvBaseLink :=
  {| GetObjType := ClientGraphic; isSwBaseLink := true; sFName := url |}.

Definition three_links : SvBaseLinks :=
  [ (10%nat, graphic_link "file:///tmp/a.png");
    (11%nat, graphic_link "https://example.org/b.png");
    (12%nat, {| GetObjType := ClientFile; isSwBaseLink := true;
                sFName := "cid:part1" |}) ].

Lemma EmbedAllLinks_result_witness :
  EmbedAllLinks file_protocol (fun _ l => l) without 4 three_links
  = Some {| bRet := true;
            GetLinks := [(11%nat, graphic_link "https://example.org/b.png")];
            DelAllUndoObj := true; SetModified := true |}.
Proof.
  destruct (EmbedAllLinks_result file_protocol (fun _ l => l) without
              (fun _ _ => eq_refl) three_links 4)
    as (r & E & Hl & _ & Hb & Hu & Hm).
  - repeat constructor; simpl; intuition discriminate.
  - simpl. lia.
  - rewrite E. destruct r as [b l u m]. cbn in Hl, Hb, Hu, Hm. now subst.
Defined.
End Links.

(** ** vcl/quartz/salgdi.cxx *)
Module SalGdi.

(** *** GetRawFontData *)

(* A font, as CoreTextFontFace::GetFontTable shows it: the bytes of the
   table with a given tag, none when the font has no such table. *)
Definition CoreTextFontFace := string -> list Z.

Definition wrap_int (v : Z) : Z := (v + 2 ^ 31) mod 2 ^ 32 - 2 ^ 31.
Definition wrap_ByteCount (v : Z) : Z := v mod 2 ^ 64.
Definition to_uchar (v : Z) : Z := v mod 256.

(* rBuffer[k] = v; a store outside the vector is dropped *)
Fixpoint store (buf : list Z) (k : nat) (v : Z) : list Z :=
  match buf, k with
  | [], _ => []
  | _ :: t, O => v :: t
  | h :: t, S k' => h :: store t k' v
  end.

Definition poke (buf : list Z) (i : Z) (v : Z) : list Z :=
  if i <? 0 then buf else store buf (Z.to_nat i) v.

(* memcpy of a table to &rBuffer[nOfs] *)
Fixpoint copy_to (buf : list Z) (nOfs : Z) (data : list Z) : list Z :=
  match data with
  | [] => buf
  | d :: rest => copy_to (poke buf nOfs d) (nOfs + 1) rest
  end.

(* rBuffer.resize( n ): keeps what is there, new bytes are 0 *)
Definition resize (buf : list Z) (n : Z) : list Z :=
  firstn (Z.to_nat n) buf ++ repeat 0 (Z.to_nat n - length buf).

(* int CoreTextFontFace::GetFontTable( tag, pResultBuf ): the size of the
   table, which is copied to pResultBuf when that is not null *)
Definition GetFontTable (pMacFont : CoreTextFontFace) (aTag : string)
    (pResultBuf : option Z) (rBuffer : list Z) : Z * list Z :=
  let nByteLength := Z.of_nat (length (pMacFont aTag)) in
  match pResultBuf with
  | Some nOfs => (nByteLength, copy_to rBuffer nOfs (pMacFont aTag))
  | None => (nByteLength, rBuffer)
  end.

Definition tag_byte (aTag : string) (k : nat) : Z :=
  match String.get k aTag with
  | Some c => Z.of_N (N_of_ascii c)
  | None => 0
  end.

(* static void FakeDirEntry( aTag, nOfs, nLen, pData, rpDest ) *)
Definition FakeDirEntry (aTag : string) (nOfs nLen : Z) (rBuffer : list Z)
    (rpDest : Z) : list Z * Z :=
  let b := rBuffer in
  let b := poke b (rpDest + 0) (tag_byte aTag 0) in
  let b := poke b (rpDest + 1) (tag_byte aTag 1) in
  let b := poke b (rpDest + 2) (tag_byte aTag 2) in
  let b := poke b (rpDest + 3) (tag_byte aTag 3) in
  let b := poke b (rpDest + 8) (to_uchar (Z.shiftr nOfs 24)) in
  let b := poke b (rpDest + 9) (to_uchar (Z.shiftr nOfs 16)) in
  let b := poke b (rpDest + 10) (to_uchar (Z.shiftr nOfs 8)) in
  let b := poke b (rpDest + 11) (to_uchar (Z.shiftr nOfs 0)) in
  let b := poke b (rpDest + 12) (to_uchar (Z.shiftr nLen 24)) in
  let b := poke b (rpDest + 13) (to_uchar (Z.shiftr nLen 16)) in
  let b := poke b (rpDest + 14) (to_uchar (Z.shiftr nLen 8)) in
  let b := poke b (rpDest + 15) (to_uchar (Z.shiftr nLen 0)) in
  (b, rpDest + 16).

(* The part of the state the table blocks of GetRawFontData work on. *)
Record Cursor := { rBuffer : list Z; nOfs : Z; pFakeEntry : Z }.

(* One block
     if( nSize != pMacFont->GetFontTable( tag, &rBuffer[nOfs] ) ) return false;
     FakeDirEntry( tag, nOfs, nSize, rBuffer.data(), pFakeEntry );
     nOfs += nAdvance;
   [None] is the return false. *)
Definition table_block (pMacFont : CoreTextFontFace) (aTag : string)
    (nSize nAdvance : Z) (st : Cursor) : option Cursor :=
  let '(nRead, buf) := GetFontTable pMacFont aTag (Some (nOfs st)) (rBuffer st) in
  if negb (nSize =? nRead) then None
  else
    let '(buf, p) := FakeDirEntry aTag (nOfs st) nSize buf (pFakeEntry st) in
    Some {| rBuffer := buf; nOfs := wrap_ByteCount (nOfs st + nAdvance);
            pFakeEntry := p |}.

Definition table_block_if (cond : bool) (pMacFont : CoreTextFontFace)
    (aTag : string) (nSize nAdvance : Z) (st : Cursor) : option Cursor :=
  if cond then table_block pMacFont aTag nSize nAdvance st else Some st.

Definition bind {A B} (x : option A) (f : A -> option B) : option B :=
  match x with Some a => f a | None => None end.
Notation "x >>= f" := (bind x f) (at level 50, left associativity).

(* while( (nTableCount >> nLog2) > 1 ) ++nLog2;  an int has 32 bits *)
Fixpoint log2_loop (fuel : nat) (nTableCount nLog2 : Z) : Z :=
  match fuel with
  | O => nLog2
  | S fuel =>
      if Z.shiftr nTableCount nLog2 >? 1
      then log2_loop fuel nTableCount (nLog2 + 1) else nLog2
  end.

Definition b2z (b : bool) : Z := if b then 1 else 0.
Definition nonzero (v : Z) : bool := negb (v =? 0).

Record RawFontData := {
  ok : bool;                       (* the return value *)
  buffer : list Z;                 (* rBuffer *)
  JustCFF : option bool;           (* *pJustCFF, when pJustCFF is not null *)
  layout : option (Z * Z) }.       (* nOfs and nTotalSize where SAL_WARN_IF compares them *)

Definition failed (rBuffer : list Z) (j : option bool) : RawFontData :=
  {| ok := false; buffer := rBuffer; JustCFF := j; layout := None |}.

(* bool AquaSalGraphics::GetRawFontData( pFontData, rBuffer, pJustCFF ) *)
Definition GetRawFontData (pMacFont : CoreTextFontFace) (rBuffer0 : list Z)
    (pJustCFF : bool) : RawFontData :=
  let size tag := fst (GetFontTable pMacFont tag None rBuffer0) in
  let nCffSize := size "CFF "%string in
  if pJustCFF && (nCffSize >? 0) then
    let buf := resize rBuffer0 nCffSize in
    let '(nCffRead, buf) := GetFontTable pMacFont "CFF " (Some 0) buf in
    {| ok := nCffRead =? nCffSize; buffer := buf; JustCFF := Some true;
       layout := None |}
  else
  let j := if pJustCFF then Some false else None in
  let nHeadSize := size "head"%string in
  if nHeadSize <=? 0 then failed rBuffer0 j else
  let nMaxpSize := size "maxp"%string in
  if nMaxpSize <=? 0 then failed rBuffer0 j else
  let nCmapSize := size "cmap"%string in
  if nCmapSize <=? 0 then failed rBuffer0 j else
  let nNameSize := size "name"%string in
  if nNameSize <=? 0 then failed rBuffer0 j else
  let nHheaSize := size "hhea"%string in
  if nHheaSize <=? 0 then failed rBuffer0 j else
  let nHmtxSize := size "hmtx"%string in
  if nHmtxSize <=? 0 then failed rBuffer0 j else
  let nLocaSize := if nCffSize <=? 0 then size "loca"%string else 0 in
  if (nCffSize <=? 0) && (nLocaSize <=? 0) then failed rBuffer0 j else
  let nGlyfSize := if nCffSize <=? 0 then size "glyf"%string else 0 in
  if (nCffSize <=? 0) && (nGlyfSize <=? 0) then failed rBuffer0 j else
  let nPrepSize := if nonzero nGlyfSize then size "prep"%string else 0 in
  let nCvtSize := if nonzero nGlyfSize then size "cvt "%string else 0 in
  let nFpgmSize := if nonzero nGlyfSize then size "fpgm"%string else 0 in
  let nTableCount := 7 in
  let nTableCount := wrap_int (nTableCount +
    wrap_int (wrap_int (wrap_int (b2z (nPrepSize >? 0) + b2z (nCvtSize >? 0))
                        + b2z (nFpgmSize >? 0)) + b2z (nGlyfSize >? 0))) in
  let nFdirSize := wrap_ByteCount (wrap_int (12 + wrap_int (16 * nTableCount))) in
  let nTotalSize := nFdirSize in
  let nTotalSize := wrap_ByteCount (nTotalSize +
    wrap_int (wrap_int (wrap_int (nHeadSize + nMaxpSize) + nNameSize) + nCmapSize)) in
  let nTotalSize :=
    if nonzero nGlyfSize
    then wrap_ByteCount (nTotalSize + wrap_int (nLocaSize + nGlyfSize))
    else wrap_ByteCount (nTotalSize + nCffSize) in
  let nTotalSize := wrap_ByteCount (nTotalSize + wrap_int (nHheaSize + nHmtxSize)) in
  let nTotalSize := wrap_ByteCount (nTotalSize +
    wrap_int (wrap_int (nPrepSize + nCvtSize) + nFpgmSize)) in
  let buf := resize rBuffer0 nTotalSize in
  let buf :=
    if nTableCount <? 16 then
      let nLog2 := log2_loop 32 nTableCount 0 in
      let buf := poke buf 1 1 in
      let buf := poke buf 5 (to_uchar nTableCount) in
      let buf := poke buf 7 (to_uchar (wrap_int (nLog2 * 16))) in
      let buf := poke buf 9 (to_uchar nLog2) in
      poke buf 11 (to_uchar (wrap_int (wrap_int (nTableCount - nLog2) * 16)))
    else buf in
  let st := {| rBuffer := buf; nOfs := nFdirSize; pFakeEntry := 12 |} in
  let blocks :=
    table_block pMacFont "cmap" nCmapSize nCmapSize st
    >>= table_block_if (nonzero nCvtSize) pMacFont "cvt " nCvtSize nCvtSize
    >>= table_block_if (nonzero nFpgmSize) pMacFont "fpgm" nFpgmSize nFpgmSize
    >>= (fun st =>
          if nonzero nCffSize then
            table_block pMacFont "CFF " nCffSize nGlyfSize st
          else
            table_block pMacFont "glyf" nGlyfSize nGlyfSize st
            >>= table_block pMacFont "loca" nLocaSize nLocaSize)
    >>= table_block pMacFont "head" nHeadSize nHeadSize
    >>= table_block pMacFont "hhea" nHheaSize nHheaSize
    >>= table_block pMacFont "hmtx" nHmtxSize nHmtxSize
    >>= table_block pMacFont "maxp" nMaxpSize nMaxpSize
    >>= table_block pMacFont "name" nNameSize nNameSize
    >>= table_block_if (nonzero nPrepSize) pMacFont "prep" nPrepSize nPrepSize in
  match blocks with
  | None => failed buf j
  | Some st =>
      {| ok := true; buffer := rBuffer st; JustCFF := j;
         layout := Some (nOfs st, nTotalSize) |}
  end.

(* Reading the directory of a buffer back. *)
Definition be32 (buf : list Z) (p : nat) : Z :=
  nth p buf 0 * 2 ^ 24 + nth (p + 1) buf 0 * 2 ^ 16
  + nth (p + 2) buf 0 * 2 ^ 8 + nth (p + 3) buf 0.

Record DirEntry := { tag : list Z; offset : Z; len : Z }.

Definition dir_entry (buf : list Z) (k : nat) : DirEntry :=
  let p := (12 + 16 * k)%nat in
  {| tag := firstn 4 (skipn p buf);
     offset := be32 buf (p + 8);
     len := be32 buf (p + 12) |}.

Definition directory (buf : list Z) : list DirEntry :=
  map (dir_entry buf) (seq 0 (Z.to_nat (nth 5 buf 0))).

Definition table_bytes (buf : list Z) (e : DirEntry) : list Z :=
  firstn (Z.to_nat (len e)) (skipn (Z.to_nat (offset e)) buf).

Definition tag_of (aTag : string) : list Z := map (tag_byte aTag) (seq 0 4).

Definition size_of (pMacFont : CoreTextFontFace) (aTag : string) : Z :=
  Z.of_nat (length (pMacFont aTag)).

(* the blocks of a list of tables, one after the other *)
Definition run_blocks (pMacFont : CoreTextFontFace) (tags : list string)
    (st : Cursor) : option Cursor :=
  fold_left (fun acc t => acc >>= table_block pMacFont t (size_of pMacFont t)
                                              (size_of pMacFont t))
            tags (Some st).

(* the directory entry at address p of the buffer *)
Definition entry_at (buf : list Z) (p : nat) : DirEntry :=
  {| tag := firstn 4 (skipn p buf);
     offset := be32 buf (p + 8);
     len := be32 buf (p + 12) |}.

(* The tables [tags] lie one after the other from offset [ofs] on, and the
   directory entries from address [p] on describe them in that order. *)
Fixpoint laid_out (pMacFont : CoreTextFontFace) (buf : list Z) (p : nat) (ofs : Z)
    (tags : list string) : Prop :=
  match tags with
  | [] => True
  | t :: rest =>
      entry_at buf p = {| tag := tag_of t; offset := ofs; len := size_of pMacFont t |}
      /\ firstn (length (pMacFont t)) (skipn (Z.to_nat ofs) buf) = pMacFont t
      /\ laid_out pMacFont buf (p + 16) (ofs + size_of pMacFont t) rest
  end.

Definition optional (pMacFont : CoreTextFontFace) (aTag : string) : list string :=
  match pMacFont aTag with [] => [] | _ :: _ => [aTag] end.

(* the tables of a font with glyf outlines, in the order of the blocks *)
Definition glyf_tables (pMacFont : CoreTextFontFace) : list string :=
  ["cmap"%string] ++ optional pMacFont "cvt " ++ optional pMacFont "fpgm"
  ++ ["glyf"; "loca"; "head"; "hhea"; "hmtx"; "maxp"; "name"]%string
  ++ optional pMacFont "prep".

Definition sizes (pMacFont : CoreTextFontFace) (tags : list string) : Z :=
  fold_right (fun t acc => size_of pMacFont t + acc) 0 tags.

(* An OpenType font with CFF outlines. *)
Definition cff_font : CoreTextFontFace := fun t =>
  if String.eqb t "CFF " then [1; 2; 3]
  else if String.eqb t "head" then [10; 11]
  else if String.eqb t "maxp" then [20]
  else if String.eqb t "cmap" then [30; 31]
  else if String.eqb t "name" then [40]
  else if String.eqb t "hhea" then [50]
  else if String.eqb t "hmtx" then [60]
  else [].

Definition ttf_font : CoreTextFontFace := fun t =>
  if String.eqb t "glyf" then [1; 2; 3]
  else if String.eqb t "loca" then [4; 5]
  else if String.eqb t "head" then [10; 11]
  else if String.eqb t "maxp" then [20]
  else if String.eqb t "cmap" then [30; 31]
  else if String.eqb t "name" then [40]
  else if String.eqb t "hhea" then [50]
  else if String.eqb t "hmtx" then [60]
  else if String.eqb t "prep" then [70; 71]
  else [].

Fixpoint expected_directory (pMacFont : CoreTextFontFace) (ofs : Z)
    (tags : list string) : list DirEntry :=
  match tags with
  | [] => []
  | t :: rest =>
      {| tag := tag_of t; offset := ofs; len := size_of pMacFont t |}
      :: expected_directory pMacFont (ofs + size_of pMacFont t) rest
  end.

Definition all_tables : list string :=
  ["head"; "maxp"; "cmap"; "name"; "hhea"; "hmtx"; "loca"; "glyf";
   "prep"; "cvt "; "fpgm"]%string.

Definition required_tables : list string :=
  ["head"; "maxp"; "cmap"; "name"; "hhea"; "hmtx"; "loca"; "glyf"]%string.

(** *** drawTextLayout *)

Record GlyphItem := { glyphId : Z; IsVertical : bool }.

Record CoreTextStyle := {
  mnHeight : Z;                (* GetFontSelectPattern().mnHeight *)
  mfFontRotation_set : bool;   (* mfFontRotation != 0 *)
  mbFauxBold : bool }.

(* What reaches the graphics context. *)
Inductive CGOp :=
| saveState
| restoreState
| ScaleCTM
| SetShouldAntialias
| SetFillColor
| FauxBoldStroke
| SubpixelPositioning
| RotateCTM
| CTFontDrawGlyphs (nStartIndex nLen : nat).  (* &aGlyphIds[nStartIndex], &aGlyphPos[nStartIndex], nLen *)

Definition upright_style : CoreTextStyle :=
  {| mnHeight := 12; mfFontRotation_set := true; mbFauxBold := false |}.

Definition mixed_layout : list (GlyphItem * (Z * Z)) :=
  [ ({| glyphId := 41; IsVertical := true |}, (0, 0));
    ({| glyphId := 42; IsVertical := true |}, (0, 10));
    ({| glyphId := 7; IsVertical := false |}, (0, 20));
    ({| glyphId := 43; IsVertical := true |}, (0, 30)) ].

Definition flip_y (aPos : Z * Z) : Z * Z := (fst aPos, - snd aPos).

Definition plain_style : CoreTextStyle :=
  {| mnHeight := 12; mfFontRotation_set := false; mbFauxBold := true |}.

(* The graphics state of the context, as far as the operations name it: a
   state is the list of the settings made in it; saveState pushes a copy of
   the current state, restoreState takes the last pushed state back, a draw
   call is noted with the state it is made in. *)
Record Context := {
  current : list CGOp;
  saved : list (list CGOp);
  drawn : list (list CGOp * nat * nat) }.

Definition apply_op (c : Context) (op : CGOp) : option Context :=
  match op with
  | saveState =>
      Some {| current := current c; saved := current c :: saved c; drawn := drawn c |}
  | restoreState =>
      match saved c with
      | [] => None
      | s :: rest => Some {| current := s; saved := rest; drawn := drawn c |}
      end
  | CTFontDrawGlyphs nStartIndex nLen =>
      Some {| current := current c; saved := saved c;
              drawn := drawn c ++ [(current c, nStartIndex, nLen)] |}
  | _ =>
      Some {| current := current c ++ [op]; saved := saved c; drawn := drawn c |}
  end.

Fixpoint apply_ops (ops : list CGOp) (c : Context) : option Context :=
  match ops with
  | [] => Some c
  | op :: rest =>
      match apply_op c op with
      | Some c => apply_ops rest c
      | None => None
      end
  end.

(* The settings drawTextLayout makes before the runs. *)
Definition settings (rStyle : CoreTextStyle) (bMode : bool) : list CGOp :=
  [ScaleCTM; SetShouldAntialias; SetFillColor]
  ++ (if mbFauxBold rStyle then [FauxBoldStroke] else [])
  ++ (if bMode then [SubpixelPositioning] else []).

(* the state a run is drawn in, from the state [g] the settings made *)
Definition run_state (rStyle : CoreTextStyle) (o : list bool) (g : list CGOp)
    (run : nat * nat) : list CGOp * nat * nat :=
  (g ++ (if mfFontRotation_set rStyle && negb (nth (fst run) o false)
         then [RotateCTM] else []), fst run, snd run).

Section DrawTextLayout.
(* Positions are floating point: the position GetNextGlyph gives, the
   point CGPointMake( aPos.getX(), -aPos.getY() ) made from it, the shift
   of an upright glyph by ascent - descent, and the rotation of the
   position of a rotated glyph by aRotMatrix. *)
Variable DevicePoint : Type.
Variable CGPoint : Type.
Variable CGPointMake : DevicePoint -> CGPoint.
Variable upright_shift : CGPoint -> CGPoint.
Variable rotate_point : CGPoint -> CGPoint.

Record Collected := {
  aGlyphIds : list Z;
  aGlyphPos : list CGPoint;
  aGlyphOrientation : list bool }.

(* while (rLayout.GetNextGlyph(&pGlyph, aPos, nStart)) { ... push_back ... } *)
Fixpoint collect (rStyle : CoreTextStyle) (rLayout : list (GlyphItem * DevicePoint))
    : Collected :=
  match rLayout with
  | [] => {| aGlyphIds := []; aGlyphPos := []; aGlyphOrientation := [] |}
  | (pGlyph, aPos) :: rest =>
      let aGCPos := CGPointMake aPos in
      let '(bUprightGlyph, aGCPos) :=
        if mfFontRotation_set rStyle then
          if IsVertical pGlyph then (true, upright_shift aGCPos)
          else (false, rotate_point aGCPos)
        else (false, aGCPos) in
      let c := collect rStyle rest in
      {| aGlyphIds := glyphId pGlyph :: aGlyphIds c;
         aGlyphPos := aGCPos :: aGlyphPos c;
         aGlyphOrientation := bUprightGlyph :: aGlyphOrientation c |}
  end.

(* std::find(first, cend, value) on a vector<bool>: an iterator is the part
   of the vector from its position on, cend the empty one. *)
Fixpoint std_find (first : list bool) (value : bool) : list bool :=
  match first with
  | [] => []
  | x :: rest => if Bool.eqb x value then first else std_find rest value
  end.

Lemma std_find_length first value :
  (length (std_find first value) <= length first)%nat.
Proof.
  induction first as [|x rest IH]; simpl; [lia|].
  destruct (Bool.eqb x value); simpl; lia.
Qed.

(* std::distance(a, b) for two iterators into the same vector *)
Definition distance (a b : list bool) : nat := length a - length b.

(* the loop over the runs: aIt runs from cbegin to cend *)
Equations? draw_runs (rStyle : CoreTextStyle) (cbegin : list bool)
    (aIt : list bool) : list CGOp by wf (length aIt) lt :=
  draw_runs rStyle cbegin [] := [];
  draw_runs rStyle cbegin (bUprightGlyph :: rest) :=
    [saveState]
    ++ (if mfFontRotation_set rStyle && negb bUprightGlyph then [RotateCTM] else [])
    ++ [CTFontDrawGlyphs
          (distance cbegin (bUprightGlyph :: rest))
          (distance (bUprightGlyph :: rest)
                    (std_find (bUprightGlyph :: rest) (negb bUprightGlyph)));
        restoreState]
    ++ draw_runs rStyle cbegin
         (std_find (bUprightGlyph :: rest) (negb bUprightGlyph)).
Proof.
  pose proof (std_find_length rest (negb bUprightGlyph)).
  destruct bUprightGlyph; simpl in *; lia.
Qed.

(* void AquaGraphicsBackend::drawTextLayout( rLayout,
       bTextRenderModeForResolutionIndependentLayout ): the operations on
   the context, as the function is compiled without IOS (the macOS build;
   the guard under #ifdef IOS at its head is not part of that build) *)
Definition drawTextLayout (rStyle : CoreTextStyle)
    (rLayout : list (GlyphItem * DevicePoint))
    (bTextRenderModeForResolutionIndependentLayout : bool) : list CGOp :=
  if mnHeight rStyle =? 0 then []
  else
    let c := collect rStyle rLayout in
    match aGlyphIds c with
    | [] => []
    | _ :: _ =>
        [saveState; ScaleCTM; SetShouldAntialias; SetFillColor]
        ++ (if mbFauxBold rStyle then [FauxBoldStroke] else [])
        ++ (if bTextRenderModeForResolutionIndependentLayout
            then [SubpixelPositioning] else [])
        ++ draw_runs rStyle (aGlyphOrientation c) (aGlyphOrientation c)
        ++ [restoreState]
    end.

(* The function as compiled with IOS: it begins with
       if (!mrShared.checkContext()) return;
   and goes on as above. [checkContext] is what mrShared.checkContext()
   returns. *)
Definition drawTextLayout_IOS (checkContext : bool) (rStyle : CoreTextStyle)
    (rLayout : list (GlyphItem * DevicePoint))
    (bTextRenderModeForResolutionIndependentLayout : bool) : list CGOp :=
  if negb checkContext then []
  else drawTextLayout rStyle rLayout bTextRenderModeForResolutionIndependentLayout.

(* The draw calls among the operations, as (nStartIndex, nLen). *)
Fixpoint draw_calls (ops : list CGOp) : list (nat * nat) :=
  match ops with
  | [] => []
  | CTFontDrawGlyphs s n :: rest => (s, n) :: draw_calls rest
  | _ :: rest => draw_calls rest
  end.

(* Runs that follow one another from index [from] up to index [to], none empty. *)
Fixpoint contiguous (from : nat) (runs : list (nat * nat)) (to : nat) : Prop :=
  match runs with
  | [] => from = to
  | (s, n) :: rest => s = from /\ (0 < n)%nat /\ contiguous (s + n) rest to
  end.

(* Every glyph of the run has the orientation of its first glyph, and the
   glyph after the run, when there is one, has the other orientation. *)
Definition uniform_maximal (o : list bool) (run : nat * nat) : Prop :=
  let '(s, n) := run in
  exists b, (forall i, (s <= i < s + n)%nat -> nth_error o i = Some b)
            /\ ((s + n < length o)%nat -> nth_error o (s + n) = Some (negb b)).

Definition slice {A} (l : list A) (run : nat * nat) : list A :=
  firstn (snd run) (skipn (fst run) l).

Lemma draw_calls_app a b : draw_calls (a ++ b) = draw_calls a ++ draw_calls b.
Proof.
  induction a as [|op a IH]; simpl; [reflexivity|].
  destruct op; simpl; now rewrite ?IH.
Qed.

(* std::find stops at the first element equal to value. *)
Lemma std_find_split first value :
  exists run, first = run ++ std_find first value
    /\ Forall (fun x => x = negb value) run
    /\ (forall x t, std_find first value = x :: t -> x = value).
Proof.
  induction first as [|x rest (run & E & Hrun & Hhd)]; simpl.
  - exists []. repeat split; [constructor | discriminate].
  - destruct (Bool.eqb x value) eqn:Ex.
    + exists []. repeat split; [constructor|].
      intros y t [= <- _]. now apply Bool.eqb_prop.
    + exists (x :: run). repeat split.
      * simpl. now f_equal.
      * constructor; [| assumption].
        destruct x, value; simpl in *; congruence.
      * assumption.
Qed.

Lemma collect_lengths rStyle rLayout :
  length (aGlyphIds (collect rStyle rLayout)) = length rLayout
  /\ length (aGlyphPos (collect rStyle rLayout)) = length rLayout
  /\ length (aGlyphOrientation (collect rStyle rLayout)) = length rLayout.
Proof.
  induction rLayout as [|[g p] rest (H1 & H2 & H3)]; simpl; [auto|].
  destruct (mfFontRotation_set rStyle); [destruct (IsVertical g)|]; simpl; auto.
Qed.

Lemma draw_runs_spec rStyle o aIt : forall pre,
  o = pre ++ aIt ->
  contiguous (length pre) (draw_calls (draw_runs rStyle o aIt)) (length o)
  /\ Forall (uniform_maximal o) (draw_calls (draw_runs rStyle o aIt)).
Proof.
  funelim (draw_runs rStyle o aIt); intros pre E.
  - simp draw_runs. simpl. split; [| constructor].
    subst. rewrite length_app. simpl. lia.
  - simp draw_runs.
    destruct (std_find_split (bUprightGlyph :: rest) (negb bUprightGlyph))
      as (run & Erun & Hrun & Hhd).
    set (aNext := std_find (bUprightGlyph :: rest) (negb bUprightGlyph)) in *.
    rewrite Bool.negb_involutive in Hrun.
    assert (Hlen : length (bUprightGlyph :: rest) = (length run + length aNext)%nat)
      by (rewrite Erun at 1; apply length_app).
    assert (Hpos : (0 < length run)%nat).
    { pose proof (std_find_length rest (negb bUprightGlyph)) as Hl.
      assert (aNext = std_find rest (negb bUprightGlyph))
        by (subst aNext; destruct bUprightGlyph; reflexivity).
      simpl in Hlen. rewrite H0 in Hlen. lia. }
    assert (Eo : cbegin = (pre ++ run) ++ aNext)
      by (rewrite <- app_assoc, <- Erun; exact E).
    match goal with
    | IH : forall _, _ -> _ /\ _ |- _ => destruct (IH (pre ++ run) Eo) as [Hc Hu]
    end.
    rewrite !draw_calls_app. cbn [draw_calls app].
    replace (draw_calls (if mfFontRotation_set rStyle && negb bUprightGlyph
                         then [RotateCTM] else [])) with (@nil (nat * nat))
      by (destruct (_ && _); reflexivity).
    cbn [app].
    assert (Hs : distance cbegin (bUprightGlyph :: rest) = length pre).
    { unfold distance. rewrite E, length_app. lia. }
    assert (Hn : distance (bUprightGlyph :: rest) aNext = length run).
    { unfold distance. lia. }
    rewrite Hs, Hn. rewrite length_app in Hc.
    split.
    + cbn [contiguous]. auto.
    + constructor; [| assumption].
      exists bUprightGlyph. split.
      * intros i Hi. rewrite Eo, <- app_assoc.
        rewrite nth_error_app2 by lia.
        rewrite nth_error_app1 by lia.
        destruct (nth_error run (i - length pre)) eqn:En.
        -- apply nth_error_In in En.
           rewrite Forall_forall in Hrun. now rewrite (Hrun _ En).
        -- apply nth_error_None in En. lia.
      * intros Hlt. rewrite Eo at 1.
        rewrite nth_error_app2 by (rewrite length_app; lia).
        rewrite length_app, Nat.sub_diag.
        rewrite Eo, !length_app in Hlt.
        destruct aNext as [|x t]; [simpl in Hlt; lia|].
        simpl. now rewrite (Hhd x t eq_refl).
Qed.

Lemma firstn_plus {A} (n m : nat) : forall l : list A,
  firstn (n + m) l = firstn n l ++ firstn m (skipn n l).
Proof.
  induction n as [|n IH]; intros [|x l]; simpl; try reflexivity.
  - now rewrite firstn_nil.
  - now rewrite IH.
Qed.

Lemma contiguous_slices {A} (l : list A) runs : forall from to,
  contiguous from runs to -> (to <= length l)%nat ->
  flat_map (slice l) runs = firstn (to - from) (skipn from l).
Proof.
  induction runs as [|[s n] runs IH]; intros from to Hc Hto.
  - simpl in *. subst. now rewrite Nat.sub_diag.
  - destruct Hc as (-> & Hn & Hc). cbn [flat_map].
    rewrite (IH _ _ Hc Hto). unfold slice; cbn [fst snd].
    assert (Hle : (from + n <= to)%nat).
    { clear - Hc. revert Hc. generalize (from + n)%nat.
      induction runs as [|[s' n'] runs IH']; simpl; intros k H; [lia|].
      destruct H as (-> & _ & H). apply IH' in H. lia. }
    replace (to - from)%nat with (n + (to - (from + n)))%nat by lia.
    rewrite firstn_plus. f_equal.
    rewrite skipn_skipn. f_equal. f_equal. lia.
Qed.

(** C5: the draw calls of drawTextLayout cut the collected glyphs into runs
    that follow one another from the first glyph to the last, none empty
    (so they are disjoint and cover every glyph); all glyphs of a run have
    the same uprightness flag and the glyph after a run has the other one
    (the runs are maximal); and each run is one CTFontDrawGlyphs call, so
    the calls draw every collected glyph and position once, in order. *)
Theorem drawTextLayout_runs (rStyle : CoreTextStyle)
    (rLayout : list (GlyphItem * DevicePoint)) (bMode : bool)
    (Hheight : mnHeight rStyle <> 0) :
  let c := collect rStyle rLayout in
  let runs := draw_calls (drawTextLayout rStyle rLayout bMode) in
  contiguous 0 runs (length (aGlyphOrientation c))
  /\ Forall (uniform_maximal (aGlyphOrientation c)) runs
  /\ flat_map (slice (aGlyphIds c)) runs = aGlyphIds c
  /\ flat_map (slice (aGlyphPos c)) runs = aGlyphPos c.
Proof.
  intros c runs.
  destruct (collect_lengths rStyle rLayout) as (Hi & Hp & Ho). fold c in Hi, Hp, Ho.
  assert (Hruns : runs = draw_calls
            (draw_runs rStyle (aGlyphOrientation c) (aGlyphOrientation c))).
  { subst runs. unfold drawTextLayout. fold c.
    destruct (Z.eqb_spec (mnHeight rStyle) 0) as [|_]; [contradiction|].
    destruct (aGlyphIds c) eqn:Eids.
    - simpl in Hi. destruct (aGlyphOrientation c); [|simpl in Ho; congruence].
      now simp draw_runs.
    - rewrite !draw_calls_app. cbn [draw_calls app].
      destruct (mbFauxBold rStyle), bMode; cbn [draw_calls app];
        now rewrite app_nil_r. }
  destruct (draw_runs_spec rStyle (aGlyphOrientation c) (aGlyphOrientation c) []
              eq_refl) as [Hc Hu].
  rewrite <- Hruns in Hc, Hu. cbn [length] in Hc.
  repeat split; try assumption.
  - rewrite (contiguous_slices _ _ _ _ Hc) by lia.
    rewrite Nat.sub_0_r, skipn_O. apply firstn_all2. lia.
  - rewrite (contiguous_slices _ _ _ _ Hc) by lia.
    rewrite Nat.sub_0_r, skipn_O. apply firstn_all2. lia.
Qed.

Lemma apply_ops_app a : forall b c,
  apply_ops (a ++ b) c
  = match apply_ops a c with Some c => apply_ops b c | None => None end.
Proof.
  induction a as [|op a IH]; intros b c; simpl; [reflexivity|].
  destruct (apply_op c op); [apply IH | reflexivity].
Qed.

Lemma draw_runs_context rStyle o aIt : forall pre c,
  o = pre ++ aIt ->
  apply_ops (draw_runs rStyle o aIt) c
  = Some {| current := current c; saved := saved c;
            drawn := drawn c
                     ++ map (run_state rStyle o (current c))
                            (draw_calls (draw_runs rStyle o aIt)) |}.
Proof.
  funelim (draw_runs rStyle o aIt); intros pre c E.
  - simp draw_runs. cbn. rewrite app_nil_r. now destruct c.
  - simp draw_runs.
    destruct (std_find_split (bUprightGlyph :: rest) (negb bUprightGlyph))
      as (run & Erun & _ & _).
    set (aNext := std_find (bUprightGlyph :: rest) (negb bUprightGlyph)) in *.
    assert (Eo : cbegin = (pre ++ run) ++ aNext)
      by (rewrite <- app_assoc, <- Erun; exact E).
    assert (Hs : distance cbegin (bUprightGlyph :: rest) = length pre).
    { unfold distance. rewrite E, length_app. lia. }
    assert (Hb : nth (length pre) cbegin false = bUprightGlyph).
    { rewrite E, app_nth2, Nat.sub_diag by lia. reflexivity. }
    rewrite !draw_calls_app. cbn [draw_calls app].
    replace (draw_calls (if mfFontRotation_set rStyle && negb bUprightGlyph
                         then [RotateCTM] else [])) with (@nil (nat * nat))
      by (destruct (_ && _); reflexivity).
    cbn [app map]. rewrite Hs.
    unfold run_state at 1. cbn [fst snd]. rewrite Hb.
    match goal with
    | IH : forall _ _, _ -> _ = _ |- _ => rename IH into IHruns
    end.
    destruct (mfFontRotation_set rStyle && negb bUprightGlyph); cbn [app apply_ops apply_op current saved drawn].
    + rewrite (IHruns (pre ++ run) _ Eo). cbn [current saved drawn].
      rewrite <- app_assoc. reflexivity.
    + rewrite (IHruns (pre ++ run) _ Eo). cbn [current saved drawn].
      rewrite <- app_assoc, app_nil_r. reflexivity.
Qed.

(** drawTextLayout leaves the graphics state of the context as it found it:
    every saveState has its restoreState, none is restored that was not
    saved, and what is set for the layout or for a run does not reach the
    caller nor the next run. Each run is drawn in the state of the caller
    with the settings of the layout and, if the font is rotated and the run
    is not upright, the rotation; an upright run is drawn without it. *)
Theorem drawTextLayout_restores_state (rStyle : CoreTextStyle)
    (rLayout : list (GlyphItem * DevicePoint)) (bMode : bool) (c : Context) :
  let o := aGlyphOrientation (collect rStyle rLayout) in
  let ops := drawTextLayout rStyle rLayout bMode in
  apply_ops ops c
  = Some {| current := current c; saved := saved c;
            drawn := drawn c
                     ++ map (run_state rStyle o (current c ++ settings rStyle bMode))
                            (draw_calls ops) |}.
Proof.
  intros o ops. subst o ops. unfold drawTextLayout.
  destruct (mnHeight rStyle =? 0).
  { cbn. rewrite app_nil_r. now destruct c. }
  destruct (aGlyphIds (collect rStyle rLayout)).
  { cbn. rewrite app_nil_r. now destruct c. }
  set (o := aGlyphOrientation (collect rStyle rLayout)).
  replace ([saveState; ScaleCTM; SetShouldAntialias; SetFillColor]
           ++ (if mbFauxBold rStyle then [FauxBoldStroke] else [])
           ++ (if bMode then [SubpixelPositioning] else [])
           ++ draw_runs rStyle o o ++ [restoreState])
    with ([saveState] ++ settings rStyle bMode
          ++ draw_runs rStyle o o ++ [restoreState])
    by (unfold settings; cbn [app]; now rewrite <- !app_assoc).
  assert (Hset : forall c0, apply_ops (settings rStyle bMode) c0
            = Some {| current := current c0 ++ settings rStyle bMode;
                      saved := saved c0; drawn := drawn c0 |}).
  { intros c0. unfold settings.
    destruct (mbFauxBold rStyle), bMode; cbn; now rewrite <- !app_assoc. }
  assert (Hcalls : draw_calls ([saveState] ++ settings rStyle bMode
                               ++ draw_runs rStyle o o ++ [restoreState])
                   = draw_calls (draw_runs rStyle o o)).
  { rewrite !draw_calls_app. unfold settings.
    destruct (mbFauxBold rStyle), bMode; cbn; now rewrite app_nil_r. }
  rewrite Hcalls.
  cbn [app apply_ops apply_op]. rewrite apply_ops_app, Hset.
  cbn [current saved drawn]. rewrite apply_ops_app.
  rewrite (draw_runs_context rStyle o o [] _ eq_refl).
  cbn [current saved drawn apply_ops apply_op]. reflexivity.
Qed.

(** Compiled without IOS, drawTextLayout does nothing at all, not even a
    saveState, exactly when the font height is 0 or the layout has no
    glyph; compiled with IOS, exactly when checkContext() is false, the
    font height is 0 or the layout has no glyph. *)
Theorem drawTextLayout_nothing (rStyle : CoreTextStyle)
    (rLayout : list (GlyphItem * DevicePoint)) (bMode : bool) :
  (drawTextLayout rStyle rLayout bMode = [] <-> mnHeight rStyle = 0 \/ rLayout = [])
  /\ (forall checkContext : bool,
        drawTextLayout_IOS checkContext rStyle rLayout bMode = []
        <-> checkContext = false \/ mnHeight rStyle = 0 \/ rLayout = []).
Proof.
  assert (H : drawTextLayout rStyle rLayout bMode = []
              <-> mnHeight rStyle = 0 \/ rLayout = []).
  { unfold drawTextLayout. destruct (Z.eqb_spec (mnHeight rStyle) 0) as [E|E].
    - tauto.
    - destruct rLayout as [|[g p] rest].
      + cbn. tauto.
      + cbn [collect].
        destruct (if mfFontRotation_set rStyle
                  then if IsVertical g then (true, upright_shift (CGPointMake p))
                       else (false, rotate_point (CGPointMake p))
                  else (false, CGPointMake p)) as [b q].
        cbn [aGlyphIds]. split; [discriminate|].
        intros [H | H]; [contradiction | discriminate]. }
  split; [exact H|].
  intros [|]; unfold drawTextLayout_IOS; cbn [negb].
  - rewrite H. split; [tauto|]. intros [E | E]; [discriminate | exact E].
  - split; [now left | reflexivity].
Qed.

Lemma collect_unrotated rStyle rLayout :
  mfFontRotation_set rStyle = false ->
  collect rStyle rLayout
  = {| aGlyphIds := map (fun g => glyphId (fst g)) rLayout;
       aGlyphPos := map (fun g => CGPointMake (snd g)) rLayout;
       aGlyphOrientation := repeat false (length rLayout) |}.
Proof.
  intros H. induction rLayout as [|[g p] rest IH]; cbn [collect]; [reflexivity|].
  rewrite H, IH. reflexivity.
Qed.

Lemma std_find_absent (n : nat) : std_find (repeat false n) true = [].
Proof. induction n as [|n IH]; simpl; [reflexivity | exact IH]. Qed.

(** When the font height is not 0, the font has no rotation and the layout
    is not empty, the whole layout is one run: every glyph is drawn at the
    point made from its position, none is taken as upright, and there is
    one CTFontDrawGlyphs call for all of them, without a rotation of the
    context. Compiled with IOS the function does the same when
    checkContext() is true, and nothing when it is false. *)
Theorem drawTextLayout_unrotated (rStyle : CoreTextStyle)
    (rLayout : list (GlyphItem * DevicePoint)) (bMode : bool)
    (Hheight : mnHeight rStyle <> 0)
    (Hrotation : mfFontRotation_set rStyle = false)
    (Hglyphs : rLayout <> []) :
  drawTextLayout rStyle rLayout bMode
  = [saveState] ++ settings rStyle bMode
    ++ [saveState; CTFontDrawGlyphs 0 (length rLayout); restoreState; restoreState]
  /\ aGlyphIds (collect rStyle rLayout) = map (fun g => glyphId (fst g)) rLayout
  /\ aGlyphPos (collect rStyle rLayout) = map (fun g => CGPointMake (snd g)) rLayout
  /\ drawTextLayout_IOS true rStyle rLayout bMode
     = drawTextLayout rStyle rLayout bMode
  /\ drawTextLayout_IOS false rStyle rLayout bMode = [].
Proof.
  rewrite (collect_unrotated _ _ Hrotation). cbn [aGlyphIds aGlyphPos].
  split; [| repeat split].
  unfold drawTextLayout. rewrite (collect_unrotated _ _ Hrotation).
  cbn [aGlyphIds aGlyphOrientation].
  destruct (Z.eqb_spec (mnHeight rStyle) 0) as [E|_]; [contradiction|].
  destruct rLayout as [|g rest]; [contradiction|].
  cbn [map length repeat]. simp draw_runs.
  change (std_find (false :: repeat false (length rest)) (negb false))
    with (std_find (repeat false (length rest)) true).
  rewrite std_find_absent. simp draw_runs.
  rewrite Hrotation. unfold distance, settings. cbn [andb app length].
  rewrite Nat.sub_diag, repeat_length, Nat.sub_0_r.
  now rewrite <- !app_assoc.
Qed.
End DrawTextLayout.

Arguments collect {DevicePoint CGPoint}.
Arguments aGlyphIds {CGPoint}.
Arguments aGlyphPos {CGPoint}.
Arguments aGlyphOrientation {CGPoint}.
Arguments drawTextLayout {DevicePoint CGPoint}.
Arguments drawTextLayout_IOS {DevicePoint CGPoint}.

Example mixed_layout_calls :
  draw_calls (drawTextLayout flip_y (fun p => p) (fun p => p) upright_style mixed_layout false)
  = [(0, 2); (2, 1); (3, 1)]%nat.
Proof. reflexivity. Qed.

Lemma drawTextLayout_runs_witness :
  let c := collect flip_y (fun p => p) (fun p => p) upright_style mixed_layout in
  let runs := draw_calls
    (drawTextLayout flip_y (fun p => p) (fun p => p) upright_style mixed_layout false) in
  contiguous 0 runs (length (aGlyphOrientation c))
  /\ Forall (uniform_maximal (aGlyphOrientation c)) runs
  /\ flat_map (slice (aGlyphIds c)) runs = aGlyphIds c
  /\ flat_map (slice (aGlyphPos c)) runs = aGlyphPos c.
Proof.
  apply (drawTextLayout_runs (Z * Z) (Z * Z) flip_y (fun p => p) (fun p => p)
           upright_style mixed_layout false).
  discriminate.
Defined.

Lemma drawTextLayout_unrotated_witness :
  drawTextLayout_IOS flip_y (fun p => p) (fun p => p) false plain_style mixed_layout
    false = []
  /\ drawTextLayout_IOS flip_y (fun p => p) (fun p => p) true plain_style mixed_layout
       false
     = [saveState; ScaleCTM; SetShouldAntialias; SetFillColor; FauxBoldStroke;
        saveState; CTFontDrawGlyphs 0 4; restoreState; restoreState]
  /\ aGlyphPos (collect flip_y (fun p => p) (fun p => p) plain_style mixed_layout)
     = [(0, 0); (0, -10); (0, -20); (0, -30)].
Proof.
  destruct (drawTextLayout_unrotated (Z * Z) (Z * Z) flip_y (fun p => p) (fun p => p)
              plain_style mixed_layout false) as (H1 & _ & H3 & H4 & H5);
    [discriminate | reflexivity | discriminate |].
  rewrite H5, H4, H1, H3. repeat split.
Defined.

Example mixed_layout_states :
  option_map drawn
    (apply_ops (drawTextLayout flip_y (fun p => p) (fun p => p) upright_style
                  mixed_layout false)
       {| current := []; saved := []; drawn := [] |})
  = Some [ ([ScaleCTM; SetShouldAntialias; SetFillColor], 0, 2);
           ([ScaleCTM; SetShouldAntialias; SetFillColor; RotateCTM], 2, 1);
           ([ScaleCTM; SetShouldAntialias; SetFillColor], 3, 1) ]%nat.
Proof. reflexivity. Qed.

(** *** The layout of the faked font *)

(** Stores and copies into the buffer. *)
Lemma buffer_store_length buf : forall k v, length (store buf k v) = length buf.
Proof. induction buf as [|h t IH]; intros [|k] v; simpl; auto. Qed.

Lemma buffer_poke_length buf i v : length (poke buf i v) = length buf.
Proof. unfold poke. destruct (i <? 0); auto using buffer_store_length. Qed.

Lemma nth_store buf : forall k j v,
  nth j (store buf k v) 0 = if (j =? k)%nat && (k <? length buf)%nat then v
                            else nth j buf 0.
Proof.
  induction buf as [|h t IH]; intros [|k] [|j] v; simpl; auto.
  now rewrite andb_false_r.
Qed.

Lemma nth_poke buf i j v :
  nth j (poke buf i v) 0
  = if (0 <=? i) && (Z.of_nat j =? i) && (i <? Z.of_nat (length buf)) then v
    else nth j buf 0.
Proof.
  unfold poke. destruct (Z.ltb_spec i 0).
  - destruct (Z.leb_spec 0 i); [lia | reflexivity].
  - rewrite nth_store. destruct (Z.leb_spec 0 i); [| lia]. simpl.
    destruct (Nat.eqb_spec j (Z.to_nat i)), (Z.eqb_spec (Z.of_nat j) i);
      try lia; simpl; [| reflexivity].
    destruct (Nat.ltb_spec (Z.to_nat i) (length buf)),
             (Z.ltb_spec i (Z.of_nat (length buf))); try lia; reflexivity.
Qed.

Lemma copy_to_length data : forall buf nOfs,
  length (copy_to buf nOfs data) = length buf.
Proof.
  induction data as [|d rest IH]; intros buf nOfs; simpl; [reflexivity|].
  now rewrite IH, buffer_poke_length.
Qed.

Lemma nth_copy_to data : forall buf nOfs j,
  0 <= nOfs -> nOfs + Z.of_nat (length data) <= Z.of_nat (length buf) ->
  nth j (copy_to buf nOfs data) 0
  = if (nOfs <=? Z.of_nat j) && (Z.of_nat j <? nOfs + Z.of_nat (length data))
    then nth (j - Z.to_nat nOfs) data 0 else nth j buf 0.
Proof.
  induction data as [|d rest IH]; intros buf nOfs j H0 Hle.
  - simpl. rewrite Z.add_0_r.
    destruct (Z.leb_spec nOfs (Z.of_nat j)), (Z.ltb_spec (Z.of_nat j) nOfs);
      try lia; reflexivity.
  - cbn [copy_to]. cbn [length] in Hle.
    rewrite IH by (rewrite ?buffer_poke_length; lia).
    rewrite nth_poke. cbn [length].
    destruct (Z.leb_spec (nOfs + 1) (Z.of_nat j)),
             (Z.ltb_spec (Z.of_nat j) (nOfs + 1 + Z.of_nat (length rest)));
      destruct (Z.leb_spec nOfs (Z.of_nat j)),
               (Z.ltb_spec (Z.of_nat j) (nOfs + Z.of_nat (S (length rest))));
      destruct (Z.leb_spec 0 nOfs), (Z.eqb_spec (Z.of_nat j) nOfs),
               (Z.ltb_spec nOfs (Z.of_nat (length buf)));
      cbn [andb]; try lia; try reflexivity.
    + replace (j - Z.to_nat nOfs)%nat with (S (j - Z.to_nat (nOfs + 1))) by lia.
      reflexivity.
    + replace (j - Z.to_nat nOfs)%nat with 0%nat by lia. reflexivity.
Qed.

Lemma firstn_skipn_nth (buf data : list Z) (o : nat) :
  (o + length data <= length buf)%nat ->
  (forall k, (k < length data)%nat -> nth (o + k) buf 0 = nth k data 0) ->
  firstn (length data) (skipn o buf) = data.
Proof.
  intros Hle H. apply (nth_ext _ _ 0 0).
  - rewrite length_firstn, length_skipn. lia.
  - intros k Hk. rewrite length_firstn, length_skipn in Hk.
    rewrite nth_firstn. destruct (Nat.ltb_spec k (length data)); [| lia].
    rewrite nth_skipn. apply H. lia.
Qed.

Lemma firstn_skipn_ext (a b : list Z) (o n : nat) :
  length a = length b ->
  (forall k, (o <= k < o + n)%nat -> nth k a 0 = nth k b 0) ->
  firstn n (skipn o a) = firstn n (skipn o b).
Proof.
  intros Hl H. apply (nth_ext _ _ 0 0).
  - rewrite !length_firstn, !length_skipn. lia.
  - intros k Hk. rewrite length_firstn, length_skipn in Hk.
    rewrite !nth_firstn. destruct (Nat.ltb_spec k n); [| reflexivity].
    rewrite !nth_skipn. apply H. lia.
Qed.

Lemma entry_at_ext (a b : list Z) (p : nat) :
  length a = length b ->
  (forall k, (p <= k < p + 16)%nat -> nth k a 0 = nth k b 0) ->
  entry_at a p = entry_at b p.
Proof.
  intros Hl H. unfold entry_at, be32. f_equal.
  - apply firstn_skipn_ext; [assumption|]. intros k Hk. apply H. lia.
  - rewrite !H by lia. reflexivity.
  - rewrite !H by lia. reflexivity.
Qed.

Lemma be32_bytes (v : Z) :
  0 <= v < 2 ^ 32 ->
  to_uchar (Z.shiftr v 24) * 2 ^ 24 + to_uchar (Z.shiftr v 16) * 2 ^ 16
  + to_uchar (Z.shiftr v 8) * 2 ^ 8 + to_uchar (Z.shiftr v 0) = v.
Proof.
  intros Hv. unfold to_uchar. rewrite !Z.shiftr_div_pow2 by lia.
  change (2 ^ 32) with 4294967296 in Hv.
  change (2 ^ 24) with 16777216. change (2 ^ 16) with 65536.
  change (2 ^ 8) with 256. change (2 ^ 0) with 1.
  Z.div_mod_to_equations. lia.
Qed.

Lemma nth_poke_same buf i j v :
  Z.of_nat j = i -> i < Z.of_nat (length buf) -> nth j (poke buf i v) 0 = v.
Proof.
  intros E H. rewrite nth_poke.
  destruct (Z.leb_spec 0 i), (Z.eqb_spec (Z.of_nat j) i),
           (Z.ltb_spec i (Z.of_nat (length buf))); try lia; reflexivity.
Qed.

Lemma nth_poke_diff buf i j v :
  Z.of_nat j <> i -> nth j (poke buf i v) 0 = nth j buf 0.
Proof.
  intros E. rewrite nth_poke.
  destruct (Z.eqb_spec (Z.of_nat j) i); [contradiction|].
  now rewrite andb_false_r.
Qed.

Ltac poked :=
  repeat first [ rewrite nth_poke_diff by lia
               | rewrite nth_poke_same by (rewrite ?buffer_poke_length; lia) ].

Lemma FakeDirEntry_spec aTag nOfs nLen buf (p : nat) :
  Z.of_nat p + 16 <= Z.of_nat (length buf) ->
  0 <= nOfs < 2 ^ 32 -> 0 <= nLen < 2 ^ 32 ->
  snd (FakeDirEntry aTag nOfs nLen buf (Z.of_nat p)) = Z.of_nat (p + 16)
  /\ length (fst (FakeDirEntry aTag nOfs nLen buf (Z.of_nat p))) = length buf
  /\ (forall k, (k < p \/ p + 16 <= k)%nat ->
        nth k (fst (FakeDirEntry aTag nOfs nLen buf (Z.of_nat p))) 0 = nth k buf 0)
  /\ entry_at (fst (FakeDirEntry aTag nOfs nLen buf (Z.of_nat p))) p
     = {| tag := tag_of aTag; offset := nOfs; len := nLen |}.
Proof.
  intros Hp Hofs Hlen. unfold FakeDirEntry. cbv zeta. cbn [fst snd].
  split; [lia|]. split; [now rewrite !buffer_poke_length|]. split.
  - intros k Hk. poked. reflexivity.
  - unfold entry_at, be32. f_equal.
    + unfold tag_of. cbn [map seq].
      apply (firstn_skipn_nth _ [_; _; _; _]).
      * rewrite !buffer_poke_length. cbn [length]. lia.
      * intros [|[|[|[|k]]]] Hk; cbn [length] in Hk; try lia; cbn [nth];
          poked; reflexivity.
    + poked. apply be32_bytes. assumption.
    + poked. apply be32_bytes. assumption.
Qed.

Lemma table_block_spec pMacFont t st (p : nat) :
  pFakeEntry st = Z.of_nat p ->
  Z.of_nat p + 16 <= nOfs st ->
  nOfs st + size_of pMacFont t <= Z.of_nat (length (rBuffer st)) ->
  Z.of_nat (length (rBuffer st)) < 2 ^ 32 ->
  exists st',
    table_block pMacFont t (size_of pMacFont t) (size_of pMacFont t) st = Some st'
    /\ nOfs st' = nOfs st + size_of pMacFont t
    /\ pFakeEntry st' = Z.of_nat (p + 16)
    /\ length (rBuffer st') = length (rBuffer st)
    /\ (forall k, (k < p)%nat \/ ((p + 16 <= k)%nat /\ Z.of_nat k < nOfs st)
                  \/ nOfs st + size_of pMacFont t <= Z.of_nat k ->
          nth k (rBuffer st') 0 = nth k (rBuffer st) 0)
    /\ entry_at (rBuffer st') p
       = {| tag := tag_of t; offset := nOfs st; len := size_of pMacFont t |}
    /\ firstn (length (pMacFont t)) (skipn (Z.to_nat (nOfs st)) (rBuffer st'))
       = pMacFont t.
Proof.
  intros Hp Hdir Hroom Hsmall. unfold size_of in *.
  unfold table_block, GetFontTable. rewrite Z.eqb_refl. cbn [negb].
  set (buf1 := copy_to (rBuffer st) (nOfs st) (pMacFont t)).
  assert (Hl1 : length buf1 = length (rBuffer st)) by apply copy_to_length.
  rewrite Hp.
  destruct (FakeDirEntry_spec t (nOfs st) (Z.of_nat (length (pMacFont t))) buf1 p)
    as (Hp' & Hl & Hout & Hentry); [lia | lia | lia |].
  destruct (FakeDirEntry t (nOfs st) (Z.of_nat (length (pMacFont t))) buf1
              (Z.of_nat p)) as [buf2 p2].
  cbn [fst snd] in *. eexists. split; [reflexivity|]. cbn [nOfs pFakeEntry rBuffer].
  assert (Hcopy : forall j,
    nth j buf1 0
    = if (nOfs st <=? Z.of_nat j)
         && (Z.of_nat j <? nOfs st + Z.of_nat (length (pMacFont t)))
      then nth (j - Z.to_nat (nOfs st)) (pMacFont t) 0
      else nth j (rBuffer st) 0).
  { intros j. apply nth_copy_to; lia. }
  repeat split.
  - unfold wrap_ByteCount. apply Z.mod_small.
    change (2 ^ 32) with 4294967296 in Hsmall.
    change (2 ^ 64) with 18446744073709551616. lia.
  - exact Hp'.
  - congruence.
  - intros k Hk. rewrite Hout by lia. rewrite Hcopy.
    destruct (Z.leb_spec (nOfs st) (Z.of_nat k)),
             (Z.ltb_spec (Z.of_nat k) (nOfs st + Z.of_nat (length (pMacFont t))));
      cbn [andb]; try reflexivity; lia.
  - exact Hentry.
  - apply firstn_skipn_nth; [lia|].
    intros k Hk. rewrite Hout by lia. rewrite Hcopy.
    destruct (Z.leb_spec (nOfs st) (Z.of_nat (Z.to_nat (nOfs st) + k))),
             (Z.ltb_spec (Z.of_nat (Z.to_nat (nOfs st) + k))
                         (nOfs st + Z.of_nat (length (pMacFont t))));
      cbn [andb]; try lia.
    f_equal. lia.
Qed.

Lemma run_blocks_failed pMacFont tags :
  fold_left (fun acc t => acc >>= table_block pMacFont t (size_of pMacFont t)
                                              (size_of pMacFont t)) tags None
  = None.
Proof. induction tags as [|t rest IH]; simpl; auto. Qed.

Lemma run_blocks_cons pMacFont t rest st :
  run_blocks pMacFont (t :: rest) st
  = table_block pMacFont t (size_of pMacFont t) (size_of pMacFont t) st
    >>= run_blocks pMacFont rest.
Proof.
  unfold run_blocks. cbn [fold_left bind].
  destruct (table_block pMacFont t _ _ st); cbn [bind]; [reflexivity|].
  apply run_blocks_failed.
Qed.

Lemma size_of_nonneg pMacFont t : 0 <= size_of pMacFont t.
Proof. unfold size_of. lia. Qed.

Lemma sizes_nonneg pMacFont tags : 0 <= sizes pMacFont tags.
Proof.
  induction tags as [|t rest IH]; simpl; [lia|].
  pose proof (size_of_nonneg pMacFont t). lia.
Qed.

(** The blocks of [tags] write their tables one after the other from nOfs
    on and their directory entries from pFakeEntry on, and touch nothing
    else, as long as the directory ends before [lo] and the tables start
    at or after it. *)
Lemma run_blocks_spec pMacFont lo tags : forall st (p : nat),
  pFakeEntry st = Z.of_nat p ->
  Z.of_nat p + 16 * Z.of_nat (length tags) <= lo ->
  lo <= nOfs st ->
  nOfs st + sizes pMacFont tags <= Z.of_nat (length (rBuffer st)) ->
  Z.of_nat (length (rBuffer st)) < 2 ^ 32 ->
  exists st',
    run_blocks pMacFont tags st = Some st'
    /\ nOfs st' = nOfs st + sizes pMacFont tags
    /\ length (rBuffer st') = length (rBuffer st)
    /\ (forall k, (k < p)%nat \/ (lo <= Z.of_nat k < nOfs st)
                  \/ nOfs st + sizes pMacFont tags <= Z.of_nat k ->
          nth k (rBuffer st') 0 = nth k (rBuffer st) 0)
    /\ laid_out pMacFont (rBuffer st') p (nOfs st) tags.
Proof.
  induction tags as [|t rest IH]; intros st p Hp Hdir Hlo Hroom Hsmall.
  - exists st. cbn [sizes fold_right laid_out]. rewrite Z.add_0_r. repeat split.
  - cbn [length sizes fold_right] in *. fold (sizes pMacFont rest) in *.
    pose proof (size_of_nonneg pMacFont t) as Ht.
    pose proof (sizes_nonneg pMacFont rest) as Hr.
    destruct (table_block_spec pMacFont t st p Hp) as
      (st1 & E1 & Hofs1 & Hp1 & Hl1 & Hout1 & Hentry1 & Hdata1); [lia .. |].
    destruct (IH st1 (p + 16)%nat Hp1) as (st' & E' & Hofs' & Hl' & Hout' & Hlaid');
      [lia | lia | rewrite Hl1; lia | rewrite Hl1; lia |].
    exists st'. rewrite run_blocks_cons, E1. cbn [bind].
    split; [exact E'|]. split; [lia|]. split; [congruence|]. split; [| split; [| split]].
    + intros k Hk. rewrite Hout' by lia. apply Hout1. lia.
    + rewrite <- Hentry1. apply entry_at_ext; [congruence|].
      intros k Hk. apply Hout'. lia.
    + rewrite <- Hdata1 at 2. apply firstn_skipn_ext; [congruence|].
      intros k Hk. apply Hout'. unfold size_of in *. lia.
    + rewrite <- Hofs1. exact Hlaid'.
Qed.

Lemma bind_assoc {A B C} (x : option A) (f : A -> option B) (g : B -> option C) :
  x >>= (fun a => f a >>= g) = x >>= f >>= g.
Proof. now destruct x. Qed.

Lemma bind_skip pMacFont (x : option Cursor) t a b :
  x >>= table_block_if false pMacFont t a b = x.
Proof. now destruct x. Qed.

Lemma bind_taken pMacFont (x : option Cursor) t a b :
  x >>= table_block_if true pMacFont t a b = x >>= table_block pMacFont t a b.
Proof. now destruct x. Qed.

Lemma laid_out_directory pMacFont buf tags : forall k ofs,
  laid_out pMacFont buf (12 + 16 * k) ofs tags ->
  map (dir_entry buf) (seq k (length tags)) = expected_directory pMacFont ofs tags
  /\ Forall2 (fun e t => table_bytes buf e = pMacFont t)
             (expected_directory pMacFont ofs tags) tags.
Proof.
  induction tags as [|t rest IH]; intros k ofs H; simpl.
  - split; constructor.
  - destruct H as (He & Hd & Hrest).
    replace (12 + 16 * k + 16)%nat with (12 + 16 * S k)%nat in Hrest by lia.
    destruct (IH _ _ Hrest) as [IH1 IH2]. split.
    + f_equal; [exact He | exact IH1].
    + constructor; [| exact IH2].
      unfold table_bytes, size_of. cbn [len offset]. now rewrite Nat2Z.id.
Qed.

Lemma wrap_int_small v : - 2 ^ 31 <= v < 2 ^ 31 -> wrap_int v = v.
Proof.
  intros H. unfold wrap_int.
  change (2 ^ 31) with 2147483648 in *. change (2 ^ 32) with 4294967296.
  Z.div_mod_to_equations. lia.
Qed.

Lemma wrap_ByteCount_small v : 0 <= v < 2 ^ 31 -> wrap_ByteCount v = v.
Proof.
  intros H. unfold wrap_ByteCount. apply Z.mod_small.
  change (2 ^ 31) with 2147483648 in *.
  change (2 ^ 64) with 18446744073709551616. lia.
Qed.

Lemma resize_length buf n : 0 <= n -> length (resize buf n) = Z.to_nat n.
Proof.
  intros H. unfold resize. rewrite length_app, length_firstn, repeat_length. lia.
Qed.

Lemma optional_count pMacFont t :
  b2z (size_of pMacFont t >? 0) = Z.of_nat (length (optional pMacFont t))
  /\ nonzero (size_of pMacFont t)
     = match pMacFont t with [] => false | _ :: _ => true end
  /\ sizes pMacFont (optional pMacFont t) = size_of pMacFont t.
Proof.
  unfold optional, size_of, nonzero. destruct (pMacFont t) as [|x l] eqn:E.
  - repeat split.
  - cbn [sizes fold_right]. unfold size_of. rewrite E.
    destruct (Z.gtb_spec (Z.of_nat (length (x :: l))) 0); [| simpl in *; lia].
    destruct (Z.eqb_spec (Z.of_nat (length (x :: l))) 0); [simpl in *; lia|].
    repeat split; lia.
Qed.

Lemma sizes_app pMacFont a b :
  sizes pMacFont (a ++ b) = sizes pMacFont a + sizes pMacFont b.
Proof.
  induction a as [|t a IH]; simpl; [reflexivity|]. unfold sizes in *. lia.
Qed.

Ltac unwrap :=
  repeat match goal with
         | |- context [wrap_int ?x] => rewrite (wrap_int_small x) by lia
         | |- context [wrap_ByteCount ?x] => rewrite (wrap_ByteCount_small x) by lia
         end.

(** For a font with glyf outlines (no "CFF " table) that has the required
    tables, GetRawFontData succeeds; the buffer is the 12 byte header, one
    16 byte entry per table and the tables one after the other up to its
    end; every entry records the offset and the length of its table, whose
    bytes are there; and nOfs ends at nTotalSize. *)
Theorem GetRawFontData_glyf_layout (pMacFont : CoreTextFontFace)
    (rBuffer0 : list Z) (pJustCFF : bool)
    (Hcff : pMacFont "CFF "%string = [])
    (Hreq : forall t, In t required_tables -> pMacFont t <> [])
    (Hsmall : 12 + 16 * 11 + sizes pMacFont all_tables < 2 ^ 31) :
  let r := GetRawFontData pMacFont rBuffer0 pJustCFF in
  let tags := glyf_tables pMacFont in
  let nFdirSize := 12 + 16 * Z.of_nat (length tags) in
  let nTotalSize := nFdirSize + sizes pMacFont tags in
  ok r = true
  /\ layout r = Some (nTotalSize, nTotalSize)
  /\ Z.of_nat (length (buffer r)) = nTotalSize
  /\ directory (buffer r) = expected_directory pMacFont nFdirSize tags
  /\ Forall2 (fun e t => table_bytes (buffer r) e = pMacFont t)
             (directory (buffer r)) tags.
Proof.
  intros r tags nFdirSize nTotalSize.
  assert (Hpos : forall t, In t required_tables -> 0 < size_of pMacFont t).
  { intros t Ht. specialize (Hreq t Ht). unfold size_of.
    destruct (pMacFont t); [contradiction | simpl; lia]. }
  pose proof (Hpos "head"%string ltac:(simpl; tauto)) as Hhead.
  pose proof (Hpos "maxp"%string ltac:(simpl; tauto)) as Hmaxp.
  pose proof (Hpos "cmap"%string ltac:(simpl; tauto)) as Hcmap.
  pose proof (Hpos "name"%string ltac:(simpl; tauto)) as Hname.
  pose proof (Hpos "hhea"%string ltac:(simpl; tauto)) as Hhhea.
  pose proof (Hpos "hmtx"%string ltac:(simpl; tauto)) as Hhmtx.
  pose proof (Hpos "loca"%string ltac:(simpl; tauto)) as Hloca.
  pose proof (Hpos "glyf"%string ltac:(simpl; tauto)) as Hglyf.
  pose proof (size_of_nonneg pMacFont "prep") as Hprep.
  pose proof (size_of_nonneg pMacFont "cvt ") as Hcvt.
  pose proof (size_of_nonneg pMacFont "fpgm") as Hfpgm.
  cbn [all_tables sizes fold_right] in Hsmall.
  change (2 ^ 31) with 2147483648 in Hsmall.
  assert (Ecff : size_of pMacFont "CFF " = 0) by (unfold size_of; now rewrite Hcff).
  assert (Eg : nonzero (size_of pMacFont "glyf") = true)
    by (unfold nonzero; destruct (Z.eqb_spec (size_of pMacFont "glyf") 0);
        [lia | reflexivity]).
  assert (Cg : b2z (size_of pMacFont "glyf" >? 0) = 1)
    by (destruct (Z.gtb_spec (size_of pMacFont "glyf") 0); [reflexivity | lia]).
  assert (Hopt : forall t,
    (pMacFont t = [] /\ size_of pMacFont t = 0 /\ optional pMacFont t = [])
    \/ (0 < size_of pMacFont t /\ optional pMacFont t = [t])).
  { intros t. unfold size_of, optional. destruct (pMacFont t); [left | right];
      repeat split; simpl; lia. }
  subst r tags nFdirSize nTotalSize. unfold GetRawFontData, glyf_tables. cbv zeta.
  repeat match goal with
         | |- context [fst (GetFontTable pMacFont ?t None rBuffer0)] =>
             change (fst (GetFontTable pMacFont t None rBuffer0))
               with (size_of pMacFont t)
         end.
  rewrite Ecff. change (0 >? 0) with false. rewrite andb_false_r.
  change (0 <=? 0) with true. change (nonzero 0) with false. cbn [andb].
  repeat match goal with
         | |- context [size_of pMacFont ?t <=? 0] =>
             destruct (Z.leb_spec (size_of pMacFont t) 0); [lia|]
         end.
  rewrite Eg, Cg.
  assert (Hb : forall b, 0 <= b2z b <= 1) by (intros []; simpl; lia).
  pose proof (Hb (size_of pMacFont "prep" >? 0)) as Bprep.
  pose proof (Hb (size_of pMacFont "cvt " >? 0)) as Bcvt.
  pose proof (Hb (size_of pMacFont "fpgm" >? 0)) as Bfpgm.
  unwrap. clear Hb Bprep Bcvt Bfpgm.
  destruct (Hopt "prep"%string) as [(_ & Zprep & Oprep) | (Pprep & Oprep)];
  destruct (Hopt "cvt "%string) as [(_ & Zcvt & Ocvt) | (Pcvt & Ocvt)];
  destruct (Hopt "fpgm"%string) as [(_ & Zfpgm & Ofpgm) | (Pfpgm & Ofpgm)];
  rewrite Oprep, Ocvt, Ofpgm;
  rewrite ?Zprep, ?Zcvt, ?Zfpgm;
  repeat match goal with
         | H : 0 < size_of pMacFont ?t |- context [b2z (size_of pMacFont ?t >? 0)] =>
             replace (b2z (size_of pMacFont t >? 0)) with 1
               by (destruct (Z.gtb_spec (size_of pMacFont t) 0); [reflexivity | lia])
         | H : 0 < size_of pMacFont ?t |- context [nonzero (size_of pMacFont ?t)] =>
             replace (nonzero (size_of pMacFont t)) with true
               by (unfold nonzero; destruct (Z.eqb_spec (size_of pMacFont t) 0);
                   [lia | reflexivity])
         end;
  change (0 >? 0) with false; change (nonzero 0) with false; cbn [b2z];
  cbn [table_block_if app length sizes fold_right].
  all: match goal with
       | |- context [if ?c <? 16 then _ else _] => change (c <? 16) with true
       end; cbv iota.
  all: rewrite ?bind_skip, ?bind_taken.
  all: rewrite (bind_assoc _ (table_block pMacFont "glyf" _ _)
                             (table_block pMacFont "loca" _ _)).
  all: match goal with
       | |- context [log2_loop 32 ?n 0] =>
           let v := eval vm_compute in (log2_loop 32 n 0) in
           change (log2_loop 32 n 0) with v
       end.
  all: unwrap.
  all: match goal with
       | |- context [expected_directory _ _ ?tags] =>
           match goal with
           | |- context [match ?chain with Some _ => _ | None => _ end] =>
               match chain with
               | context [{| rBuffer := ?b; nOfs := ?o; pFakeEntry := 12 |}] =>
                   change chain with
                     (run_blocks pMacFont tags
                        {| rBuffer := b; nOfs := o; pFakeEntry := 12 |});
                   set (buf1 := b); set (tbl := tags) in *
               end
           end
       end.
  all: match goal with
       | |- context [run_blocks _ ?tb
                       {| rBuffer := ?b; nOfs := ?o; pFakeEntry := 12 |}] =>
           assert (Hlen1 : Z.of_nat (length b) = o + sizes pMacFont tb)
             by (subst b tb; rewrite !buffer_poke_length, resize_length by lia;
                 cbn [sizes fold_right]; lia);
           assert (Hcount : nth 5 b 0 = Z.of_nat (length tb))
             by (subst b tb; rewrite !nth_poke_diff by lia;
                 rewrite nth_poke_same
                   by (rewrite ?buffer_poke_length, ?resize_length by lia; lia);
                 reflexivity);
           destruct (run_blocks_spec pMacFont o tb
                       {| rBuffer := b; nOfs := o; pFakeEntry := 12 |} 12 eq_refl)
             as (st' & Erun & Hofs' & Hlen' & Hout' & Hlaid');
           [ subst tb; cbn [length]; lia
           | cbn [nOfs]; lia
           | cbn [nOfs rBuffer]; lia
           | cbn [rBuffer]; rewrite Hlen1; subst tb;
             cbn [sizes fold_right]; change (2 ^ 32) with 4294967296; lia
           | ]
       end.
  all: rewrite Erun; cbn [ok layout buffer nOfs rBuffer] in *.
  all: destruct (laid_out_directory pMacFont (rBuffer st') tbl 0 _ Hlaid')
         as [Hdir Hbytes].
  all: assert (Hd : directory (rBuffer st')
                    = expected_directory pMacFont (12 + 16 * Z.of_nat (length tbl)) tbl)
         by (unfold directory; rewrite (Hout' 5%nat) by lia;
             rewrite Hcount, Nat2Z.id; subst tbl; exact Hdir).
  all: rewrite Hd.
  all: split; [reflexivity|].
  all: split; [subst tbl; cbn [sizes fold_right length] in *; f_equal; f_equal; lia|].
  all: split; [subst tbl; cbn [sizes fold_right length] in *; lia|].
  all: split; [reflexivity|].
  all: subst tbl; exact Hbytes.
Qed.

Lemma GetRawFontData_glyf_layout_witness :
  let r := GetRawFontData ttf_font [] false in
  ok r = true
  /\ layout r = Some (171, 171)
  /\ Z.of_nat (length (buffer r)) = 171
  /\ directory (buffer r) = expected_directory ttf_font 156 (glyf_tables ttf_font)
  /\ Forall2 (fun e t => table_bytes (buffer r) e = ttf_font t)
             (directory (buffer r)) (glyf_tables ttf_font).
Proof.
  apply (GetRawFontData_glyf_layout ttf_font [] false).
  - reflexivity.
  - intros t Ht. simpl in Ht.
    repeat (destruct Ht as [<- | Ht]; [discriminate|]). contradiction.
  - reflexivity.
Defined.

(** C3 fails on a font with CFF outlines when pJustCFF is null: after the
    "CFF " block nOfs is advanced by nGlyfSize, which is 0 there, so the
    "head" table is written over the CFF bytes, both directory entries
    record the same offset, and nOfs ends below nTotalSize. *)
Theorem GetRawFontData_cff_overlap :
  let r := GetRawFontData cff_font [] false in
  ok r = true
  /\ layout r = Some (132, 135)
  /\ length (buffer r) = 135%nat
  /\ nth_error (directory (buffer r)) 1
     = Some {| tag := tag_of "CFF "; offset := 126; len := 3 |}
  /\ nth_error (directory (buffer r)) 2
     = Some {| tag := tag_of "head"; offset := 126; len := 2 |}
  /\ table_bytes (buffer r) {| tag := tag_of "CFF "; offset := 126; len := 3 |}
     = [10; 11; 50]
  /\ cff_font "CFF "%string = [1; 2; 3].
Proof. vm_compute. repeat split. Qed.

Example GetRawFontData_ttf :
  let r := GetRawFontData ttf_font [] false in
  ok r = true /\ layout r = Some (171, 171)
  /\ map (fun e => (offset e, len e)) (directory (buffer r))
     = [(156, 2); (158, 3); (161, 2); (163, 2); (165, 1); (166, 1); (167, 1);
        (168, 1); (169, 2)]
  /\ map (table_bytes (buffer r)) (directory (buffer r))
     = map ttf_font ["cmap"; "glyf"; "loca"; "head"; "hhea"; "hmtx"; "maxp";
                     "name"; "prep"]%string.
Proof. vm_compute. repeat split. Qed.

(** *** GetRawFontData: refusal and the CFF shortcut *)

(* The tables GetRawFontData asks for before it touches rBuffer. *)
Definition present (pMacFont : CoreTextFontFace) (aTag : string) : bool :=
  match pMacFont aTag with [] => false | _ :: _ => true end.

Definition fakeable (pMacFont : CoreTextFontFace) : bool :=
  present pMacFont "head" && present pMacFont "maxp" && present pMacFont "cmap"
  && present pMacFont "name" && present pMacFont "hhea" && present pMacFont "hmtx"
  && (present pMacFont "CFF "
      || (present pMacFont "loca" && present pMacFont "glyf")).

Lemma size_absent pMacFont rBuffer0 : forall t,
  (fst (GetFontTable pMacFont t None rBuffer0) <=? 0) = negb (present pMacFont t).
Proof.
  intros t. unfold GetFontTable, present. cbn [fst].
  now destruct (pMacFont t).
Qed.

Lemma size_present pMacFont rBuffer0 : forall t,
  (fst (GetFontTable pMacFont t None rBuffer0) >? 0) = present pMacFont t.
Proof.
  intros t. unfold GetFontTable, present. cbn [fst].
  now destruct (pMacFont t).
Qed.

Lemma nonzero_present pMacFont rBuffer0 : forall t,
  nonzero (fst (GetFontTable pMacFont t None rBuffer0)) = present pMacFont t.
Proof.
  intros t. unfold GetFontTable, present, nonzero. cbn [fst].
  now destruct (pMacFont t).
Qed.

(* A step of the chain of blocks that does not fail. *)
Definition reads (f : Cursor -> option Cursor) : Prop := forall st, f st <> None.

Lemma reads_block pMacFont t rBuffer0 nAdvance :
  reads (table_block pMacFont t (fst (GetFontTable pMacFont t None rBuffer0)) nAdvance).
Proof.
  intros st. unfold table_block, GetFontTable. cbn [fst]. rewrite Z.eqb_refl.
  cbn [negb]. now destruct (FakeDirEntry _ _ _ _ _).
Qed.

Lemma reads_block_if (cond : bool) pMacFont t rBuffer0 nAdvance :
  reads (table_block_if cond pMacFont t
           (fst (GetFontTable pMacFont t None rBuffer0)) nAdvance).
Proof.
  intros st. unfold table_block_if. destruct cond; [| discriminate].
  apply reads_block.
Qed.

Lemma reads_skip pMacFont t nSize nAdvance :
  reads (table_block_if false pMacFont t nSize nAdvance).
Proof. intros st. discriminate. Qed.

Lemma bind_reads (x : option Cursor) f : x <> None -> reads f -> x >>= f <> None.
Proof. destruct x as [st|]; [| congruence]. intros _ H. apply H. Qed.

(** GetRawFontData, when it does not take the CFF shortcut, succeeds
    exactly when the font has the tables head, maxp, cmap, name, hhea and
    hmtx and either a "CFF " table or both loca and glyf; when one of them
    is missing it returns false and rBuffer is what it was. *)
Theorem GetRawFontData_refuses (pMacFont : CoreTextFontFace) (rBuffer0 : list Z)
    (pJustCFF : bool)
    (Hlong : pJustCFF = false \/ pMacFont "CFF "%string = []) :
  let r := GetRawFontData pMacFont rBuffer0 pJustCFF in
  ok r = fakeable pMacFont
  /\ (fakeable pMacFont = false -> buffer r = rBuffer0 /\ layout r = None)
  /\ JustCFF r = (if pJustCFF then Some false else None).
Proof.
  intros r. subst r. unfold GetRawFontData, fakeable. cbv zeta.
  assert (Hshort : pJustCFF && (fst (GetFontTable pMacFont "CFF " None rBuffer0) >? 0)
                   = false).
  { rewrite size_present. destruct Hlong as [-> | E]; [reflexivity|].
    unfold present. rewrite E. apply andb_false_r. }
  rewrite Hshort.
  rewrite !size_absent.
  destruct (present pMacFont "head"); cbn [negb andb]; [| repeat split].
  destruct (present pMacFont "maxp"); cbn [negb andb]; [| repeat split].
  destruct (present pMacFont "cmap"); cbn [negb andb]; [| repeat split].
  destruct (present pMacFont "name"); cbn [negb andb]; [| repeat split].
  destruct (present pMacFont "hhea"); cbn [negb andb]; [| repeat split].
  destruct (present pMacFont "hmtx"); cbn [negb andb]; [| repeat split].
  destruct (present pMacFont "CFF ") eqn:Ecff; cbn [negb andb orb];
    rewrite ?size_absent.
  2: destruct (present pMacFont "loca") eqn:Eloca; cbn [negb andb]; [| repeat split].
  2: destruct (present pMacFont "glyf") eqn:Eglyf; cbn [negb andb]; [| repeat split].
  all: change (nonzero 0) with false; cbv iota;
       rewrite ?nonzero_present; rewrite ?Ecff, ?Eglyf; cbv iota.
  all: match goal with
       | |- context [match ?chain with Some _ => _ | None => _ end] =>
           assert (Hc : chain <> None);
           [ repeat first [ apply bind_reads | apply reads_block | apply reads_block_if
                          | apply reads_skip
                          | intros ?st; apply bind_reads ]
           | destruct chain; [| congruence] ]
       end.
  all: cbn [ok JustCFF]; (split; [reflexivity|]); (split; [discriminate | reflexivity]).
Qed.

Definition only_cmap : CoreTextFontFace := fun t =>
  if String.eqb t "cmap" then [30; 31] else [].

Lemma GetRawFontData_refuses_witness :
  let r := GetRawFontData only_cmap [9; 9] true in
  ok r = false /\ buffer r = [9; 9] /\ JustCFF r = Some false.
Proof.
  destruct (GetRawFontData_refuses only_cmap [9; 9] true (or_intror eq_refl))
    as (H1 & H2 & H3).
  cbv zeta. rewrite H1, H3. destruct (H2 eq_refl) as [H _]. rewrite H.
  repeat split.
Defined.

Lemma copy_to_all data : forall buf,
  length buf = length data -> copy_to buf 0 data = data.
Proof.
  intros buf Hl. apply (nth_ext _ _ 0 0).
  - now rewrite copy_to_length.
  - intros k Hk. rewrite copy_to_length in Hk.
    rewrite nth_copy_to by lia.
    destruct (Z.leb_spec 0 (Z.of_nat k)), (Z.ltb_spec (Z.of_nat k) (0 + Z.of_nat (length data)));
      cbn [andb]; try lia.
    now rewrite Nat.sub_0_r.
Qed.

(** With pJustCFF given, a font that has a "CFF " table gives just that
    table: rBuffer is resized to it and holds its bytes, whatever it held
    before, *pJustCFF is true and no font directory is faked; a font
    without one is faked as without pJustCFF, and *pJustCFF is false. *)
Theorem GetRawFontData_JustCFF (pMacFont : CoreTextFontFace) (rBuffer0 : list Z) :
  (pMacFont "CFF "%string <> [] ->
   GetRawFontData pMacFont rBuffer0 true
   = {| ok := true; buffer := pMacFont "CFF "%string; JustCFF := Some true;
        layout := None |})
  /\ (pMacFont "CFF "%string = [] ->
      let r := GetRawFontData pMacFont rBuffer0 true in
      let r' := GetRawFontData pMacFont rBuffer0 false in
      ok r = ok r' /\ buffer r = buffer r' /\ layout r = layout r'
      /\ JustCFF r = Some false /\ JustCFF r' = None).
Proof.
  split.
  - intros Hcff. unfold GetRawFontData. cbv zeta.
    rewrite size_present. unfold present.
    destruct (pMacFont "CFF "%string) as [|x l] eqn:E; [contradiction|].
    cbn [andb]. unfold GetFontTable at 1 2 3. cbn [fst]. rewrite E.
    rewrite Z.eqb_refl. f_equal.
    apply copy_to_all. rewrite resize_length by lia. apply Nat2Z.id.
  - intros Hcff r r'. subst r r'.
    assert (Ecff : present pMacFont "CFF " = false) by (unfold present; now rewrite Hcff).
    unfold GetRawFontData. cbv zeta.
    rewrite size_present, !size_absent, Ecff. cbn [andb negb].
    destruct (present pMacFont "head"); cbn [negb andb]; [| repeat split].
    destruct (present pMacFont "maxp"); cbn [negb andb]; [| repeat split].
    destruct (present pMacFont "cmap"); cbn [negb andb]; [| repeat split].
    destruct (present pMacFont "name"); cbn [negb andb]; [| repeat split].
    destruct (present pMacFont "hhea"); cbn [negb andb]; [| repeat split].
    destruct (present pMacFont "hmtx"); cbn [negb andb]; [| repeat split].
    rewrite ?size_absent.
    destruct (present pMacFont "loca"); cbn [negb andb]; [| repeat split].
    destruct (present pMacFont "glyf"); cbn [negb andb]; [| repeat split].
    match goal with
    | |- context [match ?chain with Some _ => _ | None => _ end] =>
        destruct chain
    end.
    + cbn [ok buffer layout JustCFF]. split; [reflexivity|]. split; [reflexivity|]. split; [reflexivity|]. split; reflexivity.
    + cbn [ok buffer layout JustCFF failed]. split; [reflexivity|]. split; [reflexivity|]. split; [reflexivity|]. split; reflexivity.
Qed.

Lemma GetRawFontData_JustCFF_witness :
  GetRawFontData cff_font [7; 7; 7; 7; 7] true
  = {| ok := true; buffer := [1; 2; 3]; JustCFF := Some true; layout := None |}
  /\ JustCFF (GetRawFontData ttf_font [] true) = Some false.
Proof.
  destruct (GetRawFontData_JustCFF cff_font [7; 7; 7; 7; 7]) as [H _].
  destruct (GetRawFontData_JustCFF ttf_font []) as [_ H'].
  split.
  - apply H. discriminate.
  - destruct (H' eq_refl) as (_ & _ & _ & Hj & _). exact Hj.
Defined.

(** *** GetRawFontData: fonts with CFF outlines, and the header *)

(* The tables a font with CFF outlines must have, and the blocks that come
   after the "CFF " block. *)
Definition cff_required : list string :=
  ["head"; "maxp"; "cmap"; "name"; "hhea"; "hmtx"]%string.

Definition after_cff : list string :=
  ["head"; "hhea"; "hmtx"; "maxp"; "name"]%string.

(* One block whose nOfs += does not add the size of the table. *)
Lemma table_block_advance pMacFont t nAdvance st (p : nat) :
  pFakeEntry st = Z.of_nat p ->
  Z.of_nat p + 16 <= nOfs st ->
  nOfs st + size_of pMacFont t <= Z.of_nat (length (rBuffer st)) ->
  Z.of_nat (length (rBuffer st)) < 2 ^ 32 ->
  0 <= nAdvance < 2 ^ 32 ->
  exists st',
    table_block pMacFont t (size_of pMacFont t) nAdvance st = Some st'
    /\ nOfs st' = nOfs st + nAdvance
    /\ pFakeEntry st' = Z.of_nat (p + 16)
    /\ length (rBuffer st') = length (rBuffer st)
    /\ (forall k, (k < p)%nat \/ ((p + 16 <= k)%nat /\ Z.of_nat k < nOfs st)
                  \/ nOfs st + size_of pMacFont t <= Z.of_nat k ->
          nth k (rBuffer st') 0 = nth k (rBuffer st) 0)
    /\ entry_at (rBuffer st') p
       = {| tag := tag_of t; offset := nOfs st; len := size_of pMacFont t |}.
Proof.
  intros Hp Hdir Hroom Hsmall Hadv. unfold size_of in *.
  unfold table_block, GetFontTable. rewrite Z.eqb_refl. cbn [negb].
  set (buf1 := copy_to (rBuffer st) (nOfs st) (pMacFont t)).
  assert (Hl1 : length buf1 = length (rBuffer st)) by apply copy_to_length.
  rewrite Hp.
  destruct (FakeDirEntry_spec t (nOfs st) (Z.of_nat (length (pMacFont t))) buf1 p)
    as (Hp' & Hl & Hout & Hentry); [lia | lia | lia |].
  destruct (FakeDirEntry t (nOfs st) (Z.of_nat (length (pMacFont t))) buf1
              (Z.of_nat p)) as [buf2 p2].
  cbn [fst snd] in *. eexists. split; [reflexivity|]. cbn [nOfs pFakeEntry rBuffer].
  repeat split.
  - unfold wrap_ByteCount. apply Z.mod_small.
    change (2 ^ 32) with 4294967296 in *.
    change (2 ^ 64) with 18446744073709551616. lia.
  - exact Hp'.
  - congruence.
  - intros k Hk. rewrite Hout by lia. subst buf1. rewrite nth_copy_to by lia.
    destruct (Z.leb_spec (nOfs st) (Z.of_nat k)),
             (Z.ltb_spec (Z.of_nat k) (nOfs st + Z.of_nat (length (pMacFont t))));
      cbn [andb]; try reflexivity; lia.
  - exact Hentry.
Qed.

(** A font with CFF outlines that has the required tables is faked, when
    pJustCFF is null, with seven directory entries; the "CFF " block does
    not advance nOfs (it adds nGlyfSize, which is 0), so the entries of
    "CFF " and "head" record the same offset, the blocks from "head" on are
    laid out from there and hold their tables, nOfs ends the size of the
    "CFF " table below nTotalSize, and the "CFF " entry reads its table back
    only if that table starts like "head". *)
Theorem GetRawFontData_cff_layout (pMacFont : CoreTextFontFace)
    (rBuffer0 : list Z)
    (Hcff : pMacFont "CFF "%string <> [])
    (Hreq : forall t, In t cff_required -> pMacFont t <> [])
    (Hsmall : 12 + 16 * 7 + sizes pMacFont ("CFF "%string :: cff_required) < 2 ^ 31) :
  let r := GetRawFontData pMacFont rBuffer0 false in
  let nFdirSize := 12 + 16 * 7 in
  let nCff := nFdirSize + size_of pMacFont "cmap" in
  let nTotalSize :=
    nCff + size_of pMacFont "CFF " + sizes pMacFont after_cff in
  let cmap := {| tag := tag_of "cmap"; offset := nFdirSize;
                 len := size_of pMacFont "cmap" |} in
  let cff := {| tag := tag_of "CFF "; offset := nCff;
                len := size_of pMacFont "CFF " |} in
  ok r = true
  /\ layout r = Some (nTotalSize - size_of pMacFont "CFF ", nTotalSize)
  /\ Z.of_nat (length (buffer r)) = nTotalSize
  /\ directory (buffer r)
     = cmap :: cff :: expected_directory pMacFont nCff after_cff
  /\ table_bytes (buffer r) cmap = pMacFont "cmap"%string
  /\ Forall2 (fun e t => table_bytes (buffer r) e = pMacFont t)
             (expected_directory pMacFont nCff after_cff) after_cff
  /\ (table_bytes (buffer r) cff = pMacFont "CFF "%string ->
      forall k, (k < length (pMacFont "CFF "%string))%nat ->
                (k < length (pMacFont "head"%string))%nat ->
        nth k (pMacFont "CFF "%string) 0 = nth k (pMacFont "head"%string) 0).
Proof.
  intros r nFdirSize nCff nTotalSize cmap cff.
  assert (Hpos : forall t, In t cff_required -> 0 < size_of pMacFont t).
  { intros t Ht. specialize (Hreq t Ht). unfold size_of.
    destruct (pMacFont t); [contradiction | simpl; lia]. }
  pose proof (Hpos "head"%string ltac:(simpl; tauto)) as Hhead.
  pose proof (Hpos "maxp"%string ltac:(simpl; tauto)) as Hmaxp.
  pose proof (Hpos "cmap"%string ltac:(simpl; tauto)) as Hcmap.
  pose proof (Hpos "name"%string ltac:(simpl; tauto)) as Hname.
  pose proof (Hpos "hhea"%string ltac:(simpl; tauto)) as Hhhea.
  pose proof (Hpos "hmtx"%string ltac:(simpl; tauto)) as Hhmtx.
  assert (Pcff : 0 < size_of pMacFont "CFF ").
  { unfold size_of. destruct (pMacFont "CFF "%string); [contradiction | simpl; lia]. }
  cbn [cff_required sizes fold_right] in Hsmall.
  change (2 ^ 31) with 2147483648 in Hsmall.
  assert (Ec : nonzero (size_of pMacFont "CFF ") = true)
    by (unfold nonzero; destruct (Z.eqb_spec (size_of pMacFont "CFF ") 0);
        [lia | reflexivity]).
  subst r nFdirSize nCff nTotalSize cmap cff.
  unfold GetRawFontData, after_cff. cbv zeta.
  repeat match goal with
         | |- context [fst (GetFontTable pMacFont ?t None rBuffer0)] =>
             change (fst (GetFontTable pMacFont t None rBuffer0))
               with (size_of pMacFont t)
         end.
  cbn [andb].
  repeat match goal with
         | |- context [size_of pMacFont ?t <=? 0] =>
             destruct (Z.leb_spec (size_of pMacFont t) 0); [lia|]
         end.
  cbn [andb]. rewrite Ec. change (nonzero 0) with false. cbv iota.
  change (0 >? 0) with false. cbn [b2z table_block_if].
  change (nonzero 0) with false. cbn [table_block_if].
  rewrite !bind_skip.
  match goal with
  | |- context [if ?c <? 16 then _ else _] => change (c <? 16) with true
  end; cbv iota.
  match goal with
  | |- context [log2_loop 32 ?n 0] =>
      let v := eval vm_compute in (log2_loop 32 n 0) in
      change (log2_loop 32 n 0) with v
  end.
  unwrap.
  match goal with
  | |- context [{| rBuffer := ?b; nOfs := ?o; pFakeEntry := 12 |}] =>
      set (st0 := {| rBuffer := b; nOfs := o; pFakeEntry := 12 |});
      set (buf0 := b) in *
  end.
  assert (Hlen0 : Z.of_nat (length buf0)
                  = 124 + size_of pMacFont "cmap" + size_of pMacFont "CFF "
                    + sizes pMacFont ["head"; "hhea"; "hmtx"; "maxp"; "name"]%string).
  { subst buf0. rewrite !buffer_poke_length, resize_length by lia.
    cbn [sizes fold_right]. lia. }
  assert (Hcount : nth 5 buf0 0 = 7).
  { subst buf0. rewrite !nth_poke_diff by lia.
    rewrite nth_poke_same
      by (rewrite ?buffer_poke_length, ?resize_length by lia; lia).
    reflexivity. }
  cbn [sizes fold_right] in Hlen0.
  destruct (table_block_spec pMacFont "cmap" st0 12 eq_refl)
    as (st1 & E1 & Hofs1 & Hp1 & Hl1 & Hout1 & Hentry1 & Hdata1);
    [ unfold st0; cbn [nOfs]; lia | unfold st0; cbn [nOfs rBuffer]; lia
    | unfold st0; cbn [rBuffer]; change (2 ^ 32) with 4294967296; lia |].
  unfold st0 in Hofs1, Hl1, Hout1, Hentry1, Hdata1.
  cbn [nOfs rBuffer] in Hofs1, Hl1, Hout1, Hentry1, Hdata1.
  destruct (table_block_advance pMacFont "CFF " 0 st1 28 Hp1)
    as (st2 & E2 & Hofs2 & Hp2 & Hl2 & Hout2 & Hentry2);
    [ lia | lia | change (2 ^ 32) with 4294967296; lia
    | change (2 ^ 32) with 4294967296; lia |].
  destruct (run_blocks_spec pMacFont 124
              ["head"; "hhea"; "hmtx"; "maxp"; "name"]%string st2 44 Hp2)
    as (st' & Erun & Hofs' & Hlen' & Hout' & Hlaid');
    [ cbn [length]; lia | lia | cbn [sizes fold_right]; lia
    | change (2 ^ 32) with 4294967296; lia |].
  cbn [sizes fold_right] in Hofs', Hout'.
  unfold run_blocks in Erun. cbn [fold_left] in Erun.
  rewrite E1. cbn [bind]. rewrite E2. cbn [bind]. cbn [bind] in Erun.
  rewrite Erun. cbn [ok layout buffer].
  destruct (laid_out_directory pMacFont (rBuffer st') _ 2 _ Hlaid') as [Hdir Hbytes].
  rewrite Hofs2, Hofs1, Z.add_0_r in *.
  replace (12 + 16 * (7 + (0 + 0 + 0 + 0))) with (12 + 16 * 7) in * by reflexivity.
  assert (Hsame : forall k, (k < 28)%nat \/ 124 <= Z.of_nat k < 124 + size_of pMacFont "cmap" ->
            nth k (rBuffer st') 0 = nth k (rBuffer st1) 0).
  { intros k Hk. rewrite Hout' by lia. apply Hout2. lia. }
  split; [reflexivity|].
  split; [cbn [sizes fold_right]; f_equal; f_equal; lia|].
  split; [cbn [sizes fold_right]; lia|].
  split; [| split; [| split]].
  - unfold directory. rewrite Hsame, Hout1, Hcount by lia.
    change (Z.to_nat 7) with 7%nat. change (seq 0 7) with (0 :: 1 :: seq 2 5)%nat.
    cbn [map]. f_equal; [| f_equal].
    + change (dir_entry (rBuffer st') 0) with (entry_at (rBuffer st') 12).
      rewrite <- Hentry1. apply entry_at_ext; [congruence|].
      intros k Hk. apply Hsame. lia.
    + change (dir_entry (rBuffer st') 1) with (entry_at (rBuffer st') 28).
      rewrite <- Hentry2. apply entry_at_ext; [congruence|].
      intros k Hk. apply Hout'. lia.
    + exact Hdir.
  - unfold table_bytes, size_of. cbn [len offset]. rewrite Nat2Z.id.
    rewrite <- Hdata1 at 2. apply firstn_skipn_ext; [congruence|].
    intros k Hk. apply Hsame. unfold size_of. lia.
  - exact Hbytes.
  - unfold table_bytes, size_of. cbn [len offset]. rewrite Nat2Z.id.
    intros Hread k Hk1 Hk2.
    destruct Hlaid' as (_ & Hhd & _).
    transitivity (nth (Z.to_nat (12 + 16 * 7 + size_of pMacFont "cmap") + k)
                      (rBuffer st') 0).
    + rewrite <- Hread at 1. rewrite nth_firstn.
      destruct (Nat.ltb_spec k (length (pMacFont "CFF "%string))); [| lia].
      apply nth_skipn.
    + rewrite <- Hhd at 1. rewrite nth_firstn.
      destruct (Nat.ltb_spec k (length (pMacFont "head"%string))); [| lia].
      symmetry. apply nth_skipn.
Qed.

Lemma GetRawFontData_cff_layout_witness :
  let r := GetRawFontData cff_font [] false in
  layout r = Some (132, 135)
  /\ nth_error (directory (buffer r)) 1
     = Some {| tag := tag_of "CFF "; offset := 126; len := 3 |}
  /\ nth_error (directory (buffer r)) 2
     = Some {| tag := tag_of "head"; offset := 126; len := 2 |}.
Proof.
  destruct (GetRawFontData_cff_layout cff_font []) as (_ & Hl & _ & Hd & _).
  - discriminate.
  - intros t Ht. simpl in Ht.
    repeat (destruct Ht as [<- | Ht]; [discriminate|]). contradiction.
  - reflexivity.
  - cbv zeta. rewrite Hl, Hd. repeat split.
Defined.

Lemma nth_resize (buf : list Z) (n : Z) (k : nat) :
  Z.of_nat k < n -> nth k (resize buf n) 0 = nth k buf 0.
Proof.
  intros Hk. unfold resize.
  destruct (Nat.ltb_spec k (length buf)) as [Hin | Hout].
  - rewrite app_nth1 by (rewrite length_firstn; lia).
    rewrite nth_firstn. destruct (Nat.ltb_spec k (Z.to_nat n)); [reflexivity | lia].
  - rewrite app_nth2 by (rewrite length_firstn; lia).
    rewrite nth_repeat. symmetry. apply nth_overflow. exact Hout.
Qed.

(** In the header of the font faked for a font with glyf outlines,
    GetRawFontData writes the bytes 1, 5, 7, 9 and 11 only: 1, the number
    of tables, nLog2 * 16, nLog2 and (count - nLog2) * 16, with nLog2 = 3.
    The bytes 0, 2, 3, 4, 6, 8 and 10 are what rBuffer held there before
    the call, and 0 where it was shorter: rBuffer is not cleared. *)
Theorem GetRawFontData_header (pMacFont : CoreTextFontFace)
    (rBuffer0 : list Z) (pJustCFF : bool)
    (Hcff : pMacFont "CFF "%string = [])
    (Hreq : forall t, In t required_tables -> pMacFont t <> [])
    (Hsmall : 12 + 16 * 11 + sizes pMacFont all_tables < 2 ^ 31) :
  let r := GetRawFontData pMacFont rBuffer0 pJustCFF in
  let n := Z.of_nat (length (glyf_tables pMacFont)) in
  map (fun k => nth k (buffer r) 0) [1; 5; 7; 9; 11]%nat
  = [1; n; 3 * 16; 3; (n - 3) * 16]
  /\ (forall k, In k [0; 2; 3; 4; 6; 8; 10]%nat ->
        nth k (buffer r) 0 = nth k rBuffer0 0).
Proof.
  intros r n.
  assert (G : forall tags, tags = glyf_tables pMacFont ->
            map (fun k => nth k (buffer r) 0) [1; 5; 7; 9; 11]%nat
            = [1; Z.of_nat (length tags); 3 * 16; 3; (Z.of_nat (length tags) - 3) * 16]
            /\ (forall k, In k [0; 2; 3; 4; 6; 8; 10]%nat ->
                  nth k (buffer r) 0 = nth k rBuffer0 0));
    [| exact (G _ eq_refl)].
  clear n. intros tags. subst r.
  assert (Hpos : forall t, In t required_tables -> 0 < size_of pMacFont t).
  { intros t Ht. specialize (Hreq t Ht). unfold size_of.
    destruct (pMacFont t); [contradiction | simpl; lia]. }
  pose proof (Hpos "head"%string ltac:(simpl; tauto)) as Hhead.
  pose proof (Hpos "maxp"%string ltac:(simpl; tauto)) as Hmaxp.
  pose proof (Hpos "cmap"%string ltac:(simpl; tauto)) as Hcmap.
  pose proof (Hpos "name"%string ltac:(simpl; tauto)) as Hname.
  pose proof (Hpos "hhea"%string ltac:(simpl; tauto)) as Hhhea.
  pose proof (Hpos "hmtx"%string ltac:(simpl; tauto)) as Hhmtx.
  pose proof (Hpos "loca"%string ltac:(simpl; tauto)) as Hloca.
  pose proof (Hpos "glyf"%string ltac:(simpl; tauto)) as Hglyf.
  pose proof (size_of_nonneg pMacFont "prep") as Hprep.
  pose proof (size_of_nonneg pMacFont "cvt ") as Hcvt.
  pose proof (size_of_nonneg pMacFont "fpgm") as Hfpgm.
  cbn [all_tables sizes fold_right] in Hsmall.
  change (2 ^ 31) with 2147483648 in Hsmall.
  assert (Ecff : size_of pMacFont "CFF " = 0) by (unfold size_of; now rewrite Hcff).
  assert (Eg : nonzero (size_of pMacFont "glyf") = true)
    by (unfold nonzero; destruct (Z.eqb_spec (size_of pMacFont "glyf") 0);
        [lia | reflexivity]).
  assert (Cg : b2z (size_of pMacFont "glyf" >? 0) = 1)
    by (destruct (Z.gtb_spec (size_of pMacFont "glyf") 0); [reflexivity | lia]).
  assert (Hopt : forall t,
    (pMacFont t = [] /\ size_of pMacFont t = 0 /\ optional pMacFont t = [])
    \/ (0 < size_of pMacFont t /\ optional pMacFont t = [t])).
  { intros t. unfold size_of, optional. destruct (pMacFont t); [left | right];
      repeat split; simpl; lia. }
  unfold GetRawFontData, glyf_tables. cbv zeta.
  repeat match goal with
         | |- context [fst (GetFontTable pMacFont ?t None rBuffer0)] =>
             change (fst (GetFontTable pMacFont t None rBuffer0))
               with (size_of pMacFont t)
         end.
  rewrite Ecff. change (0 >? 0) with false. rewrite andb_false_r.
  change (0 <=? 0) with true. change (nonzero 0) with false. cbn [andb].
  repeat match goal with
         | |- context [size_of pMacFont ?t <=? 0] =>
             destruct (Z.leb_spec (size_of pMacFont t) 0); [lia|]
         end.
  rewrite Eg, Cg.
  assert (Hb : forall b, 0 <= b2z b <= 1) by (intros []; simpl; lia).
  pose proof (Hb (size_of pMacFont "prep" >? 0)) as Bprep.
  pose proof (Hb (size_of pMacFont "cvt " >? 0)) as Bcvt.
  pose proof (Hb (size_of pMacFont "fpgm" >? 0)) as Bfpgm.
  unwrap. clear Hb Bprep Bcvt Bfpgm.
  destruct (Hopt "prep"%string) as [(_ & Zprep & Oprep) | (Pprep & Oprep)];
  destruct (Hopt "cvt "%string) as [(_ & Zcvt & Ocvt) | (Pcvt & Ocvt)];
  destruct (Hopt "fpgm"%string) as [(_ & Zfpgm & Ofpgm) | (Pfpgm & Ofpgm)];
  rewrite Oprep, Ocvt, Ofpgm;
  rewrite ?Zprep, ?Zcvt, ?Zfpgm;
  repeat match goal with
         | H : 0 < size_of pMacFont ?t |- context [b2z (size_of pMacFont ?t >? 0)] =>
             replace (b2z (size_of pMacFont t >? 0)) with 1
               by (destruct (Z.gtb_spec (size_of pMacFont t) 0); [reflexivity | lia])
         | H : 0 < size_of pMacFont ?t |- context [nonzero (size_of pMacFont ?t)] =>
             replace (nonzero (size_of pMacFont t)) with true
               by (unfold nonzero; destruct (Z.eqb_spec (size_of pMacFont t) 0);
                   [lia | reflexivity])
         end;
  change (0 >? 0) with false; change (nonzero 0) with false; cbn [b2z];
  cbn [table_block_if app length sizes fold_right].
  all: match goal with
       | |- context [if ?c <? 16 then _ else _] => change (c <? 16) with true
       end; cbv iota.
  all: rewrite ?bind_skip, ?bind_taken.
  all: rewrite (bind_assoc _ (table_block pMacFont "glyf" _ _)
                             (table_block pMacFont "loca" _ _)).
  all: match goal with
       | |- context [log2_loop 32 ?n 0] =>
           let v := eval vm_compute in (log2_loop 32 n 0) in
           change (log2_loop 32 n 0) with v
       end.
  all: unwrap.
  all: match goal with
       | |- _ = ?tags -> _ =>
           match goal with
           | |- context [match ?chain with Some _ => _ | None => _ end] =>
               match chain with
               | context [{| rBuffer := ?b; nOfs := ?o; pFakeEntry := 12 |}] =>
                   change chain with
                     (run_blocks pMacFont tags
                        {| rBuffer := b; nOfs := o; pFakeEntry := 12 |});
                   set (buf1 := b); set (tbl := tags) in *
               end
           end
       end.
  all: intros Htags; subst tags.
  all: match goal with
       | |- context [run_blocks _ ?tb
                       {| rBuffer := ?b; nOfs := ?o; pFakeEntry := 12 |}] =>
           assert (Hlen1 : Z.of_nat (length b) = o + sizes pMacFont tb)
             by (subst b tb; rewrite !buffer_poke_length, resize_length by lia;
                 cbn [sizes fold_right]; lia);
           assert (Hcount : nth 5 b 0 = Z.of_nat (length tb))
             by (subst b tb; rewrite !nth_poke_diff by lia;
                 rewrite nth_poke_same
                   by (rewrite ?buffer_poke_length, ?resize_length by lia; lia);
                 reflexivity);
           destruct (run_blocks_spec pMacFont o tb
                       {| rBuffer := b; nOfs := o; pFakeEntry := 12 |} 12 eq_refl)
             as (st' & Erun & Hofs' & Hlen' & Hout' & Hlaid');
           [ subst tb; cbn [length]; lia
           | cbn [nOfs]; lia
           | cbn [nOfs rBuffer]; lia
           | cbn [rBuffer]; rewrite Hlen1; subst tb;
             cbn [sizes fold_right]; change (2 ^ 32) with 4294967296; lia
           | ]
       end.

  all: rewrite Erun; cbn [ok layout buffer nOfs rBuffer] in *.
  all: assert (Hhdr : forall k, (k < 12)%nat -> nth k (rBuffer st') 0 = nth k buf1 0)
         by (intros k Hk; apply Hout'; lia).
  all: assert (Hroom : 12 < Z.of_nat (length buf1))
         by (rewrite Hlen1; pose proof (sizes_nonneg pMacFont tbl); lia).
  all: cbn [map]; rewrite !Hhdr by lia.
  all: split;
       [ subst buf1; rewrite !buffer_poke_length, resize_length in Hroom by lia;
         repeat (apply f_equal2;
                 [ rewrite ?nth_poke_diff by lia;
                   rewrite nth_poke_same
                     by (rewrite ?buffer_poke_length, ?resize_length by lia; lia);
                   reflexivity |]);
         reflexivity
       | intros k Hk; rewrite Hhdr by (cbn [In] in Hk; lia);
         subst buf1; rewrite !buffer_poke_length, resize_length in Hroom by lia;
         rewrite !nth_poke_diff by (cbn [In] in Hk; lia);
         apply nth_resize; cbn [In] in Hk; lia ].
Qed.

Lemma GetRawFontData_header_witness :
  let r := GetRawFontData ttf_font (repeat 255 20) false in
  nth 0 (buffer r) 0 = 255 /\ nth 1 (buffer r) 0 = 1 /\ nth 4 (buffer r) 0 = 255.
Proof.
  destruct (GetRawFontData_header ttf_font (repeat 255 20) false) as [H1 H2].
  - reflexivity.
  - intros t Ht. simpl in Ht.
    repeat (destruct Ht as [<- | Ht]; [discriminate|]). contradiction.
  - reflexivity.
  - cbv zeta. pose proof (f_equal (fun l => hd 0 l) H1) as E1. cbn [map hd] in E1.
    split; [| split].
    + rewrite (H2 0%nat) by (simpl; tauto). reflexivity.
    + exact E1.
    + rewrite (H2 4%nat) by (simpl; tauto). reflexivity.
Defined.

(** *** The text styles of the fallback levels: SetFont and its readers *)

(* mpTextStyle[MAX_FALLBACK], a null entry being None; the array is as long
   as MAX_FALLBACK says. *)
Definition TextStyles := list (option CoreTextStyle).

(* for (int i = nFallbackLevel; i < MAX_FALLBACK; ++i)
   { if (!mpTextStyle[i]) break; mpTextStyle[i].clear(); }
   on the entries from nFallbackLevel on *)
Fixpoint release_styles (from : TextStyles) : TextStyles :=
  match from with
  | Some _ :: rest => None :: release_styles rest
  | _ => from
  end.

Fixpoint set_style (mpTextStyle : TextStyles) (i : nat) (p : option CoreTextStyle)
    : TextStyles :=
  match mpTextStyle, i with
  | [], _ => []
  | _ :: rest, O => p :: rest
  | s :: rest, S i => s :: set_style rest i p
  end.

(* void AquaSalGraphics::SetFont( LogicalFontInstance* pReqFont, int nFallbackLevel ) *)
Definition SetFont (mpTextStyle : TextStyles) (pReqFont : option CoreTextStyle)
    (nFallbackLevel : nat) : TextStyles :=
  let mpTextStyle :=
    firstn nFallbackLevel mpTextStyle
    ++ release_styles (skipn nFallbackLevel mpTextStyle) in
  match pReqFont with
  | None => mpTextStyle
  | Some _ => set_style mpTextStyle nFallbackLevel pReqFont
  end.

(* std::unique_ptr<GenericSalLayout> AquaSalGraphics::GetTextLayout( nFallbackLevel ):
   the style the layout is made for, or null *)
Definition GetTextLayout (mpTextStyle : TextStyles) (nFallbackLevel : nat)
    : option CoreTextStyle :=
  nth nFallbackLevel mpTextStyle None.

(* void AquaSalGraphics::GetFontMetric( rxFontMetric, nFallbackLevel ): the
   style whose GetFontMetric fills rxFontMetric, none when it is left alone *)
Definition GetFontMetric (mpTextStyle : TextStyles) (nFallbackLevel : nat)
    : option CoreTextStyle :=
  if (nFallbackLevel <? length mpTextStyle)%nat
  then nth nFallbackLevel mpTextStyle None else None.

(* bool AquaSalGraphics::GetFontCapabilities( rFontCapabilities ): the style
   that is asked, none for the result false *)
Definition GetFontCapabilities (mpTextStyle : TextStyles) : option CoreTextStyle :=
  nth 0 mpTextStyle None.

(* The styles are set up to a level and empty from there on. *)
Definition set_up_to (mpTextStyle : TextStyles) (n : nat) : Prop :=
  (forall i, (i < n)%nat -> nth i mpTextStyle None <> None)
  /\ (forall i, (n <= i)%nat -> nth i mpTextStyle None = None).

Lemma release_styles_length from : length (release_styles from) = length from.
Proof. induction from as [|[s|] rest IH]; simpl; auto. Qed.

Lemma release_styles_all from :
  (forall i, (i < length from)%nat -> nth i from None <> None
             \/ forall j, (i <= j)%nat -> nth j from None = None) ->
  forall i, nth i (release_styles from) None = None.
Proof.
  induction from as [|[s|] rest IH]; intros H i.
  - now destruct i.
  - cbn [release_styles]. destruct i as [|i]; [reflexivity|]. cbn [nth].
    apply IH. intros k Hk. destruct (H (S k) ltac:(simpl; lia)) as [Hs | Hn].
    + now left.
    + right. intros j Hj. apply (Hn (S j)). lia.
  - cbn [release_styles].
    destruct (H 0%nat ltac:(simpl; lia)) as [Hs | Hn]; [now contradiction Hs|].
    apply Hn. lia.
Qed.

Lemma set_style_nth mpTextStyle : forall i j p,
  nth j (set_style mpTextStyle i p) None
  = if (j =? i)%nat && (i <? length mpTextStyle)%nat then p
    else nth j mpTextStyle None.
Proof.
  induction mpTextStyle as [|s rest IH]; intros [|i] [|j] p; simpl; auto.
  now rewrite andb_false_r.
Qed.

(** When the text styles are set for the levels below some level and empty
    from there on, SetFont at a level not above it, with a font, leaves the
    levels below nFallbackLevel as they are, puts the font at
    nFallbackLevel and empties every higher level, so that the styles are
    set up to nFallbackLevel + 1; GetTextLayout and GetFontMetric at that
    level then work with the font; and SetFont with a null font empties the
    levels from nFallbackLevel on. *)
Theorem SetFont_levels (mpTextStyle : TextStyles) (pReqFont : option CoreTextStyle)
    (nFallbackLevel n : nat)
    (Hset : set_up_to mpTextStyle n)
    (Hlevel : (nFallbackLevel <= n)%nat)
    (Hfallback : (nFallbackLevel < length mpTextStyle)%nat) :
  let after := SetFont mpTextStyle pReqFont nFallbackLevel in
  length after = length mpTextStyle
  /\ (forall i, (i < nFallbackLevel)%nat -> nth i after None = nth i mpTextStyle None)
  /\ GetTextLayout after nFallbackLevel = pReqFont
  /\ GetFontMetric after nFallbackLevel = pReqFont
  /\ (forall i, (nFallbackLevel < i)%nat -> nth i after None = None)
  /\ set_up_to after (match pReqFont with
                      | Some _ => S nFallbackLevel
                      | None => nFallbackLevel
                      end).
Proof.
  intros after.
  set (cleared := firstn nFallbackLevel mpTextStyle
                  ++ release_styles (skipn nFallbackLevel mpTextStyle)).
  assert (Hlen : length cleared = length mpTextStyle).
  { subst cleared. rewrite length_app, release_styles_length, length_firstn,
      length_skipn. lia. }
  assert (Hlow : forall i, (i < nFallbackLevel)%nat ->
                   nth i cleared None = nth i mpTextStyle None).
  { intros i Hi. subst cleared. rewrite app_nth1 by (rewrite length_firstn; lia).
    rewrite nth_firstn. destruct (Nat.ltb_spec i nFallbackLevel); [reflexivity | lia]. }
  assert (Hhigh : forall i, (nFallbackLevel <= i)%nat -> nth i cleared None = None).
  { intros i Hi. subst cleared. rewrite app_nth2 by (rewrite length_firstn; lia).
    apply release_styles_all. intros k Hk. rewrite length_skipn in Hk.
    destruct Hset as [Hs Hn].
    destruct (Nat.lt_ge_cases (nFallbackLevel + k) n) as [Hlt | Hge].
    - left. rewrite nth_skipn. now apply Hs.
    - right. intros j Hj. rewrite nth_skipn. apply Hn. lia. }
  assert (Hafter : forall i, nth i after None
            = if (i =? nFallbackLevel)%nat then pReqFont else nth i cleared None).
  { intros i. subst after. unfold SetFont. fold cleared.
    destruct pReqFont as [f|].
    - rewrite set_style_nth, Hlen.
      destruct (Nat.ltb_spec nFallbackLevel (length mpTextStyle)); [| lia].
      now rewrite andb_true_r.
    - destruct (Nat.eqb_spec i nFallbackLevel) as [->|]; [| reflexivity].
      apply Hhigh. lia. }
  assert (Hl : length after = length mpTextStyle).
  { subst after. unfold SetFont. fold cleared. destruct pReqFont; [| exact Hlen].
    rewrite <- Hlen. clear. generalize nFallbackLevel.
    induction cleared as [|s rest IH]; intros [|i]; simpl; auto. }
  split; [exact Hl|]. split; [| split; [| split; [| split]]].
  - intros i Hi. rewrite Hafter.
    destruct (Nat.eqb_spec i nFallbackLevel); [lia | now apply Hlow].
  - unfold GetTextLayout. now rewrite Hafter, Nat.eqb_refl.
  - unfold GetFontMetric. rewrite Hl.
    destruct (Nat.ltb_spec nFallbackLevel (length mpTextStyle)); [| lia].
    now rewrite Hafter, Nat.eqb_refl.
  - intros i Hi. rewrite Hafter.
    destruct (Nat.eqb_spec i nFallbackLevel); [lia | apply Hhigh; lia].
  - destruct Hset as [Hs Hn]. split.
    + intros i Hi. rewrite Hafter.
      destruct (Nat.eqb_spec i nFallbackLevel) as [->|Hne].
      * destruct pReqFont; [discriminate | lia].
      * rewrite Hlow by (destruct pReqFont; lia). apply Hs. destruct pReqFont; lia.
    + intros i Hi. rewrite Hafter.
      destruct (Nat.eqb_spec i nFallbackLevel) as [->|Hne].
      * destruct pReqFont; [lia | reflexivity].
      * apply Hhigh. destruct pReqFont; lia.
Qed.

Definition three_levels : TextStyles :=
  [Some upright_style; Some upright_style; Some upright_style; None].

Lemma SetFont_levels_witness :
  GetTextLayout (SetFont three_levels (Some plain_style) 1) 1 = Some plain_style
  /\ nth 2 (SetFont three_levels (Some plain_style) 1) None = None
  /\ nth 0 (SetFont three_levels (Some plain_style) 1) None = Some upright_style.
Proof.
  destruct (SetFont_levels three_levels (Some plain_style) 1 3)
    as (_ & H2 & H3 & _ & H5 & _).
  - split.
    + intros [|[|[|i]]] Hi; simpl; (lia || discriminate).
    + intros [|[|[|[|[|i]]]]] Hi; simpl; (lia || reflexivity).
  - lia.
  - simpl. lia.
  - split; [exact H3|]. split; [apply H5; lia|].
    rewrite H2 by lia. reflexivity.
Defined.

(** *** FindFontSubstitute *)

(* An OUString as its UTF-16 code units. *)
Definition OUString := list Z.

Definition getLength (s : OUString) : Z := Z.of_nat (length s).

(* the nLen code units at getStr() + nIndex *)
Definition units (s : OUString) (nIndex nLen : Z) : OUString :=
  firstn (Z.to_nat nLen) (skipn (Z.to_nat nIndex) s).

(* FontAttributes and FontSelectPattern, as far as FindFontSubstitute reads
   and writes them. *)
Record FontAttributes := {
  GetFamilyName : string;
  GetWeight : Z;
  GetItalic : Z;
  GetPitch : Z;
  GetWidthType : Z }.

Record FontSelectPattern := {
  maSearchName : string;
  Weight : Z;
  Italic : Z;
  Pitch : Z;
  WidthType : Z }.

Section FindFontSubstitute.
(* CoreText and CoreFoundation, OUString::iterateCodePoints (which moves the
   index behind the code point it stands on) and DevFontFromCTFontDescriptor
   applied to the descriptor of a font belong to other parts of the suite
   and to the system. *)
Variable CTFontRef : Type.
Variable CFStringRef : Type.
Variable CreateCFString : OUString -> option CFStringRef.
Variable CTFontCreateForString : CTFontRef -> CFStringRef -> option CTFontRef.
Variable CTFontGetGlyphsForCharacters : CTFontRef -> OUString -> bool.
Variable iterateCodePoints : OUString -> Z -> Z.
Variable DevFontFromCTFontDescriptor : CTFontRef -> FontAttributes.

(* bool FontHasCharacter(CTFontRef pFont, const OUString& rString,
                         sal_Int32 nIndex, sal_Int32 nLen) *)
Definition FontHasCharacter (pFont : CTFontRef) (rString : OUString)
    (nIndex nLen : Z) : bool :=
  CTFontGetGlyphsForCharacters pFont (units rString nIndex nLen).

(* for (sal_Int32 nStrIndex = 0; nStrIndex < rMissingChars.getLength();) ...
   [None] when the fuel does not reach the end of the loop *)
Fixpoint still_missing (fuel : nat) (pFallback : CTFontRef)
    (rMissingChars : OUString) (nStrIndex : Z) (aStillMissingChars : OUString)
    : option OUString :=
  if nStrIndex <? getLength rMissingChars then
    match fuel with
    | O => None
    | S fuel =>
        let nOldStrIndex := nStrIndex in
        let nStrIndex := iterateCodePoints rMissingChars nStrIndex in
        let nCharLength := nStrIndex - nOldStrIndex in
        let aStillMissingChars :=
          if negb (FontHasCharacter pFallback rMissingChars nOldStrIndex nCharLength)
          then aStillMissingChars ++ units rMissingChars nOldStrIndex nCharLength
          else aStillMissingChars in
        still_missing fuel pFallback rMissingChars nStrIndex aStillMissingChars
    end
  else Some aStillMissingChars.

(* bool CoreTextGlyphFallbackSubstititution::FindFontSubstitute(
       rPattern, pLogicalFont, rMissingChars ): the result, rPattern and
   rMissingChars afterwards; pFont is the font of pLogicalFont's style *)
Definition FindFontSubstitute (fuel : nat) (rPattern : FontSelectPattern)
    (pFont : CTFontRef) (rMissingChars : OUString)
    : option (bool * FontSelectPattern * OUString) :=
  let bFound := false in
  match CreateCFString rMissingChars with
  | None => Some (bFound, rPattern, rMissingChars)
  | Some pStr =>
      match CTFontCreateForString pFont pStr with
      | None => Some (bFound, rPattern, rMissingChars)
      | Some pFallback =>
          let bFound := true in
          match still_missing fuel pFallback rMissingChars 0 [] with
          | None => None
          | Some aStillMissingChars =>
              let rAttr := DevFontFromCTFontDescriptor pFallback in
              Some (bFound,
                    {| maSearchName := GetFamilyName rAttr;
                       Weight := GetWeight rAttr;
                       Italic := GetItalic rAttr;
                       Pitch := GetPitch rAttr;
                       WidthType := GetWidthType rAttr |},
                    aStillMissingChars)
          end
      end
  end.

(* The code points of a string from an index on, as iterateCodePoints
   steps through them. *)
Fixpoint code_points (fuel : nat) (s : OUString) (nStrIndex : Z) : list OUString :=
  if nStrIndex <? getLength s then
    match fuel with
    | O => []
    | S fuel =>
        units s nStrIndex (iterateCodePoints s nStrIndex - nStrIndex)
        :: code_points fuel s (iterateCodePoints s nStrIndex)
    end
  else [].

(* The fallback font the system offers for a string, if any. *)
Definition fallback_for (pFont : CTFontRef) (rMissingChars : OUString)
    : option CTFontRef :=
  match CreateCFString rMissingChars with
  | None => None
  | Some pStr => CTFontCreateForString pFont pStr
  end.

Definition lacks (pFallback : CTFontRef) (c : OUString) : bool :=
  negb (CTFontGetGlyphsForCharacters pFallback c).

Definition attributes_of (rAttr : FontAttributes) : FontSelectPattern :=
  {| maSearchName := GetFamilyName rAttr; Weight := GetWeight rAttr;
     Italic := GetItalic rAttr; Pitch := GetPitch rAttr;
     WidthType := GetWidthType rAttr |}.

(* iterateCodePoints moves forward and stays in the string. *)
Hypothesis iterateCodePoints_advances : forall s nStrIndex,
  0 <= nStrIndex < getLength s ->
  nStrIndex < iterateCodePoints s nStrIndex <= getLength s.

Lemma still_missing_spec pFallback s : forall fuel nStrIndex acc,
  0 <= nStrIndex -> getLength s - nStrIndex < Z.of_nat fuel ->
  still_missing fuel pFallback s nStrIndex acc
  = Some (acc ++ concat (filter (lacks pFallback) (code_points fuel s nStrIndex))).
Proof.
  induction fuel as [|fuel IH]; intros i acc Hi Hf; cbn [still_missing code_points].
  - destruct (Z.ltb_spec i (getLength s)); [lia|]. now rewrite app_nil_r.
  - destruct (Z.ltb_spec i (getLength s)) as [Hin | Hout].
    + pose proof (iterateCodePoints_advances s i ltac:(lia)) as Hadv.
      cbv zeta. rewrite IH by lia. unfold FontHasCharacter. cbn [filter].
      unfold lacks at 2.
      destruct (negb (CTFontGetGlyphsForCharacters pFallback _)).
      * cbn [concat]. now rewrite app_assoc.
      * reflexivity.
    + now rewrite app_nil_r.
Qed.

Lemma units_next (s : OUString) (i j : Z) :
  0 <= i <= j -> j <= getLength s ->
  units s i (j - i) ++ skipn (Z.to_nat j) s = skipn (Z.to_nat i) s.
Proof.
  intros Hij Hj. unfold units, getLength in *.
  replace (Z.to_nat j) with (Z.to_nat (j - i) + Z.to_nat i)%nat by lia.
  rewrite <- skipn_skipn. apply firstn_skipn.
Qed.

Lemma code_points_concat s : forall fuel nStrIndex,
  0 <= nStrIndex -> getLength s - nStrIndex < Z.of_nat fuel ->
  concat (code_points fuel s nStrIndex) = skipn (Z.to_nat nStrIndex) s
  /\ Forall (fun c => c <> []) (code_points fuel s nStrIndex).
Proof.
  induction fuel as [|fuel IH]; intros i Hi Hf; cbn [code_points].
  - destruct (Z.ltb_spec i (getLength s)); [lia|]. split; [| constructor].
    cbn [concat]. symmetry. apply skipn_all2. unfold getLength in *. lia.
  - destruct (Z.ltb_spec i (getLength s)) as [Hin | Hout].
    + pose proof (iterateCodePoints_advances s i ltac:(lia)) as Hadv.
      destruct (IH (iterateCodePoints s i)) as [IH1 IH2]; [lia | lia |].
      cbn [concat]. rewrite IH1. split; [apply units_next; lia|].
      constructor; [| exact IH2].
      intros E. apply (f_equal (@length Z)) in E. unfold units, getLength in *.
      rewrite length_firstn, length_skipn in E. cbn [length] in E. lia.
    + split; [| constructor].
      cbn [concat]. symmetry. apply skipn_all2. unfold getLength in *. lia.
Qed.

(** FindFontSubstitute, when the system offers no fallback font, returns
    false and leaves the pattern and rMissingChars alone. When it offers
    one, it returns true, copies the family name, weight, italic, pitch and
    width type of the fallback into the pattern, and rMissingChars becomes
    the code points of the old string that the fallback has no glyph for,
    in their order: the code points partition the old string, none is
    empty, and only whole code points are dropped. *)
Theorem FindFontSubstitute_still_missing (fuel : nat) (rPattern : FontSelectPattern)
    (pFont : CTFontRef) (rMissingChars : OUString)
    (Hfuel : (length rMissingChars < fuel)%nat) :
  let chars := code_points fuel rMissingChars 0 in
  concat chars = rMissingChars
  /\ Forall (fun c => c <> []) chars
  /\ FindFontSubstitute fuel rPattern pFont rMissingChars
     = Some match fallback_for pFont rMissingChars with
            | None => (false, rPattern, rMissingChars)
            | Some pFallback =>
                (true, attributes_of (DevFontFromCTFontDescriptor pFallback),
                 concat (filter (lacks pFallback) chars))
            end.
Proof.
  intros chars. subst chars.
  destruct (code_points_concat rMissingChars fuel 0) as [Hc Hn];
    [lia | unfold getLength; lia |].
  split; [exact Hc|]. split; [exact Hn|].
  unfold FindFontSubstitute, fallback_for. cbv zeta.
  destruct (CreateCFString rMissingChars) as [pStr|]; [| reflexivity].
  destruct (CTFontCreateForString pFont pStr) as [pFallback|]; [| reflexivity].
  rewrite still_missing_spec by (unfold getLength; lia). reflexivity.
Qed.
End FindFontSubstitute.

(* UTF-16 as iterateCodePoints reads it: a high surrogate followed by a low
   one is one code point of two units, every other unit is one by itself. *)
Definition utf16_next (s : OUString) (nStrIndex : Z) : Z :=
  let c := nth (Z.to_nat nStrIndex) s 0 in
  let d := nth (Z.to_nat (nStrIndex + 1)) s 0 in
  if (55296 <=? c) && (c <=? 56319) && (nStrIndex + 1 <? getLength s)
     && (56320 <=? d) && (d <=? 57343)
  then nStrIndex + 2 else nStrIndex + 1.

Lemma utf16_next_advances s nStrIndex :
  0 <= nStrIndex < getLength s ->
  nStrIndex < utf16_next s nStrIndex <= getLength s.
Proof.
  intros H. unfold utf16_next. cbv zeta.
  destruct (Z.ltb_spec (nStrIndex + 1) (getLength s));
    rewrite ?andb_false_r; cbn [andb];
    repeat match goal with |- context [if ?b then _ else _] => destruct b end; lia.
Qed.

(* A system whose only fallback font has glyphs for the code points above
   the basic plane, and none else. *)
Definition emoji_font (c : OUString) : bool := (1 <? getLength c).

Definition emoji_attributes : FontAttributes :=
  {| GetFamilyName := "Apple Color Emoji"; GetWeight := 5; GetItalic := 0;
     GetPitch := 2; GetWidthType := 5 |}.

Definition some_pattern : FontSelectPattern :=
  {| maSearchName := "Helvetica"; Weight := 7; Italic := 1; Pitch := 1;
     WidthType := 3 |}.

Definition sample_FindFontSubstitute :=
  FindFontSubstitute unit unit (fun _ => Some tt) (fun _ _ => Some tt)
    (fun _ => emoji_font) utf16_next (fun _ => emoji_attributes).

Lemma FindFontSubstitute_still_missing_witness :
  sample_FindFontSubstitute 5 some_pattern tt [65; 55357; 56832; 66]
  = Some (true, attributes_of emoji_attributes, [65; 66]).
Proof.
  destruct (FindFontSubstitute_still_missing unit unit (fun _ => Some tt)
              (fun _ _ => Some tt) (fun _ => emoji_font) utf16_next
              (fun _ => emoji_attributes) utf16_next_advances
              5 some_pattern tt [65; 55357; 56832; 66]) as (_ & _ & H).
  - simpl. lia.
  - unfold sample_FindFontSubstitute. rewrite H. reflexivity.
Defined.
End SalGdi.

(** ** The bibliography table (sw/qa/core/tox/tox.cxx) *)
Module Tox.

(* A bibliography entry field of type WWW, with the fields the table shows. *)
Record AuthorityField := {
  Identifier : string;
  Author : string;
  Title : string;
  Year : string;
  URL : string }.

(* A row of the bibliography table: its text, and the target of the
   hyperlink on its URL portion. *)
Record TableRow := {
  row_source : AuthorityField;
  HyperLinkURL : string }.

(** Modelled from the spec: the bibliography table updater itself
    (sw/source/core/tox) is not part of the excerpt, only its tests are;
    "scans field content, deduplicates sources by URL, strips fragment
    identifiers". The fragment identifier is the part of the URL from its
    first '#' on. *)
Fixpoint strip_fragment (url : string) : string :=
  match url with
  | EmptyString => EmptyString
  | String c rest =>
      if Ascii.eqb c "#" then EmptyString else String c (strip_fragment rest)
  end.

Definition seen_before (url : string) (rows : list TableRow) : bool :=
  existsb (fun r => String.eqb (HyperLinkURL r) url) rows.

(** Modelled from the spec: the update of the table scans the fields in
    document order and adds a row for a field unless the table already has
    a row for its URL without the fragment. *)
Fixpoint scan_fields (fields : list AuthorityField) (rows : list TableRow)
    : list TableRow :=
  match fields with
  | [] => rows
  | f :: rest =>
      let url := strip_fragment (URL f) in
      if seen_before url rows then scan_fields rest rows
      else scan_fields rest (rows ++ [{| row_source := f; HyperLinkURL := url |}])
  end.

Definition update (fields : list AuthorityField) : list TableRow :=
  scan_fields fields [].

(* "AT: Author, Title, , http://www.example.com/test.pdf" *)
Definition row_text (r : TableRow) : string :=
  let f := row_source r in
  (Identifier f ++ ": " ++ Author f ++ ", " ++ Title f ++ ", " ++ Year f
   ++ ", " ++ HyperLinkURL r)%string.

Definition has_fragment (url : string) : bool :=
  existsb (fun c => Ascii.eqb c "#") (list_ascii_of_string url).

Definition www (id url : string) : AuthorityField :=
  {| Identifier := id; Author := "Author"; Title := "Title"; Year := ""; URL := url |}.

Definition urls (rows : list TableRow) : list string := map HyperLinkURL rows.

(* What the scan keeps true of the rows. *)
Definition rows_ok (rows : list TableRow) : Prop :=
  NoDup (urls rows)
  /\ Forall (fun r => HyperLinkURL r = strip_fragment (URL (row_source r))) rows.

Lemma strip_fragment_no_fragment url :
  has_fragment (strip_fragment url) = false.
Proof.
  unfold has_fragment. induction url as [|c rest IH]; simpl; [reflexivity|].
  destruct (Ascii.eqb c "#") eqn:E; simpl; [reflexivity|].
  rewrite E. exact IH.
Qed.

Lemma strip_fragment_unchanged url :
  has_fragment url = false -> strip_fragment url = url.
Proof.
  unfold has_fragment. induction url as [|c rest IH]; simpl; [reflexivity|].
  intros H. apply orb_false_iff in H as [Hc Hr].
  rewrite Hc. now rewrite IH.
Qed.

Lemma strip_fragment_prefix url :
  exists fragment, url = (strip_fragment url ++ fragment)%string
    /\ (fragment = EmptyString \/ exists t, fragment = String "#" t).
Proof.
  induction url as [|c rest (fr & E & H)]; simpl.
  - exists EmptyString. auto.
  - destruct (Ascii.eqb_spec c "#"%char) as [->|].
    + exists (String "#" rest). split; [reflexivity | right; eauto].
    + exists fr. simpl. split; [now f_equal | exact H].
Qed.

Lemma seen_before_In url rows : seen_before url rows = true <-> In url (urls rows).
Proof.
  unfold seen_before, urls. rewrite existsb_exists, in_map_iff.
  split; intros (r & H1 & H2).
  - exists r. split; [| assumption]. now apply String.eqb_eq.
  - exists r. split; [assumption|]. subst. apply String.eqb_refl.
Qed.

Lemma scan_fields_spec fields : forall rows,
  rows_ok rows ->
  rows_ok (scan_fields fields rows)
  /\ (forall u, In u (urls (scan_fields fields rows)) <->
                In u (urls rows) \/ In u (map (fun f => strip_fragment (URL f)) fields))
  /\ (forall r, In r (scan_fields fields rows) ->
                In r rows \/ In (row_source r) fields).
Proof.
  induction fields as [|f rest IH]; intros rows Hok; simpl.
  - split; [exact Hok|]. split; [| auto].
    intros u. split; [auto | intros [H|[]]; exact H].
  - destruct (seen_before (strip_fragment (URL f)) rows) eqn:Es.
    + destruct (IH rows Hok) as (H1 & H2 & H3).
      split; [exact H1|]. split.
      * intros u. split.
        -- intros H. apply H2 in H. tauto.
        -- intros [H|[<-|H]]; apply H2; auto.
           left. now apply seen_before_In.
      * intros r Hr. apply H3 in Hr. tauto.
    + set (row := {| row_source := f; HyperLinkURL := strip_fragment (URL f) |}).
      assert (Hok' : rows_ok (rows ++ [row])).
      { destruct Hok as [Hnd Hall]. split.
        - unfold urls. rewrite map_app. simpl.
          apply NoDup_app; [assumption | repeat constructor; auto |].
          intros u Hu [<-|[]].
          apply seen_before_In in Hu. congruence.
        - apply Forall_app. split; [assumption|]. repeat constructor. }
      destruct (IH _ Hok') as (H1 & H2 & H3).
      split; [exact H1|]. split.
      * intros u. rewrite H2. unfold urls. rewrite map_app, in_app_iff. simpl.
        tauto.
      * intros r Hr. apply H3 in Hr. rewrite in_app_iff in Hr. simpl in Hr.
        destruct Hr as [[Hr|[<-|[]]]|Hr]; auto.
Qed.

(** C1: the rows of the updated table stand for the URLs of the fields
    without their fragments, one row each: two fields whose URLs are the
    same up to the fragment share their row, fields with different URLs
    before the fragment have different rows, and every row comes from a
    field. *)
Theorem update_deduplicates (fields : list AuthorityField) :
  NoDup (urls (update fields))
  /\ (forall f, In f fields ->
        exists r, In r (update fields)
                  /\ HyperLinkURL r = strip_fragment (URL f)
                  /\ forall r', In r' (update fields) ->
                       HyperLinkURL r' = strip_fragment (URL f) -> r' = r)
  /\ (forall f g r s, In f fields -> In g fields ->
        In r (update fields) -> In s (update fields) ->
        HyperLinkURL r = strip_fragment (URL f) ->
        HyperLinkURL s = strip_fragment (URL g) ->
        (r = s <-> strip_fragment (URL f) = strip_fragment (URL g)))
  /\ (forall r, In r (update fields) -> In (row_source r) fields).
Proof.
  assert (Hnil : rows_ok []) by (split; constructor).
  destruct (scan_fields_spec fields [] Hnil) as ((Hnd & Hall) & Hu & Hsrc).
  fold (update fields) in *.
  assert (Hinj : forall r s, In r (update fields) -> In s (update fields) ->
                   HyperLinkURL r = HyperLinkURL s -> r = s).
  { revert Hnd. unfold urls. generalize (update fields) as rows.
    induction rows as [|a rows IHr]; simpl; intros Hnd r s Hr Hs E; [contradiction|].
    inversion Hnd as [|? ? Hna Hnd']; subst.
    destruct Hr as [<-|Hr], Hs as [<-|Hs].
    - reflexivity.
    - exfalso. apply Hna. rewrite E. now apply in_map.
    - exfalso. apply Hna. rewrite <- E. now apply in_map.
    - now apply IHr. }
  split; [exact Hnd|]. split; [| split].
  - intros f Hf.
    assert (Hin : In (strip_fragment (URL f)) (urls (update fields))).
    { apply Hu. right. apply in_map_iff. now exists f. }
    apply in_map_iff in Hin as (r & Hr & Hrin).
    exists r. repeat split; auto.
    intros r' Hr' E. apply Hinj; congruence.
  - intros f g r s _ _ Hr Hs Er Es. split.
    + intros <-. congruence.
    + intros E. apply Hinj; congruence.
  - intros r Hr. destruct (Hsrc r Hr) as [[]|H]. exact H.
Qed.

(** C2: the hyperlink of every row is the URL of its source without the
    fragment identifier, and every field has such a row; nothing from a
    '#' on is left in it, what stands before the '#' is kept, and a URL
    that has no '#' is shown as it is. *)
Theorem update_strips_fragment (fields : list AuthorityField) :
  (forall r, In r (update fields) ->
     In (row_source r) fields
     /\ HyperLinkURL r = strip_fragment (URL (row_source r))
     /\ has_fragment (HyperLinkURL r) = false
     /\ exists fragment,
          URL (row_source r) = (HyperLinkURL r ++ fragment)%string
          /\ (fragment = EmptyString \/ exists t, fragment = String "#" t))
  /\ (forall f, In f fields ->
        exists r, In r (update fields)
                  /\ HyperLinkURL r = strip_fragment (URL f)
                  /\ (has_fragment (URL f) = false -> HyperLinkURL r = URL f)).
Proof.
  assert (Hnil : rows_ok []) by (split; constructor).
  destruct (scan_fields_spec fields [] Hnil) as ((Hnd & Hall) & Hu & Hsrc).
  fold (update fields) in *. split.
  - intros r Hr. rewrite Forall_forall in Hall. specialize (Hall r Hr).
    split; [destruct (Hsrc r Hr) as [[]|H]; exact H|].
    split; [exact Hall|]. rewrite Hall.
    split; [apply strip_fragment_no_fragment | apply strip_fragment_prefix].
  - intros f Hf.
    assert (Hin : In (strip_fragment (URL f)) (urls (update fields))).
    { apply Hu. right. apply in_map_iff. now exists f. }
    apply in_map_iff in Hin as (r & Hr & Hrin).
    exists r. repeat split; auto.
    intros H. rewrite Hr. now apply strip_fragment_unchanged.
Qed.

(* testAuthorityTableURLDeduplication *)
Example testAuthorityTableURLDeduplication :
  map row_text (update [ www "AT" "http://www.example.com/test.pdf#page=1";
                         www "AT" "http://www.example.com/test.pdf#page=2";
                         www "AT" "http://www.example.com/test2.pdf" ])
  = [ "AT: Author, Title, , http://www.example.com/test.pdf"%string;
      "AT: Author, Title, , http://www.example.com/test2.pdf"%string ].
Proof. reflexivity. Qed.

(* testAuthorityTableEntryURL and testAuthorityLinkClick *)
Example testAuthorityTableEntryURL :
  urls (update [www "AT" "http://www.example.com/test.pdf#page=1"])
  = ["http://www.example.com/test.pdf"%string]
  /\ urls (update [www "ARJ00" "http://www.example.com/test.pdf"])
     = ["http://www.example.com/test.pdf"%string].
Proof. split; reflexivity. Qed.
End Tox.
